(** * FFC quadrature transformer and wrapper encapsulation

    A shallow embedding of [ffc/quadrature/quadraturetransformer.py]
    (class [QuadratureTransformer]) and of [ffc/wrappers.py], with the
    properties of the visitor operations and of the encapsulation.

    Conventions of the embedding.
    - A Python [dict] is an association list with pairwise distinct keys,
      in the order of insertion: a key that is new goes to the end, a key
      that is present keeps its place.  This order is how the dictionary is
      written down, not how the program sees it: the source is Python 2,
      where [items()] goes through a dictionary in the order of its hash
      table.  Where what the program computes depends on that order, the
      enumeration is a parameter that is only assumed to reorder the entries
      ([enumerates]): [duplications.items()] in [sum], which fixes the order
      of the terms that are added, and [permutations.items()] in [product],
      which fixes the entry that is written last at a sorted key and comes
      with the permutation generator, itself a parameter.  The other
      loops over [items()] handle each key by itself, so the dictionary they
      build is the same in every order; they go through the list as it is.
    - A code token is [option string]: [None] is Python's [None] (symbolic
      zero), [Some s] the emitted code [s].
    - A raised exception is a value of [exn]; a function that can raise
      returns a [result].
    - The format table [self.format] is a record of functions; it is fixed
      when the transformer is created and is a parameter of every operation. *)

From Stdlib Require Import ZArith String Floats.
From stdpp Require Import base list strings gmap sorting pretty.

Open Scope string_scope.
Open Scope list_scope.
Open Scope Z_scope.

(** ** Python values shared by the two files *)

(** Exceptions.  [ffc.log.error], called with a message, and a failing
    [ffc_assert] raise with the message; the message is kept up to the text
    the source appends with [repr]. *)
Inductive exn : Type :=
| FFCError (msg : string)
| KeyError (k : string)
| IndexError
| TypeError (msg : string).

Inductive result (A : Type) : Type :=
| Ok (a : A)
| Raise (e : exn).
Arguments Ok {A} a.
Arguments Raise {A} e.

#[global] Instance result_ret : MRet result := fun A a => Ok a.
#[global] Instance result_bind : MBind result := fun A B f m =>
  match m with
  | Ok a => f a
  | Raise e => Raise e
  end.

(** [ffc_assert(condition, message)] *)
Definition ffc_assert (condition : bool) (message : string) : result unit :=
  if condition then Ok tt else Raise (FFCError message).

(** A number handed to a format function: Python [int] or [float]. *)
Inductive pynum : Type :=
| PyInt (n : Z)
| PyFloat (x : PrimFloat.float).

(** ** Dictionaries *)

Module Dict.
Section dict.
Context {K V : Type} `{EqDecision K}.

(** [d[k]], as an option: [None] where Python raises [KeyError]. *)
Fixpoint get (d : list (K * V)) (k : K) : option V :=
  match d with
  | [] => None
  | (k', v) :: d' => if decide (k = k') then Some v else get d' k
  end.

(** [k in d] *)
Definition contains (d : list (K * V)) (k : K) : bool :=
  match get d k with Some _ => true | None => false end.

(** [d[k] = v] *)
Fixpoint set (d : list (K * V)) (k : K) (v : V) : list (K * V) :=
  match d with
  | [] => [(k, v)]
  | (k', v') :: d' =>
      if decide (k = k') then (k, v) :: d' else (k', v') :: set d' k v
  end.

(** The entries and the keys, in the order of the list. *)
Definition items (d : list (K * V)) : list (K * V) := d.
Definition keys (d : list (K * V)) : list K := d.*1.

(** The keys of a dictionary are pairwise distinct. *)
Definition wf (d : list (K * V)) : Prop := NoDup (keys d).
End dict.
End Dict.

(** The order in which the interpreter goes through a dictionary, as a
    function from the entries in the order of insertion to the entries in
    the order [items()] gives them.  It [enumerates] when it gives every
    entry once, whatever the order. *)
Definition enumerates {K V : Type} (items : list (K * V) -> list (K * V)) : Prop :=
  forall d, items d ≡ₚ d.

(** [d[k]] where a missing key raises; [repr_k] is the key as the
    [KeyError] shows it. *)
Definition getitem {K V : Type} `{EqDecision K}
    (d : list (K * V)) (k : K) (repr_k : string) : result V :=
  match Dict.get d k with
  | Some v => Ok v
  | None => Raise (KeyError repr_k)
  end.

(** Component keys, tokens and code maps. *)
Abbreviation key := (list Z) (only parsing).
Abbreviation token := (option string) (only parsing).
Abbreviation code_map := (list (list Z * option string)) (only parsing).

(** The restriction [self.restriction]: none, or a side of a facet. *)
Inductive Restriction : Type :=
| NoRestriction
| PlusSide
| MinusSide.

(** The format table [self.format], by the names the source looks up. *)
Record Format : Type := {
  format_grouping : string -> string;             (* "grouping" *)
  format_add : list string -> string;             (* "add" *)
  format_multiply : list string -> string;        (* "multiply" *)
  format_floating_point : pynum -> string;        (* "floating point" *)
  format_division : string;                       (* "division" *)
  format_power : option string -> Z -> string;    (* "power" *)
  format_std_power : option string -> option string -> string; (* "std power" *)
  format_absolute_value : option string -> string;             (* "absolute value" *)
  format_transform : string -> Z -> Z -> Restriction -> string; (* "transform" *)
  format_determinant : Restriction -> string;     (* "determinant" *)
  format_inverse : string -> string;              (* "inverse" *)
  format_normal_component : Restriction -> Z -> string (* "normal component" *)
}.

(** ** The transformer object *)

(** The fields of [self] the operations of this file read or write, next to
    the format table: what [self.component()] returns, and the set of used
    transform names. *)
Record transformer : Type := {
  restriction : Restriction;
  geo_dim : Z;
  component : list Z;
  trans_set : gset string
}.

(** [self.trans_set.add(t)] *)
Definition add_trans (t : string) (self : transformer) : transformer :=
  {| restriction := restriction self;
     geo_dim := geo_dim self;
     component := component self;
     trans_set := trans_set self ∪ {[t]} |}.

(** A method that reads or writes [self] and may raise; the object stays as
    it is where an exception leaves it. *)
Definition M (A : Type) : Type := transformer -> result A * transformer.

#[global] Instance M_ret : MRet M := fun A a self => (Ok a, self).
#[global] Instance M_bind : MBind M := fun A B f m self =>
  match m self with
  | (Ok a, self') => f a self'
  | (Raise e, self') => (Raise e, self')
  end.

Definition lift {A : Type} (r : result A) : M A := fun self => (r, self).
Definition raise {A : Type} (e : exn) : M A := fun self => (Raise e, self).
Definition get_self : M transformer := fun self => (Ok self, self).
Definition trans_set_add (t : string) : M unit :=
  fun self => (Ok tt, add_trans t self).

(** A [for] loop with an accumulator. *)
Fixpoint for_each {A S : Type} (body : S -> A -> M S) (s : S) (l : list A) : M S :=
  match l with
  | [] => mret s
  | a :: l' => s' ← body s a; for_each body s' l'
  end.

(** The UFL expressions [power] tells apart by class; [Operator] stands for
    a node of any other class. *)
Inductive Expr : Type :=
| IntValue (value : Z)
| FloatValue (value : PrimFloat.float)
| Coefficient (count : Z)
| Operator (class_name : string).

(** The mapping of an element: the three constants of [ffc.finiteelement],
    or any other value. *)
Inductive Mapping : Type :=
| AFFINE
| COVARIANT_PIOLA
| CONTRAVARIANT_PIOLA
| OtherMapping (name : string).

(** ** The algebra operators: [sum] *)

Module QuadratureTransformer.

Section sum.
Context (format : Format).
(** [duplications.items()]: the entries of the dictionary of counts in the
    order of the interpreter. *)
Context (duplications_items : list (string * Z) -> list (string * Z)).

(** First loop of [sum]: [code[key].append(val)] or [code[key] = [val]]. *)
Definition sum_collect_item (code : list (list Z * list (option string)))
    (kv : list Z * option string) : list (list Z * list (option string)) :=
  let '(key, val) := kv in
  match Dict.get code key with
  | Some vals => Dict.set code key (vals ++ [val])
  | None => Dict.set code key [val]
  end.

Definition sum_collect (operands : list code_map)
    : list (list Z * list (option string)) :=
  foldl (fun code op => foldl sum_collect_item code (Dict.items op)) [] operands.

(** [duplications[val] += 1] or [duplications[val] = 1] *)
Definition sum_count (duplications : list (string * Z)) (val : string)
    : list (string * Z) :=
  match Dict.get duplications val with
  | Some n => Dict.set duplications val (n + 1)
  | None => Dict.set duplications val 1
  end.

(** One round of the loop over [duplications.items()]. *)
Definition sum_expression (en : string * Z) : string :=
  let '(expr, num_occur) := en in
  if bool_decide (1 < num_occur)
  then format_multiply format [format_floating_point format (PyInt num_occur); expr]
  else expr.

(** The body of the second loop of [sum]: the new value of [code[key]]. *)
Definition sum_entry (val : list (option string)) : result (option string) :=
  let value := omap id val in
  if bool_decide (1 < length value)%nat then
    let duplications := foldl sum_count [] value in
    let expressions := sum_expression <$> duplications_items duplications in
    _ ← ffc_assert (negb (bool_decide (expressions = [])))
          "Where did the expressions go?";
    if bool_decide (1 < length expressions)%nat
    then Ok (Some (format_grouping format (format_add format expressions)))
    else Ok (head expressions)
  else
    match value with
    | [] => Ok None
    | v :: _ => Ok (Some v)
    end.

(** [sum(self, o, *operands)].  The second loop assigns to [code[key]] for
    the keys [code] already has, so it keeps the keys and their order. *)
Definition sum (operands : list code_map) : result code_map :=
  mapM (fun kv : list Z * list (option string) =>
          v ← sum_entry kv.2; Ok (kv.1, v))
       (Dict.items (sum_collect operands)).
End sum.

(** ** [product] *)

(** [l = list(key); l.sort()]: the component indices in increasing order. *)
Definition sort_key (key : list Z) : list Z := merge_sort Z.le key.

(** Modelled from the spec: [create_permutations] of
    [quadraturegenerator_utils], which is not among the sources.  Section 4.3
    has it return, for a list of code maps, one entry per choice of one item
    from each map, keyed by the concatenation of the chosen keys and holding
    the chosen tokens in the order of the maps; the result is empty for an
    empty list. *)
Fixpoint create_permutations (expr : list code_map)
    : list (list Z * list (option string)) :=
  match expr with
  | [] => []
  | op :: rest =>
      match rest with
      | [] => foldl (fun new kv => Dict.set new kv.1 [kv.2]) [] (Dict.items op)
      | _ =>
          foldl (fun new kv0 =>
                   foldl (fun new kv1 =>
                            Dict.set new (kv0.1 ++ kv1.1) (kv0.2 :: kv1.2))
                         new (Dict.items (create_permutations rest)))
                [] (Dict.items op)
      end
  end.

Section product.
Context (format : Format).
(** The permutation generator the transformer imports, with the entries
    of the dictionary it returns in the order in which
    [permutations.items()] enumerates them. *)
Context (permutations_of : list code_map -> list (list Z * list (option string))).

(** The first loop of [product]: one operand goes to [permute], to
    [not_permute] (its entry at the empty key), or nowhere (empty map). *)
Definition product_sort_operand
    (acc : list code_map * list (option string)) (op : code_map)
    : result (list code_map * list (option string)) :=
  let '(permute, not_permute) := acc in
  if bool_decide (1 < length op)%nat
     || (negb (bool_decide (op = []))
         && negb (bool_decide (head (Dict.keys op) = Some [])))
  then Ok (permute ++ [op], not_permute)
  else if negb (bool_decide (op = [])) then
    v ← getitem op [] "()";
    Ok (permute, not_permute ++ [v])
  else Ok acc.

Fixpoint product_sort_operands
    (acc : list code_map * list (option string)) (operands : list code_map)
    : result (list code_map * list (option string)) :=
  match operands with
  | [] => Ok acc
  | op :: operands' =>
      acc' ← product_sort_operand acc op;
      product_sort_operands acc' operands'
  end.

(** The loop over the multiplicands, the same in both branches of
    [product]: [Ok None] when it meets [None] (the source leaves the loop
    there), an error for an empty token, otherwise the list [value] of the
    tokens other than ["1"].  What is printed before the error is left
    out. *)
Fixpoint product_multiplicands (vs : list (option string)) (value : list string)
    : result (option (list string)) :=
  match vs with
  | [] => Ok (Some value)
  | None :: _ => Ok None
  | Some v :: vs' =>
      if bool_decide (v = "") then Raise (FFCError "should not happen")
      else if bool_decide (v = "1") then product_multiplicands vs' value
      else product_multiplicands vs' (value ++ [v])
  end.

(** [if not value: value = ["1"]] *)
Definition product_value (value : list string) : list string :=
  if bool_decide (value = []) then ["1"] else value.

(** One round of the loop over [permutations.items()].  On [None] the
    source stores [None] at the key when it leaves the inner loop and
    again after it. *)
Definition product_entry (not_permute : list (option string))
    (code : code_map) (kv : list Z * list (option string)) : result code_map :=
  let l := sort_key kv.1 in
  r ← product_multiplicands (kv.2 ++ not_permute) [];
  match r with
  | None =>
      _ ← ffc_assert (negb (Dict.contains code l))
            "This key should not be in the code.";
      Ok (Dict.set (Dict.set code l None) l None)
  | Some value =>
      Ok (Dict.set code l (Some (format_multiply format (product_value value))))
  end.

Fixpoint product_entries (not_permute : list (option string))
    (code : code_map) (its : list (list Z * list (option string)))
    : result code_map :=
  match its with
  | [] => Ok code
  | kv :: its' =>
      code' ← product_entry not_permute code kv;
      product_entries not_permute code' its'
  end.

(** [product(self, o, *operands)] *)
Definition product (operands : list code_map) : result code_map :=
  '(permute, not_permute) ← product_sort_operands ([], []) operands;
  let permutations := permutations_of permute in
  if negb (bool_decide (permutations = [])) then
    product_entries not_permute [] (Dict.items permutations)
  else
    r ← product_multiplicands not_permute [];
    match r with
    | None => Ok [([], None)]
    | Some value => Ok [([], Some (format_multiply format (product_value value)))]
    end.
End product.

(** ** [division] and [abs] *)

Section division.
Context (format : Format).

(** The body of the loop over [numerator_code.items()]. *)
Definition division_entry (denominator : string) (val : option string)
    : option string :=
  match val with
  | None => None
  | Some val =>
      if bool_decide (denominator = "1") then Some val
      else Some (val +:+ format_division format
                     +:+ format_grouping format denominator)
  end.

(** [division(self, o, *operands)] *)
Definition division (operands : list code_map) : result code_map :=
  _ ← ffc_assert (bool_decide (length operands = 2%nat))
        "Expected exactly two operands (numerator and denominator): ";
  match operands with
  | [numerator_code; denominator_code] =>
      _ ← ffc_assert (Dict.contains denominator_code []
                      && bool_decide (length denominator_code = 1%nat))
            "Only support function type denominator: ";
      denominator ← getitem denominator_code [] "()";
      _ ← ffc_assert (bool_decide (denominator ≠ None)) "Division by zero!";
      match denominator with
      | Some denominator =>
          Ok (foldl (fun code kv =>
                       Dict.set code kv.1 (division_entry denominator kv.2))
                    [] (Dict.items numerator_code))
      | None => Raise (FFCError "Division by zero!")
      end
  | _ =>
      Raise (FFCError "Expected exactly two operands (numerator and denominator): ")
  end.

(** [abs(self, o, *operands)] *)
Definition abs (operands : list code_map) : result code_map :=
  _ ← ffc_assert (match operands with
                  | [op] => Dict.contains op [] && bool_decide (length op = 1%nat)
                  | _ => false
                  end)
        "Abs expects one operand of function type: ";
  match operands with
  | op :: _ =>
      v ← getitem op [] "()";
      Ok [([], Some (format_absolute_value format v))]
  | [] => Raise IndexError
  end.
End division.

(** ** [power] *)

Section power.
Context (format : Format).
(** [self.visit], the dispatcher of the base class. *)
Context (visit : Expr -> M code_map).

(** [power(self, o)], with [base, expo = o.operands()] *)
Definition power (base expo : Expr) : M code_map :=
  base_code ← visit base;
  _ ← lift (ffc_assert (Dict.contains base_code []
                        && bool_decide (length base_code = 1%nat))
              "Only support function type base: ");
  val ← lift (getitem base_code [] "()");
  match expo with
  | IntValue value =>
      mret [([], Some (format_power format val value))]
  | FloatValue value =>
      mret [([], Some (format_std_power format val
                         (Some (format_floating_point format (PyFloat value)))))]
  | Coefficient _ =>
      exp ← visit expo;
      e ← lift (getitem exp [] "()");
      mret [([], Some (format_std_power format val e))]
  | Operator _ =>
      raise (FFCError "power does not support this exponent: ")
  end.
End power.

(** ** [facet_normal] and the transform applier *)

(** [l[i]] for a non-negative position [i] *)
Definition index {A : Type} (l : list A) (i : nat) : result A :=
  match l !! i with
  | Some a => Ok a
  | None => Raise IndexError
  end.

(** Python's truth value of a token: [None] and the empty string are false. *)
Definition truthy (function : option string) : bool :=
  match function with
  | Some s => negb (bool_decide (s = ""))
  | None => false
  end.

Section geometry.
Context (format : Format).

(** [facet_normal(self, o, *operands)] *)
Definition facet_normal (operands : list code_map) : M code_map :=
  self ← get_self;
  let components := component self in
  _ ← lift (ffc_assert (bool_decide (operands = []))
              "Didn't expect any operands for FacetNormal: ");
  _ ← lift (ffc_assert (bool_decide (length components = 1%nat))
              "FacetNormal expects 1 component index: ");
  c ← lift (index components 0);
  let normal_component := format_normal_component format (restriction self) c in
  _ ← trans_set_add normal_component;
  mret [([], Some normal_component)].

(** The loop of [__apply_transform] over [enumerate(derivatives)], from
    position [i] on. *)
Fixpoint apply_transform_loop (multi : list Z) (i : nat) (derivatives : list Z)
    (transforms : list string) : M (list string) :=
  match derivatives with
  | [] => mret transforms
  | direction :: derivatives' =>
      ref ← lift (index multi i);
      self ← get_self;
      let t := format_transform format "JINV" ref direction (restriction self) in
      _ ← trans_set_add t;
      apply_transform_loop multi (S i) derivatives' (transforms ++ [t])
  end.

(** [__apply_transform(self, function, derivatives, multi)] *)
Definition __apply_transform (function : option string)
    (derivatives multi : list Z) : M string :=
  transforms ← apply_transform_loop multi 0 derivatives [];
  let prods :=
    if truthy function
    then transforms ++ match function with Some f => [f] | None => [] end
    else transforms in
  mret (format_multiply format prods).
End geometry.

(** ** [create_argument] and [create_function] *)

(** [deriv = [multi.count(i) for i in range(self.geo_dim)]], emptied when
    no entry is non-zero. *)
Definition derivative_counts (geo_dim : Z) (multi : list Z) : list Z :=
  let deriv :=
    (fun i => Z.of_nat (length (filter (fun x => x = i) multi))) <$> seqZ 0 geo_dim in
  if negb (existsb (fun n => negb (bool_decide (n = 0))) deriv) then [] else deriv.

(** [code[mapping].append(t)] or [code[mapping] = [t]] *)
Definition code_append (code : list (list Z * list string)) (mapping : list Z)
    (t : string) : list (list Z * list string) :=
  match Dict.get code mapping with
  | Some ts => Dict.set code mapping (ts ++ [t])
  | None => Dict.set code mapping [t]
  end.

(** [if not mapping in code: code[mapping] = []] *)
Definition code_touch (code : list (list Z * list string)) (mapping : list Z)
    : list (list Z * list string) :=
  if Dict.contains code mapping then code else Dict.set code mapping [].

Section basis.
Context (format : Format).
Context {UflArgument UflFunction FfcElement QuadElement : Type}.
(** Modelled from the spec: the element lookup of section 6, the methods
    [_create_mapping_basis] and [_create_function_name] of the base class,
    which is not among the sources.  They give the mapping key and the name
    of the basis, and the name of the function, or [None] for a name that
    is structurally zero; the tables of used names they keep are left
    out. *)
Context (_create_mapping_basis :
           Z -> list Z -> UflArgument -> FfcElement -> list Z * option string).
Context (_create_function_name :
           Z -> list Z -> QuadElement -> UflFunction -> FfcElement -> option string).
(** [error] of [ffc.log], which is not among the sources, the way
    [create_function] calls it for a mapping it has no case for: with the
    message and, as a second argument, [repr(transformation)].  It is taken
    to raise, as [error] does for a message alone; which exception this
    call raises is left to the logger. *)
Context (error_with_argument : string -> Mapping -> exn).

(** The factor of a Piola mapping in front of a basis or function name, as
    both [create_argument] and [create_function] make it.  For any other
    mapping each calls [error] in its own way: [create_argument] with the
    message and [repr(transformation)] as one text, [create_function] with
    the two as separate arguments; [unsupported] is what the call raises. *)
Definition piola (unsupported : exn) (transformation : Mapping) (c local_comp : Z)
    (basis : string) : M string :=
  match transformation with
  | COVARIANT_PIOLA =>
      self ← get_self;
      let dxdX := format_transform format "JINV" c local_comp (restriction self) in
      _ ← trans_set_add dxdX;
      mret (format_multiply format [dxdX; basis])
  | CONTRAVARIANT_PIOLA =>
      self ← get_self;
      _ ← trans_set_add (format_determinant format (restriction self));
      let detJ := format_inverse format (format_determinant format (restriction self)) in
      let dXdx := format_transform format "J" c local_comp (restriction self) in
      _ ← trans_set_add dXdx;
      mret (format_multiply format [detJ; dXdx; basis])
  | _ => raise unsupported
  end.

(** The sums at the end of [create_argument]. *)
Definition argument_entry (val : list string) : option string :=
  if bool_decide (1 < length val)%nat
  then Some (format_grouping format (format_add format val))
  else match val with
       | v :: _ => Some v
       | [] => None
       end.

(** [create_argument(self, ufl_argument, derivatives, component,
    local_comp, local_offset, ffc_element, transformation, multiindices)] *)
Definition create_argument (ufl_argument : UflArgument) (derivatives : list Z)
    (component local_comp local_offset : Z) (ffc_element : FfcElement)
    (transformation : Mapping) (multiindices : list (list Z)) : M code_map :=
  code ←
    match transformation with
    | AFFINE =>
        for_each (fun code multi =>
          self ← get_self;
          let deriv := derivative_counts (geo_dim self) multi in
          let '(mapping, basis) :=
            _create_mapping_basis component deriv ufl_argument ffc_element in
          match basis with
          | None => mret (code_touch code mapping)
          | Some _ =>
              t ← __apply_transform format basis derivatives multi;
              mret (code_append code mapping t)
          end) [] multiindices
    | _ =>
        for_each (fun code multi =>
          self ← get_self;
          let deriv := derivative_counts (geo_dim self) multi in
          for_each (fun code c =>
            let '(mapping, basis) :=
              _create_mapping_basis (c + local_offset) deriv ufl_argument ffc_element in
            match basis with
            | None => mret (code_touch code mapping)
            | Some basis =>
                basis ← piola (FFCError "Transformation is not supported: ")
                          transformation c local_comp basis;
                t ← __apply_transform format (Some basis) derivatives multi;
                mret (code_append code mapping t)
            end) code (seqZ 0 (geo_dim self))) [] multiindices
    end;
  mret ((fun kv : list Z * list string => (kv.1, argument_entry kv.2)) <$> code).

(** [create_function(self, ufl_function, derivatives, component,
    local_comp, local_offset, ffc_element, quad_element, transformation,
    multiindices)] *)
Definition create_function (ufl_function : UflFunction) (derivatives : list Z)
    (component local_comp local_offset : Z) (ffc_element : FfcElement)
    (quad_element : QuadElement) (transformation : Mapping)
    (multiindices : list (list Z)) : M (option string) :=
  code ←
    match transformation with
    | AFFINE =>
        for_each (fun code multi =>
          self ← get_self;
          let deriv := derivative_counts (geo_dim self) multi in
          match _create_function_name component deriv quad_element
                  ufl_function ffc_element with
          | None => mret code
          | Some function_name =>
              t ← __apply_transform format (Some function_name) derivatives multi;
              mret (code ++ [t])
          end) [] multiindices
    | _ =>
        for_each (fun code multi =>
          self ← get_self;
          let deriv := derivative_counts (geo_dim self) multi in
          for_each (fun code c =>
            match _create_function_name (c + local_offset) deriv quad_element
                    ufl_function ffc_element with
            | None => mret code
            | Some function_name =>
                function_name ←
                  piola (error_with_argument "Transformation is not supported: "
                           transformation)
                    transformation c local_comp function_name;
                t ← __apply_transform format (Some function_name) derivatives multi;
                mret (code ++ [t])
            end) code (seqZ 0 (geo_dim self))) [] multiindices
    end;
  match code with
  | [] => mret None
  | c :: _ =>
      if bool_decide (1 < length code)%nat
      then mret (Some (format_grouping format (format_add format code)))
      else mret (Some c)
  end.
End basis.

(** ** Helpers of the base class that this class defines *)

Section helpers.
Context (format : Format).

(** [_create_symbol(self, symbol, domain)] *)
Definition _create_symbol (symbol : string) : code_map := [([], Some symbol)].

(** [_format_scalar_value(self, value)] *)
Definition _format_scalar_value (value : option pynum) : code_map :=
  match value with
  | None => [([], None)]
  | Some value => [([], Some (format_floating_point format value))]
  end.

(** [_create_product(self, symbols)] *)
Definition _create_product (symbols : list string) : string :=
  format_multiply format symbols.

(** [_math_function(self, operands, format_function)].  The loop assigns to
    the keys of the operand itself, and the operand is what is returned. *)
Definition _math_function (operands : list code_map)
    (format_function : option string -> string) : result code_map :=
  _ ← ffc_assert (match operands with
                  | [op] => Dict.contains op [] && bool_decide (length op = 1%nat)
                  | _ => false
                  end)
        "MathFunctions expect one operand of function type: ";
  match operands with
  | operand :: _ =>
      Ok (foldl (fun operand kv => Dict.set operand kv.1 (Some (format_function kv.2)))
                operand (Dict.items operand))
  | [] => Raise IndexError
  end.
End helpers.

End QuadratureTransformer.

(** ** The wrappers: [ffc/wrappers.py] *)

Module Wrappers.

(** The capsules of [ffc.backends.dolfin.capsules], by their constructor
    arguments. *)
Record UFCElementNames : Type := {
  element_name : string;
  element_classnames : list string;
  element_dofmap_classnames : list string;
  element_coordinate_mapping_classnames : list string
}.

Record UFCFormNames : Type := {
  form_name : string;
  coefficient_names : list string;
  ufc_form_classname : string;
  ufc_finite_element_classnames : list string;
  ufc_dofmap_classnames : list string;
  ufc_coordinate_mapping_classnames : list string;
  superclassname : string
}.

(** [l[i]] for a Python integer [i]: a negative [i] counts from the end. *)
Definition getitem_list {A : Type} (l : list A) (i : Z) : result A :=
  let n := Z.of_nat (length l) in
  let j := if bool_decide (i < 0) then i + n else i in
  if bool_decide (0 <= j < n)
  then match l !! Z.to_nat j with
       | Some a => Ok a
       | None => Raise IndexError
       end
  else Raise IndexError.

Section encapsulate.
Context {Element : Type} `{EqDecision Element}.

(** The fields of a form data that [_encapsule_form] reads; a form and a
    coefficient stand by their [id]. *)
Record FormData : Type := {
  original_form : Z;
  reduced_coefficients : list Z;
  argument_elements : list Element;
  coefficient_elements : list Element
}.

(** [_encapsule_element(prefix, classnames, elements)] *)
Definition _encapsule_element (prefix : string)
    (classnames : list (string * list string)) (elements : list Element)
    : result UFCElementNames :=
  let element_number := Z.of_nat (length elements) - 1 in
  es ← getitem classnames "elements" "'elements'";
  e ← getitem_list es element_number;
  ds ← getitem classnames "dofmaps" "'dofmaps'";
  d ← getitem_list ds element_number;
  cs ← getitem classnames "coordinate_mapppings" "'coordinate_mapppings'";
  c ← getitem_list cs element_number;
  Ok {| element_name := "0";
        element_classnames := [e];
        element_dofmap_classnames := [d];
        element_coordinate_mapping_classnames := [c] |}.

(** [object_names.get(k, default)] *)
Definition get_default (object_names : list (Z * string)) (k : Z)
    (default : string) : string :=
  match Dict.get object_names k with
  | Some s => s
  | None => default
  end.

(** [_encapsule_form(prefix, object_names, classnames, form_data, i,
    element_map)], with [superclassname] left at its default; what it
    prints is left out.  The three lists of class names are looked up in
    [classnames] once for each element number, inside the comprehensions:
    with no element number they are not looked up at all. *)
Definition _encapsule_form (prefix : string) (object_names : list (Z * string))
    (classnames : list (string * list string)) (form_data : FormData) (i : nat)
    (element_map : list (Element * Z)) : result UFCFormNames :=
  element_numbers ←
    mapM (fun e => getitem element_map e "element")
         (argument_elements form_data ++ coefficient_elements form_data);
  fs ← getitem classnames "forms" "'forms'";
  f ← getitem_list fs (Z.of_nat i);
  es' ← mapM (fun j => es ← getitem classnames "elements" "'elements'";
                       getitem_list es j) element_numbers;
  ds' ← mapM (fun j => ds ← getitem classnames "dofmaps" "'dofmaps'";
                       getitem_list ds j) element_numbers;
  cs' ← mapM (fun j => cs ← getitem classnames "coordinate_maps" "'coordinate_maps'";
                       getitem_list cs j) element_numbers;
  Ok {| form_name := get_default object_names (original_form form_data)
                       (pretty (Z.of_nat i));
        coefficient_names :=
          imap (fun j obj => get_default object_names obj ("w" +:+ pretty (Z.of_nat j)))
               (reduced_coefficients form_data);
        ufc_form_classname := f;
        ufc_finite_element_classnames := es';
        ufc_dofmap_classnames := ds';
        ufc_coordinate_mapping_classnames := cs';
        superclassname := "Form" |}.

(** [all_equal] of [ffc.utils], which is not among the sources. *)
Context (all_equal : list Element -> bool).

(** [_encapsulate(prefix, object_names, classnames, analysis, parameters)],
    with [analysis] unpacked into the parts the function reads. *)
Definition _encapsulate (prefix : string) (object_names : list (Z * string))
    (classnames : list (string * list string))
    (form_datas : list FormData) (elements : list Element)
    (element_map : list (Element * Z))
    : result ((UFCElementNames + list UFCFormNames) * bool) :=
  let num_form_datas := length form_datas in
  if bool_decide (num_form_datas = 0%nat) then
    capsules ← _encapsule_element prefix classnames elements;
    Ok (inl capsules, false)
  else
    capsules ←
      mapM (fun ifd : nat * FormData =>
              _encapsule_form prefix object_names classnames ifd.2 ifd.1 element_map)
           (zip (seq 0 (length form_datas)) form_datas);
    let elements := concat (argument_elements <$> form_datas) in
    Ok (inr capsules, all_equal elements).

(** [generate_dolfin_code] of [ffc.backends.dolfin.wrappers], which is not
    among the sources. *)
Context (generate_dolfin_code :
           string -> string -> UFCElementNames + list UFCFormNames -> bool -> string).

(** [_generate_dolfin_wrapper(analysis, prefix, object_names, classnames,
    parameters)]; the messages of [begin], [info] and [end] are left out. *)
Definition _generate_dolfin_wrapper (prefix : string) (object_names : list (Z * string))
    (classnames : list (string * list string))
    (form_datas : list FormData) (elements : list Element)
    (element_map : list (Element * Z)) : result string :=
  '(capsules, common_space) ←
    _encapsulate prefix object_names classnames form_datas elements element_map;
  let code := generate_dolfin_code prefix "" capsules common_space in
  Ok (code +:+ String (Ascii.ascii_of_nat 10) (String (Ascii.ascii_of_nat 10) "")).

(** [generate_wrapper_code(analysis, prefix, object_names, classnames,
    parameters)]: [None] when no wrappers are asked for. *)
Definition generate_wrapper_code (prefix : string) (object_names : list (Z * string))
    (classnames : list (string * list string))
    (form_datas : list FormData) (elements : list Element)
    (element_map : list (Element * Z)) (parameters : list (string * string))
    : result (option string) :=
  fmt ← getitem parameters "format" "'format'";
  if negb (bool_decide (fmt = "dolfin")) then Ok None
  else
    code ← _generate_dolfin_wrapper prefix object_names classnames
              form_datas elements element_map;
    Ok (Some code).
End encapsulate.

End Wrappers.

(** ** Notions the properties are stated with *)

(** The tokens the operands of a sum give for a key, in the order of the
    operands, and those of them that are not [None]. *)
Definition contributions (key : list Z) (operands : list code_map)
    : list (option string) :=
  (filter (fun kv : list Z * option string => kv.1 = key) (concat operands)).*2.

Definition nonzero_contributions (key : list Z) (operands : list code_map)
    : list string :=
  omap id (contributions key operands).

(** The distinct tokens of a list, each at its first occurrence. *)
Fixpoint first_occurrences (l : list string) : list string :=
  match l with
  | [] => []
  | x :: l' => x :: filter (fun y => y ≠ x) (first_occurrences l')
  end.

(** How often a token occurs in a list. *)
Definition occurrences (t : string) (l : list string) : Z :=
  Z.of_nat (length (filter (fun y => y = t) l)).

(** The dictionary [duplications] after counting the tokens of [value]. *)
Definition counted (value : list string) : list (string * Z) :=
  (fun t => (t, occurrences t value)) <$> first_occurrences value.

(** Duplicate reduction as section 4.1 of the specification words it: a
    group of [n > 1] equal tokens becomes [multiply(float(n), token)], a
    token that occurs once stays. *)
Definition reduce_duplicates (format : Format) (value : list string) : list string :=
  (fun t =>
     let n := occurrences t value in
     if bool_decide (1 < n)
     then format_multiply format [format_floating_point format (PyInt n); t]
     else t) <$> first_occurrences value.

(** A map is rank-0: its only key is the empty one. *)
Definition rank0 (code : code_map) : Prop :=
  exists v, code = [([], v)].

(** A method only adds to the used-transforms set. *)
Definition monotone {A : Type} (m : M A) : Prop :=
  forall self, trans_set self ⊆ trans_set (m self).2.

(** The tokens left of a product's multiplicands: those other than ["1"]. *)
Definition non_identity (ss : list string) : list string :=
  filter (fun s => s ≠ "1") ss.

(** The folding rule of a product over its multiplicands, read from the
    left: [None] makes the entry [None], an empty token is an error, and
    otherwise the tokens other than ["1"] are multiplied, or ["1"] alone
    when none is left. *)
Inductive folds (format : Format) : list (option string) -> result (option string) -> Prop :=
| folds_zero (pre : list string) (post : list (option string)) :
    Forall (fun s => s ≠ "") pre ->
    folds format ((Some <$> pre) ++ None :: post) (Ok None)
| folds_malformed (pre : list string) (post : list (option string)) :
    Forall (fun s => s ≠ "") pre ->
    folds format ((Some <$> pre) ++ Some "" :: post)
          (Raise (FFCError "should not happen"))
| folds_multiply (ss : list string) :
    Forall (fun s => s ≠ "") ss -> non_identity ss ≠ [] ->
    folds format (Some <$> ss) (Ok (Some (format_multiply format (non_identity ss))))
| folds_identity (ss : list string) :
    Forall (fun s => s ≠ "") ss -> non_identity ss = [] ->
    folds format (Some <$> ss) (Ok (Some (format_multiply format ["1"]))).

(** The token [product] stores for a list of multiplicands. *)
Definition product_token (format : Format) (vs : list (option string))
    : result (option string) :=
  r ← QuadratureTransformer.product_multiplicands vs [];
  Ok (match r with
      | None => None
      | Some value =>
          Some (format_multiply format (QuadratureTransformer.product_value value))
      end).

(** The entry a permutation makes where its multiplicands are well formed. *)
Definition entry_of (format : Format) (not_permute : list (option string))
    (kv : list Z * list (option string)) : list Z * option string :=
  (QuadratureTransformer.sort_key kv.1,
   match product_token format (kv.2 ++ not_permute) with
   | Ok t => t
   | Raise _ => None
   end).

(** What [product] takes from its operands: the maps that go to the
    permutation generator, and the tokens of the rank-0 maps. *)
Definition tensor_operand (op : code_map) : bool :=
  match op with
  | [] => false
  | [(k, _)] => negb (bool_decide (k = []))
  | _ => true
  end.

Definition tensor_operands (operands : list code_map) : list code_map :=
  filter (fun op => tensor_operand op = true) operands.

Definition scalar_tokens (operands : list code_map) : list (option string) :=
  omap (fun op : code_map =>
          match op with
          | [(k, v)] => if decide (k = []) then Some v else None
          | _ => None
          end) operands.

(** The permutations [product] goes through without a failure, in the
    order in which they are enumerated: the multiplicands of each fold to a
    token or to [None], and one that folds to [None] has a sorted key that
    none before it has. *)
Definition goes_through (format : Format) (scalars : list (option string))
    (its : list (list Z * list (option string))) : Prop :=
  forall pre kv post, its = pre ++ kv :: post ->
    exists t, folds format (kv.2 ++ scalars) (Ok t)
      /\ (t = None ->
          QuadratureTransformer.sort_key kv.1
          ∉ (QuadratureTransformer.sort_key <$> Dict.keys pre)).

(** The permutation generator as [product] meets it under an interpreter:
    the dictionary [create_permutations] makes, in the order in which
    [items] enumerates it. *)
Definition permutations_under
    (items : list (list Z * list (option string)) -> list (list Z * list (option string)))
    (expr : list code_map) : list (list Z * list (option string)) :=
  items (QuadratureTransformer.create_permutations expr).

(** The factors [__apply_transform] makes: one for each position of the
    derivative list, from the multi-index and the direction there. *)
Definition jinv_factors (format : Format) (r : Restriction)
    (multi derivatives : list Z) : list string :=
  zip_with (fun ref direction => format_transform format "JINV" ref direction r)
           multi derivatives.

(** The transformer with the names [ts] recorded. *)
Definition record (ts : list string) (self : transformer) : transformer :=
  {| restriction := restriction self;
     geo_dim := geo_dim self;
     component := component self;
     trans_set := trans_set self ∪ list_to_set ts |}.

(** What [__apply_transform] returns for a base token: [multiply] of the
    factors and the token, or of the factors alone for a token that is
    [None] or empty. *)
Definition transformed (format : Format) (r : Restriction)
    (function : option string) (derivatives multi : list Z) : string :=
  format_multiply format
    (if QuadratureTransformer.truthy function
     then jinv_factors format r multi derivatives
          ++ match function with Some f => [f] | None => [] end
     else jinv_factors format r multi derivatives).

(** The name a Piola mapping makes of a basis or function name, and the
    names it records for it. *)
Definition piola_token (format : Format) (r : Restriction) (transformation : Mapping)
    (c local_comp : Z) (name : string) : string :=
  match transformation with
  | COVARIANT_PIOLA =>
      format_multiply format [format_transform format "JINV" c local_comp r; name]
  | CONTRAVARIANT_PIOLA =>
      format_multiply format
        [format_inverse format (format_determinant format r);
         format_transform format "J" c local_comp r; name]
  | _ => name
  end.

Definition piola_names (format : Format) (r : Restriction) (transformation : Mapping)
    (c local_comp : Z) : list string :=
  match transformation with
  | COVARIANT_PIOLA => [format_transform format "JINV" c local_comp r]
  | CONTRAVARIANT_PIOLA =>
      [format_determinant format r; format_transform format "J" c local_comp r]
  | _ => []
  end.

(** A mapping [create_argument] and [create_function] have a case for. *)
Definition supported (transformation : Mapping) : Prop :=
  match transformation with
  | OtherMapping _ => False
  | _ => True
  end.

(** [code[mapping].append(t)] for a term, [code[mapping] = []] for a key
    that is new and has no term. *)
Definition code_item (code : list (list Z * list string))
    (it : list Z * option string) : list (list Z * list string) :=
  match it.2 with
  | Some t => QuadratureTransformer.code_append code it.1 t
  | None => QuadratureTransformer.code_touch code it.1
  end.

(** The terms among a list of items that belong to a key. *)
Definition terms_at (key : list Z) (items : list (list Z * option string))
    : list string :=
  omap id (filter (fun it : list Z * option string => it.1 = key) items).*2.

Section basis_notions.
Context (format : Format).
Context {UflArgument UflFunction FfcElement QuadElement : Type}.
Context (_create_mapping_basis :
           Z -> list Z -> UflArgument -> FfcElement -> list Z * option string).
Context (_create_function_name :
           Z -> list Z -> QuadElement -> UflFunction -> FfcElement -> option string).
Context (r : Restriction) (n : Z).
Context (derivatives : list Z) (component local_comp local_offset : Z).
Context (transformation : Mapping).

(** The term of a name found at the multi-index [multi]: for a Piola
    mapping and the direction [c], the name with the factor of the mapping
    in front. *)
Definition basis_term (multi : list Z) (c : option Z) (name : string) : string :=
  transformed format r
    (Some (match c with
           | Some c => piola_token format r transformation c local_comp name
           | None => name
           end))
    derivatives multi.

(** The names recorded for a name found at [multi]. *)
Definition basis_names (multi : list Z) (c : option Z) : list string :=
  match c with
  | Some c => piola_names format r transformation c local_comp
  | None => []
  end ++ jinv_factors format r multi derivatives.

(** The positions the loops go through: each multi-index for an affine
    mapping, each multi-index with each direction otherwise, and the
    component looked up there. *)
Definition positions (multiindices : list (list Z)) : list (list Z * option Z * Z) :=
  match transformation with
  | AFFINE => multi ← multiindices; [(multi, None, component)]
  | _ => multi ← multiindices; c ← seqZ 0 n; [(multi, Some c, c + local_offset)]
  end.

(** The terms of [create_function], and the names it records. *)
Definition function_terms (ufl_function : UflFunction) (ffc_element : FfcElement)
    (quad_element : QuadElement) (multiindices : list (list Z)) : list string :=
  p ← positions multiindices;
  match _create_function_name p.2 (QuadratureTransformer.derivative_counts n p.1.1)
          quad_element ufl_function ffc_element with
  | Some name => [basis_term p.1.1 p.1.2 name]
  | None => []
  end.

Definition function_names (ufl_function : UflFunction) (ffc_element : FfcElement)
    (quad_element : QuadElement) (multiindices : list (list Z)) : list string :=
  p ← positions multiindices;
  match _create_function_name p.2 (QuadratureTransformer.derivative_counts n p.1.1)
          quad_element ufl_function ffc_element with
  | Some _ => basis_names p.1.1 p.1.2
  | None => []
  end.

(** The items of [create_argument]: the mapping key of each position with
    its term, if the basis has a name there, and the names it records. *)
Definition argument_items (ufl_argument : UflArgument) (ffc_element : FfcElement)
    (multiindices : list (list Z)) : list (list Z * option string) :=
  (fun p : list Z * option Z * Z =>
     let mb := _create_mapping_basis p.2
                 (QuadratureTransformer.derivative_counts n p.1.1)
                 ufl_argument ffc_element in
     (mb.1, basis_term p.1.1 p.1.2 <$> mb.2)) <$> positions multiindices.

Definition argument_names (ufl_argument : UflArgument) (ffc_element : FfcElement)
    (multiindices : list (list Z)) : list string :=
  p ← positions multiindices;
  match (_create_mapping_basis p.2
           (QuadratureTransformer.derivative_counts n p.1.1)
           ufl_argument ffc_element).2 with
  | Some _ => basis_names p.1.1 p.1.2
  | None => []
  end.
End basis_notions.

(** The sum of the entries of a list of integers. *)
Definition sum_list (l : list Z) : Z := foldr Z.add 0 l.

(** ** Visits in sequence *)

Section traversal.
Context (format : Format).
Context {UflArgument UflFunction FfcElement QuadElement : Type}.
Context (_create_mapping_basis :
           Z -> list Z -> UflArgument -> FfcElement -> list Z * option string).
Context (_create_function_name :
           Z -> list Z -> QuadElement -> UflFunction -> FfcElement -> option string).
Context (error_with_argument : string -> Mapping -> exn).
Context (permutations_of : list code_map -> list (list Z * list (option string))).
Context (visit : Expr -> M code_map).

(** A call of one operation of the transformer, with its arguments. *)
Inductive call : Type :=
| CallSum (operands : list code_map)
| CallProduct (operands : list code_map)
| CallDivision (operands : list code_map)
| CallAbs (operands : list code_map)
| CallPower (base expo : Expr)
| CallFacetNormal (operands : list code_map)
| CallCreateArgument (ufl_argument : UflArgument) (derivatives : list Z)
    (component local_comp local_offset : Z) (ffc_element : FfcElement)
    (transformation : Mapping) (multiindices : list (list Z))
| CallCreateFunction (ufl_function : UflFunction) (derivatives : list Z)
    (component local_comp local_offset : Z) (ffc_element : FfcElement)
    (quad_element : QuadElement) (transformation : Mapping)
    (multiindices : list (list Z))
| CallApplyTransform (function : option string) (derivatives multi : list Z).

(** The transformer after a call, whether the call returns or raises. *)
Definition after_call (c : call) (self : transformer) : transformer :=
  match c with
  | CallSum _ | CallProduct _ | CallDivision _ | CallAbs _ => self
  | CallPower base expo => (QuadratureTransformer.power format visit base expo self).2
  | CallFacetNormal operands => (QuadratureTransformer.facet_normal format operands self).2
  | CallCreateArgument a d c lc lo e t ms =>
      (QuadratureTransformer.create_argument format _create_mapping_basis
         a d c lc lo e t ms self).2
  | CallCreateFunction f d c lc lo e q t ms =>
      (QuadratureTransformer.create_function format _create_function_name
         error_with_argument f d c lc lo e q t ms self).2
  | CallApplyTransform f d m =>
      (QuadratureTransformer.__apply_transform format f d m self).2
  end.

(** The transformer after a sequence of calls. *)
Definition after_calls (cs : list call) (self : transformer) : transformer :=
  foldl (fun self c => after_call c self) self cs.
End traversal.

(** ** A format table for concrete evaluations

    Operators spelled as in C++ code, in the manner of the tables FFC
    ships. *)
Module Sample.

Fixpoint join (sep : string) (l : list string) : string :=
  match l with
  | [] => ""
  | [s] => s
  | s :: l' => s +:+ sep +:+ join sep l'
  end.

Definition side (r : Restriction) : string :=
  match r with
  | NoRestriction => ""
  | PlusSide => "0"
  | MinusSide => "1"
  end.

Definition number (n : pynum) : string :=
  match n with
  | PyInt z => pretty z
  | PyFloat x =>
      match Prim2SF x with
      | S754_zero _ => "0.0"
      | S754_infinity _ => "inf"
      | S754_nan => "nan"
      | S754_finite s m e =>
          (if s then "-" else "") +:+ pretty (Zpos m) +:+ "p" +:+ pretty e
      end
  end.

Definition text (t : option string) : string :=
  match t with
  | Some s => s
  | None => "None"
  end.

Definition format : Format := {|
  format_grouping := fun v => "(" +:+ v +:+ ")";
  format_add := join " + ";
  format_multiply := join "*";
  format_floating_point := number;
  format_division := "/";
  format_power := fun base n => "pow(" +:+ text base +:+ ", " +:+ pretty n +:+ ")";
  format_std_power := fun base e =>
    "std::pow(" +:+ text base +:+ ", " +:+ text e +:+ ")";
  format_absolute_value := fun v => "std::abs(" +:+ text v +:+ ")";
  format_transform := fun type j k r =>
    type +:+ side r +:+ "_" +:+ pretty j +:+ pretty k;
  format_determinant := fun r => "detJ" +:+ side r;
  format_inverse := fun v => "(1.0/" +:+ v +:+ ")";
  format_normal_component := fun r j => "n" +:+ side r +:+ pretty j
|}.

(** Two interpreters: one goes through a dictionary in the order of
    insertion, the other from the key inserted last to the key inserted
    first. *)
Definition insertion_order {K V : Type} (d : list (K * V)) : list (K * V) := d.
Definition reverse_order {K V : Type} (d : list (K * V)) : list (K * V) := reverse d.

(** A transformer with nothing recorded yet, on a triangle. *)
Definition self0 : transformer := {|
  restriction := NoRestriction;
  geo_dim := 2;
  component := [0];
  trans_set := ∅
|}.

(** A dispatcher for leaves: literals become numbers, the coefficient
    numbered 1 is vector valued and any other one is a scalar, and a node of
    another class is taken for the facet normal. *)
Definition visit (e : Expr) : M code_map :=
  match e with
  | IntValue n =>
      mret (QuadratureTransformer._format_scalar_value format (Some (PyInt n)))
  | FloatValue x =>
      mret (QuadratureTransformer._format_scalar_value format (Some (PyFloat x)))
  | Coefficient c =>
      if bool_decide (c = 1)
      then mret [([0], Some "w1_0"); ([1], Some "w1_1")]
      else mret (QuadratureTransformer._create_symbol ("w" +:+ pretty c))
  | Operator _ => QuadratureTransformer.facet_normal format []
  end.

(** A logger that formats the message with the further arguments by [%]:
    for a message without a conversion the formatting fails. *)
Definition error_with_argument (msg : string) (transformation : Mapping) : exn :=
  TypeError "not all arguments converted during string formatting".

(** An element lookup: the basis and the function of component [c] are
    named after it, and those of a negative component are zero. *)
Definition mapping_basis (c : Z) (deriv : list Z) (a : unit) (e : unit)
    : list Z * option string :=
  ([c], if bool_decide (c < 0) then None else Some ("FE" +:+ pretty c)).

Definition function_name (c : Z) (deriv : list Z) (q : unit) (f : unit) (e : unit)
    : option string :=
  if bool_decide (c < 0) then None else Some ("F" +:+ pretty c).

End Sample.

(** * Properties *)

(** ** Dictionaries *)

Section dict_facts.
Context {K V : Type} `{EqDecision K}.
Implicit Types (d : list (K * V)) (k : K) (v : V).

Lemma get_set_eq d k v : Dict.get (Dict.set d k v) k = Some v.
Proof.
  induction d as [|[k' v'] d IH]; csimpl.
  - by rewrite decide_True.
  - destruct (decide (k = k')) as [->|Hne]; csimpl.
    + by rewrite decide_True.
    + by rewrite decide_False.
Qed.

Lemma get_set_ne d k k' v : k ≠ k' -> Dict.get (Dict.set d k v) k' = Dict.get d k'.
Proof.
  intros Hne. induction d as [|[k0 v0] d IH]; csimpl.
  - by rewrite decide_False.
  - destruct (decide (k = k0)) as [->|Hne0]; csimpl.
    + by rewrite !decide_False.
    + by rewrite IH.
Qed.

Lemma get_None d k : Dict.get d k = None <-> k ∉ Dict.keys d.
Proof.
  unfold Dict.keys. induction d as [|[k' v'] d IH]; csimpl.
  - split; [intros _; apply not_elem_of_nil | done].
  - rewrite not_elem_of_cons. destruct (decide (k = k')) as [->|Hne].
    + split; [done|]. by intros [? _].
    + rewrite IH. split; [done|]. by intros [_ ?].
Qed.

Lemma get_Some_elem d k v : Dict.get d k = Some v -> (k, v) ∈ d.
Proof.
  induction d as [|[k' v'] d IH]; csimpl; [done|].
  destruct (decide (k = k')) as [->|Hne].
  - intros [= ->]. apply elem_of_cons; by left.
  - intros Hg. apply elem_of_cons; right; auto.
Qed.

Lemma contains_true d k : Dict.contains d k = true <-> k ∈ Dict.keys d.
Proof.
  unfold Dict.contains. destruct (Dict.get d k) eqn:Hg.
  - split; [intros _|done]. destruct (decide (k ∈ Dict.keys d)); [done|].
    apply get_None in n. congruence.
  - split; [done|]. intros Hin. apply get_None in Hg. done.
Qed.

Lemma set_fresh d k v : k ∉ Dict.keys d -> Dict.set d k v = d ++ [(k, v)].
Proof.
  unfold Dict.keys. induction d as [|[k' v'] d IH]; csimpl; [done|].
  rewrite not_elem_of_cons. intros [Hne Hnin].
  rewrite decide_False by done. by rewrite IH.
Qed.

Lemma keys_set_present d k v : k ∈ Dict.keys d -> Dict.keys (Dict.set d k v) = Dict.keys d.
Proof.
  unfold Dict.keys. induction d as [|[k' v'] d IH]; csimpl.
  - intros Hin. by apply elem_of_nil in Hin.
  - intros Hin. destruct (decide (k = k')) as [->|Hne]; csimpl; [done|].
    apply elem_of_cons in Hin as [?|Hin]; [done|]. by rewrite IH.
Qed.

Lemma wf_set d k v : Dict.wf d -> Dict.wf (Dict.set d k v).
Proof.
  unfold Dict.wf. intros Hwf. destruct (decide (k ∈ Dict.keys d)) as [Hin|Hnin].
  - by rewrite keys_set_present.
  - rewrite set_fresh by done. unfold Dict.keys in *. rewrite fmap_app. simpl.
    apply NoDup_app. split_and!; [done| |apply NoDup_singleton].
    intros x Hx Hx'. apply list_elem_of_singleton in Hx'. by subst.
Qed.

Lemma get_elem_wf d k v : Dict.wf d -> (k, v) ∈ d -> Dict.get d k = Some v.
Proof.
  unfold Dict.wf, Dict.keys. induction d as [|[k' v'] d IH]; csimpl.
  - intros _ Hin. by apply elem_of_nil in Hin.
  - intros Hnd Hin. apply NoDup_cons in Hnd as [Hnin Hnd].
    apply elem_of_cons in Hin as [[= -> ->]|Hin].
    + by rewrite decide_True.
    + rewrite decide_False; [by apply IH|].
      intros ->. apply Hnin. apply list_elem_of_fmap. by exists (k', v).
Qed.
End dict_facts.


(** ** Results of loops *)

Lemma mapM_Ok_Forall2 {A B : Type} (f : A -> result B) (l : list A) :
  Forall (fun x => exists y, f x = Ok y) l ->
  exists l', mapM f l = Ok l' /\ Forall2 (fun x y => f x = Ok y) l l'.
Proof.
  induction 1 as [|x l [y Hy] _ (l' & Hl' & HF)].
  - exists []. split; [done|constructor].
  - exists (y :: l'). split; [|by constructor].
    change (mapM f (x :: l)) with (y ← f x; k ← mapM f l; mret (y :: k)).
    by rewrite Hy, Hl'.
Qed.

Lemma get_Forall2 {K V W : Type} `{EqDecision K} (R : V -> W -> Prop)
    (d : list (K * V)) (d' : list (K * W)) (k : K) :
  Forall2 (fun x y => y.1 = x.1 /\ R x.2 y.2) d d' ->
  match Dict.get d k with
  | Some v => exists w, Dict.get d' k = Some w /\ R v w
  | None => Dict.get d' k = None
  end.
Proof.
  induction 1 as [|[k1 v1] [k2 w2] d d' [Hk HR] _ IH]; csimpl; [done|].
  simpl in Hk. subst k2. destruct (decide (k = k1)); [|done].
  exists w2. by split.
Qed.

(** ** [sum] *)

Section sum_facts.
Context (format : Format).
Import QuadratureTransformer.

Lemma sum_collect_concat (code : list (list Z * list (option string)))
    (operands : list code_map) :
  foldl (fun code op => foldl sum_collect_item code (Dict.items op)) code operands
  = foldl sum_collect_item code (concat operands).
Proof.
  revert code. induction operands as [|op operands IH]; intros code; csimpl; [done|].
  by rewrite IH, foldl_app.
Qed.

Lemma sum_collect_fold (code : list (list Z * list (option string)))
    (its : code_map) (key : list Z) :
  Dict.get (foldl sum_collect_item code its) key =
  match Dict.get code key, (filter (fun kv : list Z * option string => kv.1 = key) its).*2 with
  | Some vs, c => Some (vs ++ c)
  | None, [] => None
  | None, c => Some c
  end.
Proof.
  revert code. induction its as [|[k v] its IH]; intros code; csimpl.
  - destruct (Dict.get code key); [by rewrite app_nil_r|done].
  - rewrite IH. unfold sum_collect_item. rewrite filter_cons. csimpl.
    destruct (decide (k = key)) as [->|Hne]; csimpl.
    + destruct (Dict.get code key) as [vs|] eqn:Hg; rewrite get_set_eq.
      * by rewrite <- app_assoc.
      * done.
    + destruct (Dict.get code k) as [vs|]; by rewrite get_set_ne.
Qed.

Lemma sum_collect_get (operands : list code_map) (key : list Z) :
  Dict.get (sum_collect operands) key =
  match contributions key operands with
  | [] => None
  | c => Some c
  end.
Proof.
  unfold sum_collect, contributions. rewrite sum_collect_concat, sum_collect_fold.
  done.
Qed.

Lemma first_occurrences_elem (l : list string) (t : string) :
  t ∈ first_occurrences l <-> t ∈ l.
Proof.
  induction l as [|x l IH]; csimpl; [done|].
  rewrite !elem_of_cons, list_elem_of_filter, IH.
  destruct (decide (t = x)) as [->|Hne]; [split; by left|].
  split; [intros [?|[_ ?]]; [done|by right]|].
  intros [?|?]; [done|]. right. by split.
Qed.

Lemma first_occurrences_NoDup (l : list string) : NoDup (first_occurrences l).
Proof.
  induction l as [|x l IH]; csimpl; [constructor|].
  apply NoDup_cons. split.
  - rewrite list_elem_of_filter. by intros [? _].
  - by apply NoDup_filter.
Qed.

Lemma first_occurrences_snoc (l : list string) (x : string) :
  first_occurrences (l ++ [x]) =
  if decide (x ∈ l) then first_occurrences l else first_occurrences l ++ [x].
Proof.
  induction l as [|a l IH]; csimpl; [done|].
  rewrite IH. destruct (decide (x ∈ a :: l)) as [Hin|Hnin].
  - destruct (decide (x ∈ l)) as [|Hnl]; [done|].
    apply elem_of_cons in Hin as [->|?]; [|done].
    rewrite filter_app, filter_cons_False, filter_nil, app_nil_r; [done|].
    by intros ?.
  - apply not_elem_of_cons in Hnin as [Hne Hnl].
    rewrite decide_False by done.
    by rewrite filter_app, filter_cons_True.
Qed.

Lemma occurrences_snoc (l : list string) (x t : string) :
  occurrences t (l ++ [x]) = occurrences t l + (if decide (x = t) then 1 else 0).
Proof.
  unfold occurrences. rewrite filter_app, length_app, filter_cons.
  destruct (decide (x = t)); csimpl; lia.
Qed.

Lemma occurrences_positive (l : list string) (t : string) :
  t ∈ l -> 0 < occurrences t l.
Proof.
  unfold occurrences. intros Hin.
  assert (Ht : t ∈ filter (fun y => y = t) l) by (by apply list_elem_of_filter).
  destruct (filter (fun y => y = t) l); [by apply elem_of_nil in Ht|]. csimpl. lia.
Qed.

Lemma occurrences_zero (l : list string) (t : string) :
  t ∉ l -> occurrences t l = 0.
Proof.
  unfold occurrences. intros Hnin.
  destruct (filter (fun y => y = t) l) as [|y f] eqn:Hf; [done|].
  assert (Hy : y ∈ filter (fun y => y = t) l) by (rewrite Hf; apply elem_of_cons; by left).
  apply list_elem_of_filter in Hy as [-> ?]. done.
Qed.

Lemma keys_tagged {A : Type} (g : string -> A) (ks : list string) :
  Dict.keys ((fun t => (t, g t)) <$> ks) = ks.
Proof. unfold Dict.keys. induction ks as [|k ks IH]; csimpl; [done|]. by f_equal. Qed.

Lemma counted_get (value : list string) (t : string) :
  Dict.get (counted value) t =
  if decide (t ∈ value) then Some (occurrences t value) else None.
Proof.
  unfold counted. destruct (decide (t ∈ value)) as [Hin|Hnin].
  - apply get_elem_wf.
    + unfold Dict.wf. rewrite keys_tagged. apply first_occurrences_NoDup.
    + apply list_elem_of_fmap. exists t. by rewrite first_occurrences_elem.
  - apply get_None. rewrite keys_tagged. by rewrite first_occurrences_elem.
Qed.

Lemma set_fmap_present (ks : list string) (g : string -> Z) (x : string) (n : Z) :
  NoDup ks -> x ∈ ks ->
  Dict.set ((fun t => (t, g t)) <$> ks) x n
  = (fun t => (t, if decide (t = x) then n else g t)) <$> ks.
Proof.
  induction ks as [|k ks IH]; csimpl.
  - intros _ Hin. by apply elem_of_nil in Hin.
  - intros Hnd Hin. apply NoDup_cons in Hnd as [Hnin Hnd].
    destruct (decide (x = k)) as [->|Hne].
    + rewrite decide_True by done. f_equal. apply list_fmap_ext.
      intros i y Hy. rewrite decide_False; [done|]. intros ->.
      apply Hnin. by eapply list_elem_of_lookup_2.
    + rewrite decide_False by done. f_equal.
      apply elem_of_cons in Hin as [?|Hin]; [done|]. by apply IH.
Qed.

Lemma sum_count_counted (value : list string) :
  foldl sum_count [] value = counted value.
Proof.
  induction value as [|x value IH] using rev_ind; [done|].
  rewrite foldl_app. csimpl. rewrite IH. unfold sum_count.
  rewrite counted_get. unfold counted. rewrite first_occurrences_snoc.
  destruct (decide (x ∈ value)) as [Hin|Hnin].
  - rewrite set_fmap_present.
    + apply list_fmap_ext. intros i t Ht. rewrite occurrences_snoc.
      destruct (decide (t = x)) as [->|Hne].
      * by rewrite decide_True.
      * rewrite decide_False by done. f_equal. lia.
    + apply first_occurrences_NoDup.
    + by apply first_occurrences_elem.
  - rewrite set_fresh.
    + rewrite fmap_app. csimpl. f_equal.
      * apply list_fmap_ext. intros i t Ht. rewrite occurrences_snoc.
        rewrite decide_False; [f_equal; lia|]. intros ->. apply Hnin.
        apply first_occurrences_elem. by eapply list_elem_of_lookup_2.
      * rewrite occurrences_snoc, decide_True by done.
        by rewrite occurrences_zero.
    + rewrite keys_tagged. by rewrite first_occurrences_elem.
Qed.

Lemma sum_expressions_reduce (value : list string) :
  sum_expression format <$> Dict.items (foldl sum_count [] value)
  = reduce_duplicates format value.
Proof.
  rewrite sum_count_counted. unfold Dict.items, counted, reduce_duplicates.
  rewrite <- list_fmap_compose. done.
Qed.

Lemma reduce_duplicates_nonempty (value : list string) :
  value ≠ [] -> reduce_duplicates format value ≠ [].
Proof. destruct value; [done|]. unfold reduce_duplicates. by csimpl. Qed.

(** In whatever order the counts are enumerated, the expressions are those
    of the duplicate reduction. *)
Lemma sum_expressions_enumerated (items : list (string * Z) -> list (string * Z))
    (value : list string) :
  enumerates items ->
  sum_expression format <$> items (counted value) ≡ₚ reduce_duplicates format value.
Proof.
  intros Hitems. rewrite <- sum_expressions_reduce, sum_count_counted.
  unfold Dict.items. apply fmap_Permutation. apply Hitems.
Qed.

Lemma enumerated_nonempty {K V : Type} (items : list (K * V) -> list (K * V))
    (d : list (K * V)) :
  enumerates items -> items d = [] -> d = [].
Proof.
  intros Hitems Hnil. pose proof (Hitems d) as Hd. rewrite Hnil in Hd.
  symmetry. by apply Permutation_nil_l.
Qed.
End sum_facts.


Section sum_properties.
Context (format : Format).
Context (duplications_items : list (string * Z) -> list (string * Z)).
Import QuadratureTransformer.

Lemma sum_entry_zero (val : list (option string)) :
  omap id val = [] -> sum_entry format duplications_items val = Ok None.
Proof. unfold sum_entry. by intros ->. Qed.

Lemma sum_entry_single (val : list (option string)) (t : string) :
  omap id val = [t] -> sum_entry format duplications_items val = Ok (Some t).
Proof. unfold sum_entry. by intros ->. Qed.

Lemma sum_entry_many (val : list (option string)) :
  enumerates duplications_items ->
  (2 <= length (omap id val))%nat ->
  sum_entry format duplications_items val =
  Ok (let expressions :=
        sum_expression format <$> duplications_items (counted (omap id val)) in
      if bool_decide (1 < length expressions)%nat
      then Some (format_grouping format (format_add format expressions))
      else head expressions).
Proof.
  intros Hitems Hlen. unfold sum_entry.
  rewrite bool_decide_true by lia. cbv zeta.
  rewrite sum_count_counted.
  rewrite (bool_decide_false
             (sum_expression format <$> duplications_items (counted (omap id val)) = [])).
  - csimpl. by destruct (bool_decide _).
  - intros Hnil. apply fmap_nil_inv in Hnil.
    apply (enumerated_nonempty _ _ Hitems) in Hnil.
    unfold counted in Hnil. apply fmap_nil_inv in Hnil.
    destruct (omap id val); [simpl in Hlen; lia|done].
Qed.

Lemma sum_entry_total (val : list (option string)) :
  enumerates duplications_items ->
  exists t, sum_entry format duplications_items val = Ok t.
Proof.
  intros Hitems. destruct (omap id val) as [|t [|t' value]] eqn:Hv.
  - eexists. by apply sum_entry_zero.
  - eexists. by apply sum_entry_single.
  - eexists. apply sum_entry_many; [done|]. rewrite Hv. simpl. lia.
Qed.

(** [sum] returns, and its result holds at each key what [sum_entry] makes
    of the contributions to the key. *)
Lemma sum_at_key (operands : list code_map) :
  enumerates duplications_items ->
  exists code, sum format duplications_items operands = Ok code /\
    forall key,
      match contributions key operands with
      | [] => Dict.get code key = None
      | c => exists t, sum_entry format duplications_items c = Ok t
                       /\ Dict.get code key = Some t
      end.
Proof.
  intros Hitems. unfold sum.
  destruct (mapM_Ok_Forall2
              (fun kv : list Z * list (option string) =>
                 v ← sum_entry format duplications_items kv.2; Ok (kv.1, v))
              (Dict.items (sum_collect operands))) as (code & Hcode & HF).
  { apply Forall_forall. intros [k val] _. csimpl.
    destruct (sum_entry_total val Hitems) as [t Ht]. rewrite Ht. by eexists. }
  exists code. split; [done|]. intros key.
  assert (HF' : Forall2 (fun x y => y.1 = x.1
                                    /\ sum_entry format duplications_items x.2 = Ok y.2)
                  (sum_collect operands) code).
  { eapply Forall2_impl; [exact HF|]. intros [k val] [k' t]. csimpl.
    destruct (sum_entry format duplications_items val); csimpl; [|done].
    by intros [= -> ->]. }
  pose proof (get_Forall2 (fun val t => sum_entry format duplications_items val = Ok t)
                _ _ key HF') as Hg.
  rewrite sum_collect_get in Hg.
  destruct (contributions key operands); [done|].
  destruct Hg as (t & Ht & Hs). by exists t.
Qed.

Lemma sum_collect_fresh (code : list (list Z * list (option string))) (op : code_map) :
  NoDup (Dict.keys code ++ Dict.keys op) ->
  foldl sum_collect_item code (Dict.items op)
  = code ++ ((fun kv : list Z * option string => (kv.1, [kv.2])) <$> op).
Proof.
  unfold Dict.items. revert code. induction op as [|[k v] op IH]; intros code Hnd; csimpl.
  - by rewrite app_nil_r.
  - assert (Hk : k ∉ Dict.keys code).
    { apply NoDup_app in Hnd as (_ & Hd & _). intros Hin.
      apply (Hd k Hin). unfold Dict.keys. csimpl. apply elem_of_cons. by left. }
    pose proof Hk as Hg. apply get_None in Hg. rewrite Hg.
    rewrite set_fresh by done. rewrite IH.
    + by rewrite <- app_assoc.
    + unfold Dict.keys in *. rewrite fmap_app. csimpl.
      rewrite <- app_assoc. csimpl. exact Hnd.
Qed.

Lemma sum_single_map (op : code_map) :
  mapM (fun kv : list Z * list (option string) =>
          v ← sum_entry format duplications_items kv.2; Ok (kv.1, v))
       ((fun kv : list Z * option string => (kv.1, [kv.2])) <$> op)
  = Ok op.
Proof.
  induction op as [|[k v] op IH]; [done|].
  rewrite fmap_cons.
  match goal with
  | |- mapM ?f (?x :: ?l) = _ =>
      change (mapM f (x :: l)) with (y ← f x; r ← mapM f l; mret (y :: r))
  end.
  rewrite IH. csimpl. by destruct v.
Qed.

(** C1.  At a key for which the operands of a sum give at least two tokens
    other than [None], [sum] returns a map that holds at the key the tokens
    after duplicate reduction (equal tokens counted, a token that occurs
    [n > 1] times replaced by [multiply([float(n), token])], a token that
    occurs once kept): the group of their [add] when more than one
    expression remains, the expression itself when exactly one remains.
    The expressions come in the order in which the interpreter enumerates
    the dictionary of counts, and in any such order they are the
    expressions of the duplicate reduction. *)
Theorem sum_duplicate_reduction (operands : list code_map) (key : list Z) :
  enumerates duplications_items ->
  (2 <= length (nonzero_contributions key operands))%nat ->
  exists code, sum format duplications_items operands = Ok code /\
    let value := nonzero_contributions key operands in
    let expressions := sum_expression format <$> duplications_items (counted value) in
    expressions ≡ₚ reduce_duplicates format value /\
    expressions ≠ [] /\
    ((1 < length expressions)%nat ->
     Dict.get code key
     = Some (Some (format_grouping format (format_add format expressions)))) /\
    (forall e, expressions = [e] ->
       reduce_duplicates format value = [e] /\ Dict.get code key = Some (Some e)).
Proof.
  intros Hitems Hlen. destruct (sum_at_key operands Hitems) as (code & Hcode & Hkeys).
  exists code. split; [done|]. specialize (Hkeys key).
  unfold nonzero_contributions in *.
  destruct (contributions key operands) as [|c0 c] eqn:Hc; [simpl in Hlen; lia|].
  destruct Hkeys as (t & Ht & Hg). rewrite sum_entry_many in Ht by done.
  rewrite <- Hc in Ht, Hlen |- *. clear Hc.
  set (value := omap id (contributions key operands)) in *.
  injection Ht as <-. cbv zeta in *.
  pose proof (sum_expressions_enumerated format _ value Hitems) as Hperm.
  split_and!.
  - exact Hperm.
  - intros Hnil. rewrite Hnil in Hperm. apply Permutation_nil_l in Hperm.
    symmetry in Hperm. revert Hperm. apply reduce_duplicates_nonempty.
    intros Hv. rewrite Hv in Hlen. simpl in Hlen. lia.
  - intros Hmany. by rewrite Hg, bool_decide_true.
  - intros e He. rewrite He in Hperm. split.
    + symmetry. by apply Permutation_singleton_l.
    + rewrite Hg, He. done.
Qed.

(** C5.  At a key for which exactly one token other than [None] is given,
    the sum holds that token; at a key for which tokens are given and all
    are [None], it holds [None], and so not a token ["0"]; and the sum of a
    single code map is that map.  The order in which the interpreter
    enumerates the counts of equal tokens has no part in this; that it
    gives each count once is what makes the sum return at the other keys. *)
Theorem sum_single_or_zero (operands : list code_map) (key : list Z) (op : code_map) :
  (enumerates duplications_items ->
   forall t, nonzero_contributions key operands = [t] ->
     exists code, sum format duplications_items operands = Ok code
       /\ Dict.get code key = Some (Some t))
  /\ (enumerates duplications_items ->
      contributions key operands ≠ [] -> nonzero_contributions key operands = [] ->
      exists code, sum format duplications_items operands = Ok code
        /\ Dict.get code key = Some None /\ Dict.get code key ≠ Some (Some "0"))
  /\ (Dict.wf op -> sum format duplications_items [op] = Ok op).
Proof.
  split_and!.
  - intros Hitems t Ht. destruct (sum_at_key operands Hitems) as (code & Hcode & Hkeys).
    exists code. split; [done|]. specialize (Hkeys key). unfold nonzero_contributions in Ht.
    destruct (contributions key operands) as [|c0 c]; [done|].
    destruct Hkeys as (t' & Ht' & Hg). rewrite (sum_entry_single _ t) in Ht' by done.
    by injection Ht' as <-.
  - intros Hitems Hne Hz. destruct (sum_at_key operands Hitems) as (code & Hcode & Hkeys).
    exists code. split; [done|]. specialize (Hkeys key). unfold nonzero_contributions in Hz.
    destruct (contributions key operands) as [|c0 c]; [done|].
    destruct Hkeys as (t' & Ht' & Hg). rewrite sum_entry_zero in Ht' by done.
    injection Ht' as <-. by rewrite Hg.
  - intros Hwf. unfold sum, sum_collect. csimpl.
    rewrite sum_collect_fresh by done. apply sum_single_map.
Qed.
End sum_properties.


(** ** [division] *)

Lemma foldl_set_fresh {K V W : Type} `{EqDecision K} (f : V -> W)
    (acc : list (K * W)) (d : list (K * V)) :
  NoDup (Dict.keys acc ++ Dict.keys d) ->
  foldl (fun code kv => Dict.set code kv.1 (f kv.2)) acc d
  = acc ++ ((fun kv : K * V => (kv.1, f kv.2)) <$> d).
Proof.
  revert acc. induction d as [|[k v] d IH]; intros acc Hnd; csimpl.
  - by rewrite app_nil_r.
  - assert (Hk : k ∉ Dict.keys acc).
    { apply NoDup_app in Hnd as (_ & Hd & _). intros Hin.
      apply (Hd k Hin). unfold Dict.keys. csimpl. apply elem_of_cons. by left. }
    rewrite set_fresh by done. rewrite IH.
    + by rewrite <- app_assoc.
    + unfold Dict.keys in *. rewrite fmap_app. csimpl.
      rewrite <- app_assoc. csimpl. exact Hnd.
Qed.

Lemma get_fmap_values {K V W : Type} `{EqDecision K} (f : V -> W)
    (d : list (K * V)) (k : K) :
  Dict.get ((fun kv : K * V => (kv.1, f kv.2)) <$> d) k = f <$> Dict.get d k.
Proof.
  induction d as [|[k' v] d IH]; csimpl; [done|].
  by destruct (decide (k = k')).
Qed.

Lemma rank0_check (code : code_map) :
  Dict.contains code [] && bool_decide (length code = 1%nat) = true <-> rank0 code.
Proof.
  unfold rank0. split.
  - intros Hc. apply andb_prop in Hc as [Hin Hlen].
    apply bool_decide_eq_true in Hlen.
    destruct code as [|[k v] [|? ?]]; [done| |done].
    unfold Dict.contains in Hin. csimpl in Hin.
    destruct (decide ([] = k)) as [<-|]; [by exists v|done].
  - intros [v ->]. done.
Qed.

Lemma rank0_check_false (code : code_map) :
  ~ rank0 code ->
  Dict.contains code [] && bool_decide (length code = 1%nat) = false.
Proof.
  intros Hn. apply not_true_is_false. intros Hc. by apply Hn, rank0_check.
Qed.

Section division_properties.
Context (format : Format).
Import QuadratureTransformer.

(** C3.  [division] fails unless it gets exactly two operands, fails unless
    the denominator map is rank-0, fails with "Division by zero!" when the
    entry of the denominator is [None], and otherwise returns a map with the
    keys of the numerator: [None] stays [None], a token over the denominator
    ["1"] stays as it is, and any other token is followed by the division
    operator and the grouped denominator. *)
Theorem division_cases (operands : list code_map) :
  (length operands ≠ 2%nat ->
   division format operands
   = Raise (FFCError "Expected exactly two operands (numerator and denominator): "))
  /\ (forall numerator denominator,
        operands = [numerator; denominator] -> ~ rank0 denominator ->
        division format operands
        = Raise (FFCError "Only support function type denominator: "))
  /\ (forall numerator,
        operands = [numerator; [([], None)]] ->
        division format operands = Raise (FFCError "Division by zero!"))
  /\ (forall numerator d,
        operands = [numerator; [([], Some d)]] -> Dict.wf numerator ->
        exists code, division format operands = Ok code
          /\ Dict.keys code = Dict.keys numerator
          /\ forall key,
               (Dict.get numerator key = None -> Dict.get code key = None)
               /\ (Dict.get numerator key = Some None -> Dict.get code key = Some None)
               /\ (forall n, Dict.get numerator key = Some (Some n) -> d = "1" ->
                     Dict.get code key = Some (Some n))
               /\ (forall n, Dict.get numerator key = Some (Some n) -> d ≠ "1" ->
                     Dict.get code key
                     = Some (Some (n +:+ format_division format
                                     +:+ format_grouping format d)))).
Proof.
  split_and!.
  - intros Hlen. unfold division. by rewrite bool_decide_false.
  - intros numerator denominator -> Hrank. unfold division. csimpl.
    by rewrite rank0_check_false.
  - by intros numerator ->.
  - intros numerator d -> Hwf. eexists. split; [reflexivity|].
    unfold Dict.items. rewrite foldl_set_fresh by done. rewrite app_nil_l. split.
    + unfold Dict.keys. rewrite <- list_fmap_compose. done.
    + intros key. rewrite get_fmap_values.
      destruct (Dict.get numerator key) as [[n|]|]; csimpl; split_and!; try done.
      * intros ? [= <-] ->. done.
      * intros ? [= <-] Hd. by rewrite bool_decide_false.
Qed.
End division_properties.


(** ** [power] *)

Section power_properties.
Context (format : Format).
Context (visit : Expr -> M code_map).
Import QuadratureTransformer.

Lemma power_base_checked (base expo : Expr) (self self1 : transformer)
    (val : option string) :
  visit base self = (Ok [([], val)], self1) ->
  power format visit base expo self =
  match expo with
  | IntValue value => (Ok [([], Some (format_power format val value))], self1)
  | FloatValue value =>
      (Ok [([], Some (format_std_power format val
                        (Some (format_floating_point format (PyFloat value)))))],
       self1)
  | Coefficient _ =>
      match visit expo self1 with
      | (Ok exp, self2) =>
          match Dict.get exp [] with
          | Some e => (Ok [([], Some (format_std_power format val e))], self2)
          | None => (Raise (KeyError "()"), self2)
          end
      | (Raise e, self2) => (Raise e, self2)
      end
  | Operator _ =>
      (Raise (FFCError "power does not support this exponent: "), self1)
  end.
Proof.
  intros Hbase. unfold power, mbind, M_bind. rewrite Hbase. csimpl.
  destruct expo as [n|x|c|name]; try done.
  destruct (visit (Coefficient c) self1) as [[exp|e] self2]; [|done].
  unfold lift, getitem. by destruct (Dict.get exp []).
Qed.

(** C4.  With a base that is visited to a rank-0 map, [power] returns a
    rank-0 map by the class of the exponent: [power(val, n)] for an integer
    literal, [std power(val, float(x))] for a floating literal, [std
    power(val, e)] for a coefficient visited to a map with the entry [e]
    at the empty key; for any other exponent it raises; and with a base map
    that is not rank-0 it fails. *)
Theorem power_dispatch (base expo : Expr) (self self1 : transformer)
    (base_code : code_map) :
  visit base self = (Ok base_code, self1) ->
  (~ rank0 base_code ->
   power format visit base expo self
   = (Raise (FFCError "Only support function type base: "), self1))
  /\ (forall val, base_code = [([], val)] ->
      (forall n, expo = IntValue n ->
         power format visit base expo self
         = (Ok [([], Some (format_power format val n))], self1))
      /\ (forall x, expo = FloatValue x ->
            power format visit base expo self
            = (Ok [([], Some (format_std_power format val
                                (Some (format_floating_point format (PyFloat x)))))],
               self1))
      /\ (forall c exp e self2, expo = Coefficient c ->
            visit expo self1 = (Ok exp, self2) -> Dict.get exp [] = Some e ->
            power format visit base expo self
            = (Ok [([], Some (format_std_power format val e))], self2))
      /\ (forall name, expo = Operator name ->
            power format visit base expo self
            = (Raise (FFCError "power does not support this exponent: "), self1))).
Proof.
  intros Hbase. split.
  - intros Hrank. unfold power, mbind, M_bind. rewrite Hbase. csimpl.
    unfold lift. by rewrite rank0_check_false.
  - intros val ->. split_and!.
    + intros n ->. by rewrite (power_base_checked _ _ _ _ _ Hbase).
    + intros x ->. by rewrite (power_base_checked _ _ _ _ _ Hbase).
    + intros c exp e self2 -> Hexp He.
      by rewrite (power_base_checked _ _ _ _ _ Hbase), Hexp, He.
    + intros name ->. by rewrite (power_base_checked _ _ _ _ _ Hbase).
Qed.

(** C10.  For a coefficient exponent [power] reads the entry at the empty
    key of the visited exponent map and checks nothing else: a map with
    further keys is accepted, and a map without the empty key makes the
    lookup fail with a [KeyError], not with the error for an unsupported
    exponent; while the visits return, that error is raised for an exponent
    of another class only. *)
Theorem power_coefficient_unchecked (base expo : Expr) (self self1 self2 : transformer)
    (val : option string) (exp : code_map) :
  visit base self = (Ok [([], val)], self1) ->
  visit expo self1 = (Ok exp, self2) ->
  (forall c, expo = Coefficient c -> Dict.get exp [] = None ->
     power format visit base expo self = (Raise (KeyError "()"), self2))
  /\ (forall c e, expo = Coefficient c -> Dict.get exp [] = Some e ->
        power format visit base expo self
        = (Ok [([], Some (format_std_power format val e))], self2))
  /\ ((power format visit base expo self).1
      = Raise (FFCError "power does not support this exponent: ") ->
      exists name, expo = Operator name).
Proof.
  intros Hbase Hexp. rewrite (power_base_checked _ _ _ _ _ Hbase). split_and!.
  - intros c -> Hnone. by rewrite Hexp, Hnone.
  - intros c e -> He. by rewrite Hexp, He.
  - destruct expo as [n|x|c|name]; try done.
    + rewrite Hexp. by destruct (Dict.get exp []).
    + by exists name.
Qed.
End power_properties.


(** ** The transform applier *)

Section transform_properties.
Context (format : Format).
Import QuadratureTransformer.

Lemma apply_transform_loop_run (multi : list Z) (derivatives : list Z) (i : nat)
    (transforms : list string) (self : transformer) :
  (length derivatives <= length (drop i multi))%nat ->
  apply_transform_loop format multi i derivatives transforms self =
  (Ok (transforms ++ jinv_factors format (restriction self) (drop i multi) derivatives),
   {| restriction := restriction self;
      geo_dim := geo_dim self;
      component := component self;
      trans_set := trans_set self
                   ∪ list_to_set (jinv_factors format (restriction self) (drop i multi) derivatives) |}).
Proof.
  revert i transforms self.
  induction derivatives as [|direction derivatives IH]; intros i transforms self Hlen.
  - unfold jinv_factors. rewrite zip_with_nil_r. csimpl.
    rewrite app_nil_r, (right_id_L ∅ (∪)). by destruct self.
  - destruct (multi !! i) as [ref|] eqn:Hi.
    + rewrite (drop_S _ _ _ Hi) in Hlen |- *. csimpl in Hlen.
      csimpl. unfold mbind, M_bind, lift, index. rewrite Hi. csimpl.
      rewrite IH by lia. csimpl.
      rewrite <- app_assoc. csimpl. f_equal. f_equal.
      by rewrite (assoc_L (∪)).
    + apply lookup_ge_None in Hi. rewrite drop_ge in Hlen by done.
      csimpl in Hlen. lia.
Qed.

Lemma apply_transform_run (function : option string)
    (derivatives multi : list Z) (self : transformer) :
  length derivatives = length multi ->
  __apply_transform format function derivatives multi self =
  (Ok (format_multiply format
         (if truthy function
          then jinv_factors format (restriction self) multi derivatives
               ++ match function with Some f => [f] | None => [] end
          else jinv_factors format (restriction self) multi derivatives)),
   {| restriction := restriction self; geo_dim := geo_dim self;
      component := component self;
      trans_set := trans_set self
                   ∪ list_to_set (jinv_factors format (restriction self) multi derivatives) |}).
Proof.
  intros Hlen. unfold __apply_transform, mbind, M_bind.
  rewrite apply_transform_loop_run by (rewrite drop_0; lia).
  by rewrite drop_0.
Qed.

(** C7.  For a derivative list and a multi-index of the same length,
    [__apply_transform] makes for each position [i] one factor
    [transform("JINV", multi[i], derivatives[i], restriction)], adds these
    factors to the used-transforms set and nothing else, and returns
    [multiply] of the factors followed by the base token, or of the factors
    alone when the base token is absent. *)
Theorem apply_transform_factors (function : option string)
    (derivatives multi : list Z) (self : transformer) :
  length derivatives = length multi ->
  let factors := jinv_factors format (restriction self) multi derivatives in
  let run := __apply_transform format function derivatives multi self in
  length factors = length derivatives
  /\ (forall i ref direction,
        multi !! i = Some ref -> derivatives !! i = Some direction ->
        factors !! i
        = Some (format_transform format "JINV" ref direction (restriction self)))
  /\ trans_set run.2 = trans_set self ∪ list_to_set factors
  /\ (function = None -> run.1 = Ok (format_multiply format factors))
  /\ (forall f, function = Some f -> f ≠ "" ->
        run.1 = Ok (format_multiply format (factors ++ [f])))
  /\ (function = Some "" -> run.1 = Ok (format_multiply format factors)).
Proof.
  intros Hlen factors run. unfold run.
  rewrite apply_transform_run by done. fold factors. split_and!.
  - unfold factors, jinv_factors. rewrite length_zip_with. lia.
  - intros i ref direction Hm Hd. unfold factors, jinv_factors.
    rewrite lookup_zip_with, Hm, Hd. done.
  - done.
  - by intros ->.
  - intros f -> Hf. csimpl. by rewrite bool_decide_false.
  - by intros ->.
Qed.
End transform_properties.

(** ** The used-transforms set *)

Section monotone_facts.
Context (format : Format).
Import QuadratureTransformer.

Lemma monotone_ret {A : Type} (a : A) : monotone (mret a).
Proof. by intros self. Qed.

Lemma monotone_lift {A : Type} (r : result A) : monotone (lift r).
Proof. by intros self. Qed.

Lemma monotone_raise {A : Type} (e : exn) : monotone (raise (A := A) e).
Proof. by intros self. Qed.

Lemma monotone_get_self : monotone get_self.
Proof. by intros self. Qed.

Lemma monotone_add (t : string) : monotone (trans_set_add t).
Proof. intros self. csimpl. set_solver. Qed.

Lemma monotone_bind {A B : Type} (m : M A) (f : A -> M B) :
  monotone m -> (forall a, monotone (f a)) -> monotone (m ≫= f).
Proof.
  intros Hm Hf self. unfold mbind, M_bind. specialize (Hm self).
  destruct (m self) as [[a|e] self1]; csimpl in *; [|done].
  specialize (Hf a self1). set_solver.
Qed.

Lemma monotone_for_each {A S : Type} (body : S -> A -> M S) (s : S) (l : list A) :
  (forall s a, monotone (body s a)) -> monotone (for_each body s l).
Proof.
  intros Hb. revert s. induction l as [|a l IH]; intros s; csimpl.
  - apply monotone_ret.
  - apply monotone_bind; [apply Hb|]. intros s'. apply IH.
Qed.

Lemma monotone_apply_transform_loop (multi : list Z) (derivatives : list Z) (i : nat)
    (transforms : list string) :
  monotone (apply_transform_loop format multi i derivatives transforms).
Proof.
  revert i transforms. induction derivatives as [|d derivatives IH]; intros i transforms; csimpl.
  - apply monotone_ret.
  - apply monotone_bind; [apply monotone_lift|]. intros ref.
    apply monotone_bind; [apply monotone_get_self|]. intros self.
    apply monotone_bind; [apply monotone_add|]. intros _. apply IH.
Qed.

Lemma monotone_apply_transform (function : option string) (derivatives multi : list Z) :
  monotone (__apply_transform format function derivatives multi).
Proof.
  unfold __apply_transform.
  apply monotone_bind; [apply monotone_apply_transform_loop|]. intros ?.
  apply monotone_ret.
Qed.

Lemma monotone_facet_normal (operands : list code_map) :
  monotone (facet_normal format operands).
Proof.
  unfold facet_normal.
  apply monotone_bind; [apply monotone_get_self|]. intros self.
  apply monotone_bind; [apply monotone_lift|]. intros _.
  apply monotone_bind; [apply monotone_lift|]. intros _.
  apply monotone_bind; [apply monotone_lift|]. intros c.
  apply monotone_bind; [apply monotone_add|]. intros _. apply monotone_ret.
Qed.

Lemma monotone_piola (unsupported : exn) (transformation : Mapping)
    (c local_comp : Z) (basis : string) :
  monotone (piola format unsupported transformation c local_comp basis).
Proof.
  destruct transformation; csimpl; try apply monotone_raise.
  - apply monotone_bind; [apply monotone_get_self|]. intros self.
    apply monotone_bind; [apply monotone_add|]. intros _. apply monotone_ret.
  - apply monotone_bind; [apply monotone_get_self|]. intros self.
    apply monotone_bind; [apply monotone_add|]. intros _.
    apply monotone_bind; [apply monotone_add|]. intros _. apply monotone_ret.
Qed.

Lemma monotone_power (visit : Expr -> M code_map) (base expo : Expr) :
  (forall e, monotone (visit e)) -> monotone (power format visit base expo).
Proof.
  intros Hv. unfold power.
  apply monotone_bind; [apply Hv|]. intros base_code.
  apply monotone_bind; [apply monotone_lift|]. intros _.
  apply monotone_bind; [apply monotone_lift|]. intros val.
  destruct expo.
  - apply monotone_ret.
  - apply monotone_ret.
  - apply monotone_bind; [apply Hv|]. intros exp.
    apply monotone_bind; [apply monotone_lift|]. intros e. apply monotone_ret.
  - apply monotone_raise.
Qed.
End monotone_facts.


Section monotone_properties.
Context (format : Format).
Context {UflArgument UflFunction FfcElement QuadElement : Type}.
Context (_create_mapping_basis :
           Z -> list Z -> UflArgument -> FfcElement -> list Z * option string).
Context (_create_function_name :
           Z -> list Z -> QuadElement -> UflFunction -> FfcElement -> option string).
Context (error_with_argument : string -> Mapping -> exn).
Context (permutations_of : list code_map -> list (list Z * list (option string))).
Context (visit : Expr -> M code_map).
Import QuadratureTransformer.

Lemma monotone_create_argument (ufl_argument : UflArgument) (derivatives : list Z)
    (component local_comp local_offset : Z) (ffc_element : FfcElement)
    (transformation : Mapping) (multiindices : list (list Z)) :
  monotone (create_argument format _create_mapping_basis ufl_argument derivatives
              component local_comp local_offset ffc_element transformation
              multiindices).
Proof.
  unfold create_argument. apply monotone_bind; [|intros; apply monotone_ret].
  assert (Hpiola : monotone
    (for_each (fun code multi =>
       self ← get_self;
       let deriv := derivative_counts (geo_dim self) multi in
       for_each (fun code c =>
         let '(mapping, basis) :=
           _create_mapping_basis (c + local_offset) deriv ufl_argument ffc_element in
         match basis with
         | None => mret (code_touch code mapping)
         | Some basis =>
             basis ← piola format (FFCError "Transformation is not supported: ")
                     transformation c local_comp basis;
             t ← __apply_transform format (Some basis) derivatives multi;
             mret (code_append code mapping t)
         end) code (seqZ 0 (geo_dim self))) [] multiindices)).
  { apply monotone_for_each. intros code multi.
    apply monotone_bind; [apply monotone_get_self|]. intros self. cbv zeta.
    apply monotone_for_each. intros code' c.
    destruct (_create_mapping_basis _ _ _ _) as [mapping [basis|]].
    - apply monotone_bind; [apply monotone_piola|]. intros b.
      apply monotone_bind; [apply monotone_apply_transform|]. intros t.
      apply monotone_ret.
    - apply monotone_ret. }
  destruct transformation; try exact Hpiola.
  apply monotone_for_each. intros code multi.
  apply monotone_bind; [apply monotone_get_self|]. intros self. cbv zeta.
  destruct (_create_mapping_basis _ _ _ _) as [mapping [basis|]].
  - apply monotone_bind; [apply monotone_apply_transform|]. intros t.
    apply monotone_ret.
  - apply monotone_ret.
Qed.

Lemma monotone_create_function (ufl_function : UflFunction) (derivatives : list Z)
    (component local_comp local_offset : Z) (ffc_element : FfcElement)
    (quad_element : QuadElement) (transformation : Mapping)
    (multiindices : list (list Z)) :
  monotone (create_function format _create_function_name error_with_argument
         ufl_function derivatives
              component local_comp local_offset ffc_element quad_element
              transformation multiindices).
Proof.
  unfold create_function. apply monotone_bind.
  2:{ intros [|c code]; [apply monotone_ret|].
      destruct (bool_decide _); apply monotone_ret. }
  assert (Hpiola : monotone
    (for_each (fun code multi =>
       self ← get_self;
       let deriv := derivative_counts (geo_dim self) multi in
       for_each (fun code c =>
         match _create_function_name (c + local_offset) deriv quad_element
                 ufl_function ffc_element with
         | None => mret code
         | Some function_name =>
             function_name ←
               piola format
                 (error_with_argument "Transformation is not supported: "
                    transformation)
                 transformation c local_comp function_name;
             t ← __apply_transform format (Some function_name) derivatives multi;
             mret (code ++ [t])
         end) code (seqZ 0 (geo_dim self))) [] multiindices)).
  { apply monotone_for_each. intros code multi.
    apply monotone_bind; [apply monotone_get_self|]. intros self. cbv zeta.
    apply monotone_for_each. intros code' c.
    destruct (_create_function_name _ _ _ _ _) as [name|].
    - apply monotone_bind; [apply monotone_piola|]. intros b.
      apply monotone_bind; [apply monotone_apply_transform|]. intros t.
      apply monotone_ret.
    - apply monotone_ret. }
  destruct transformation; try exact Hpiola.
  apply monotone_for_each. intros code multi.
  apply monotone_bind; [apply monotone_get_self|]. intros self. cbv zeta.
  destruct (_create_function_name _ _ _ _ _) as [name|].
  - apply monotone_bind; [apply monotone_apply_transform|]. intros t.
    apply monotone_ret.
  - apply monotone_ret.
Qed.

(** C8.  No operation of the transformer takes a token out of the
    used-transforms set: the set before a call is included in the set after
    it, whether the call returns or raises, so that after a sequence of
    calls the set holds every token that was in it after a part of the
    sequence; and the facet normal, the Piola factors and the transform
    applier record the tokens they make. *)
Theorem trans_set_monotone :
  (forall e, monotone (visit e)) ->
  (forall c self,
     trans_set self
     ⊆ trans_set (after_call format _create_mapping_basis _create_function_name
                    error_with_argument visit c self))
  /\ (forall cs cs' self,
        trans_set (after_calls format _create_mapping_basis _create_function_name
                     error_with_argument visit cs self)
        ⊆ trans_set (after_calls format _create_mapping_basis _create_function_name
                       error_with_argument visit (cs ++ cs') self))
  /\ (forall self code self',
        facet_normal format [] self = (Ok code, self') ->
        forall t, Dict.get code [] = Some (Some t) -> t ∈ trans_set self')
  /\ (forall unsupported c local_comp basis self,
        format_transform format "JINV" c local_comp (restriction self)
        ∈ trans_set (piola format unsupported COVARIANT_PIOLA c local_comp basis self).2
        /\ format_determinant format (restriction self)
           ∈ trans_set
               (piola format unsupported CONTRAVARIANT_PIOLA c local_comp basis self).2
        /\ format_transform format "J" c local_comp (restriction self)
           ∈ trans_set
               (piola format unsupported CONTRAVARIANT_PIOLA c local_comp basis self).2)
  /\ (forall function derivatives multi self t,
        length derivatives = length multi ->
        t ∈ jinv_factors format (restriction self) multi derivatives ->
        t ∈ trans_set (__apply_transform format function derivatives multi self).2).
Proof.
  intros Hvisit.
  assert (Hcall : forall c self,
    trans_set self
    ⊆ trans_set (after_call format _create_mapping_basis _create_function_name
                   error_with_argument visit c self)).
  { intros c self. destruct c; csimpl; try done.
    - by apply monotone_power.
    - apply monotone_facet_normal.
    - apply monotone_create_argument.
    - apply monotone_create_function.
    - apply monotone_apply_transform. }
  split_and!.
  - exact Hcall.
  - intros cs cs' self. unfold after_calls. rewrite foldl_app.
    generalize (foldl (fun self c =>
                  after_call format _create_mapping_basis _create_function_name
                    error_with_argument visit c self) self cs).
    induction cs' as [|c cs' IH]; intros s; csimpl; [done|].
    etrans; [apply (Hcall c s)|apply IH].
  - intros self code self' Hrun t Ht. unfold facet_normal in Hrun.
    unfold mbind, M_bind, get_self, lift in Hrun. csimpl in Hrun.
    destruct (component self) as [|c [|? ?]]; csimpl in Hrun; try done.
    injection Hrun as <- <-. csimpl in Ht. injection Ht as <-.
    csimpl. set_solver.
  - intros c local_comp basis self. csimpl. set_solver.
  - intros function derivatives multi self t Hlen Ht.
    rewrite apply_transform_run by done. csimpl. set_solver.
Qed.
End monotone_properties.


(** ** [product] *)

Section product_facts.
Context (format : Format).
Context (permutations_of : list code_map -> list (list Z * list (option string))).
Import QuadratureTransformer.

Lemma product_sort_operand_run (permute : list code_map)
    (not_permute : list (option string)) (op : code_map) :
  product_sort_operand (permute, not_permute) op
  = Ok (permute ++ tensor_operands [op], not_permute ++ scalar_tokens [op]).
Proof.
  unfold product_sort_operand, tensor_operands, scalar_tokens.
  destruct op as [|[k v] [|kv op]]; csimpl.
  - by rewrite !app_nil_r.
  - destruct (decide (k = [])) as [->|Hne].
    + csimpl. by rewrite app_nil_r.
    + rewrite (bool_decide_false (Some k = Some [])) by congruence. csimpl.
      rewrite filter_cons_True.
      * by rewrite app_nil_r.
      * csimpl. by rewrite bool_decide_false.
  - by rewrite app_nil_r.
Qed.

Lemma tensor_operands_cons (op : code_map) (operands : list code_map) :
  tensor_operands (op :: operands) = tensor_operands [op] ++ tensor_operands operands.
Proof.
  unfold tensor_operands. change (op :: operands) with ([op] ++ operands).
  by rewrite filter_app.
Qed.

Lemma scalar_tokens_cons (op : code_map) (operands : list code_map) :
  scalar_tokens (op :: operands) = scalar_tokens [op] ++ scalar_tokens operands.
Proof.
  unfold scalar_tokens. change (op :: operands) with ([op] ++ operands).
  by rewrite omap_app.
Qed.

Lemma product_sort_operands_run (operands : list code_map) (permute : list code_map)
    (not_permute : list (option string)) :
  product_sort_operands (permute, not_permute) operands
  = Ok (permute ++ tensor_operands operands, not_permute ++ scalar_tokens operands).
Proof.
  revert permute not_permute.
  induction operands as [|op operands IH]; intros permute not_permute.
  - csimpl. by rewrite !app_nil_r.
  - change (product_sort_operands (permute, not_permute) (op :: operands))
      with (acc' ← product_sort_operand (permute, not_permute) op;
            product_sort_operands acc' operands).
    rewrite product_sort_operand_run.
    change (Ok ?a ≫= ?f) with (f a). cbv beta. rewrite IH.
    by rewrite (tensor_operands_cons op operands), (scalar_tokens_cons op operands),
      !app_assoc.
Qed.

Lemma multiplicands_all (ss : list string) (value : list string) :
  Forall (fun s => s ≠ "") ss ->
  product_multiplicands (Some <$> ss) value = Ok (Some (value ++ non_identity ss)).
Proof.
  intros Hss. revert value. induction Hss as [|s ss Hs _ IH]; intros value; csimpl.
  - by rewrite app_nil_r.
  - rewrite bool_decide_false by done. unfold non_identity. rewrite filter_cons.
    destruct (decide (s = "1")) as [->|Hne].
    + rewrite decide_False by (by intros ?). apply IH.
    + rewrite bool_decide_false, decide_True by done. rewrite IH.
      by rewrite <- app_assoc.
Qed.

Lemma multiplicands_zero (pre : list string) (post : list (option string))
    (value : list string) :
  Forall (fun s => s ≠ "") pre ->
  product_multiplicands ((Some <$> pre) ++ None :: post) value = Ok None.
Proof.
  intros Hpre. revert value. induction Hpre as [|s pre Hs _ IH]; intros value; csimpl.
  - done.
  - rewrite bool_decide_false by done. destruct (bool_decide (s = "1")); apply IH.
Qed.

Lemma multiplicands_malformed (pre : list string) (post : list (option string))
    (value : list string) :
  Forall (fun s => s ≠ "") pre ->
  product_multiplicands ((Some <$> pre) ++ Some "" :: post) value
  = Raise (FFCError "should not happen").
Proof.
  intros Hpre. revert value. induction Hpre as [|s pre Hs _ IH]; intros value; csimpl.
  - done.
  - rewrite bool_decide_false by done. destruct (bool_decide (s = "1")); apply IH.
Qed.

(** The folding rule gives what the source computes. *)
Lemma folds_product_token (vs : list (option string)) (r : result (option string)) :
  folds format vs r -> product_token format vs = r.
Proof.
  unfold product_token. destruct 1 as [pre post Hpre|pre post Hpre|ss Hss Hne|ss Hss He].
  - by rewrite multiplicands_zero.
  - by rewrite multiplicands_malformed.
  - rewrite multiplicands_all by done. csimpl. unfold product_value.
    by rewrite bool_decide_false.
  - rewrite multiplicands_all by done. csimpl. unfold product_value.
    by rewrite bool_decide_true.
Qed.

(** The folding rule covers every list of multiplicands. *)
Lemma folds_total (vs : list (option string)) : exists r, folds format vs r.
Proof.
  induction vs as [|[s|] vs [r IH]].
  - eexists. by apply (folds_identity format []).
  - destruct (decide (s = "")) as [->|Hs].
    { eexists. apply (folds_malformed format [] vs). constructor. }
    destruct IH as [pre post Hpre|pre post Hpre|ss Hss Hne|ss Hss He].
    + eexists. apply (folds_zero format (s :: pre) post). by constructor.
    + eexists. apply (folds_malformed format (s :: pre) post). by constructor.
    + eexists. apply (folds_multiply format (s :: ss)); [by constructor|].
      unfold non_identity in *. rewrite filter_cons. by destruct (decide (s ≠ "1")).
    + destruct (decide (s = "1")) as [->|Hne].
      * eexists. apply (folds_identity format ("1" :: ss)); [by constructor|].
        unfold non_identity in *. rewrite filter_cons_False; [done|]. by intros ?.
      * eexists. apply (folds_multiply format (s :: ss)); [by constructor|].
        unfold non_identity in *. by rewrite filter_cons_True.
  - eexists. apply (folds_zero format [] vs). constructor.
Qed.

Lemma folds_Ok_token (vs : list (option string)) (t : option string) :
  product_token format vs = Ok t -> folds format vs (Ok t).
Proof.
  intros Ht. destruct (folds_total vs) as [r Hr].
  by rewrite <- Ht, (folds_product_token _ _ Hr).
Qed.

Lemma folds_Raise (vs : list (option string)) (e : exn) :
  folds format vs (Raise e) -> e = FFCError "should not happen".
Proof. by inversion 1. Qed.
Lemma mapM_Ok_fmap {A B : Type} (f : A -> result B) (g : A -> B) (l : list A) :
  (forall x, x ∈ l -> f x = Ok (g x)) -> mapM f l = Ok (g <$> l).
Proof.
  induction l as [|x l IH]; intros Hf; [done|].
  change (mapM f (x :: l)) with (y ← f x; k ← mapM f l; mret (y :: k)).
  rewrite Hf by (apply elem_of_cons; by left).
  rewrite IH; [done|]. intros y Hy. apply Hf. apply elem_of_cons. by right.
Qed.

Lemma mapM_Raise {A B : Type} (f : A -> result B) (e : exn) (l : list A) :
  (forall x e', x ∈ l -> f x = Raise e' -> e' = e) ->
  (exists x, x ∈ l /\ f x = Raise e) ->
  mapM f l = Raise e.
Proof.
  induction l as [|x l IH]; intros Hsame (y & Hy & Hfy).
  - by apply elem_of_nil in Hy.
  - change (mapM f (x :: l)) with (y ← f x; k ← mapM f l; mret (y :: k)).
    destruct (f x) as [b|e'] eqn:Hfx.
    + rewrite IH; [done| |].
      * intros z e' Hz. apply Hsame. apply elem_of_cons. by right.
      * apply elem_of_cons in Hy as [->|Hy]; [congruence|]. by exists y.
    + csimpl. f_equal. apply (Hsame x); [apply elem_of_cons; by left|done].
Qed.

Lemma set_set {K V : Type} `{EqDecision K} (d : list (K * V)) (k : K) (v v' : V) :
  Dict.set (Dict.set d k v) k v' = Dict.set d k v'.
Proof.
  induction d as [|[k0 v0] d IH]; csimpl.
  - by rewrite decide_True.
  - destruct (decide (k = k0)) as [->|Hne]; csimpl.
    + by rewrite decide_True.
    + rewrite decide_False by done. by rewrite IH.
Qed.

Lemma keys_set_elem {K V : Type} `{EqDecision K} (d : list (K * V)) (k k' : K) (v : V) :
  k' ∈ Dict.keys (Dict.set d k v) <-> k' = k \/ k' ∈ Dict.keys d.
Proof.
  destruct (decide (k ∈ Dict.keys d)) as [Hin|Hnin].
  - rewrite keys_set_present by done. split; [by right|]. by intros [->|?].
  - rewrite set_fresh by done. unfold Dict.keys. rewrite fmap_app, elem_of_app.
    csimpl. rewrite list_elem_of_singleton. tauto.
Qed.

Lemma product_run (operands : list code_map) :
  product format permutations_of operands =
  if negb (bool_decide (permutations_of (tensor_operands operands) = []))
  then product_entries format (scalar_tokens operands) []
         (permutations_of (tensor_operands operands))
  else t ← product_token format (scalar_tokens operands); Ok [([], t)].
Proof.
  unfold product. rewrite product_sort_operands_run. csimpl.
  destruct (bool_decide (permutations_of (tensor_operands operands) = [])); csimpl; [|done].
  unfold product_token.
  by destruct (product_multiplicands (scalar_tokens operands) []) as [[value|]|e].
Qed.

Lemma product_entry_cases (not_permute : list (option string)) (code : code_map)
    (kv : list Z * list (option string)) :
  product_entry format not_permute code kv =
  match product_token format (kv.2 ++ not_permute) with
  | Raise e => Raise e
  | Ok None =>
      if Dict.contains code (sort_key kv.1)
      then Raise (FFCError "This key should not be in the code.")
      else Ok (Dict.set code (sort_key kv.1) None)
  | Ok (Some t) => Ok (Dict.set code (sort_key kv.1) (Some t))
  end.
Proof.
  unfold product_entry, product_token.
  destruct (product_multiplicands (kv.2 ++ not_permute) []) as [[value|]|e]; csimpl; try done.
  destruct (Dict.contains code (sort_key kv.1)); csimpl; [done|].
  by rewrite set_set.
Qed.

Lemma product_entries_cons (not_permute : list (option string)) (code : code_map)
    (kv : list Z * list (option string)) (its : list (list Z * list (option string))) :
  product_entries format not_permute code (kv :: its) =
  code' ← product_entry format not_permute code kv;
  product_entries format not_permute code' its.
Proof. done. Qed.

Lemma product_entries_app (not_permute : list (option string)) (code : code_map)
    (l1 l2 : list (list Z * list (option string))) :
  product_entries format not_permute code (l1 ++ l2) =
  code1 ← product_entries format not_permute code l1;
  product_entries format not_permute code1 l2.
Proof.
  revert code. induction l1 as [|kv l1 IH]; intros code; [done|].
  rewrite <- app_comm_cons, !product_entries_cons.
  destruct (product_entry format not_permute code kv) as [code'|e]; [apply IH|done].
Qed.

Lemma product_entries_fresh (not_permute : list (option string))
    (its : list (list Z * list (option string))) (code : code_map) :
  NoDup (Dict.keys code ++ (sort_key <$> Dict.keys its)) ->
  (forall kv, kv ∈ its -> exists t, product_token format (kv.2 ++ not_permute) = Ok t) ->
  product_entries format not_permute code its
  = Ok (code ++ (entry_of format not_permute <$> its)).
Proof.
  revert code. induction its as [|kv its IH]; intros code Hnd Hok.
  - csimpl. by rewrite app_nil_r.
  - rewrite product_entries_cons, product_entry_cases.
    destruct (Hok kv) as [t Ht]; [apply elem_of_cons; by left|].
    assert (Hk : sort_key kv.1 ∉ Dict.keys code).
    { apply NoDup_app in Hnd as (_ & Hd & _). intros Hin.
      apply (Hd _ Hin). unfold Dict.keys. csimpl. apply elem_of_cons. by left. }
    assert (Hc : Dict.contains code (sort_key kv.1) = false).
    { apply not_true_is_false. by rewrite contains_true. }
    assert (Hstep : forall v,
      product_entries format not_permute (Dict.set code (sort_key kv.1) v) its
      = Ok (code ++ (sort_key kv.1, v) :: (entry_of format not_permute <$> its))).
    { intros v. rewrite set_fresh by done. rewrite IH.
      - by rewrite <- app_assoc.
      - unfold Dict.keys in *. rewrite fmap_app. csimpl.
        rewrite <- app_assoc. csimpl. exact Hnd.
      - intros kv' Hkv'. apply Hok. apply elem_of_cons. by right. }
    rewrite fmap_cons. unfold entry_of at 1. rewrite Ht.
    destruct t as [t|]; csimpl; [apply Hstep|].
    rewrite Hc. apply Hstep.
Qed.

Lemma product_entries_raise (not_permute : list (option string))
    (its : list (list Z * list (option string))) (code : code_map) :
  NoDup (Dict.keys code ++ (sort_key <$> Dict.keys its)) ->
  (exists kv e, kv ∈ its /\ folds format (kv.2 ++ not_permute) (Raise e)) ->
  product_entries format not_permute code its = Raise (FFCError "should not happen").
Proof.
  revert code. induction its as [|kv its IH]; intros code Hnd (kv' & e & Hin & Hf).
  - by apply elem_of_nil in Hin.
  - rewrite product_entries_cons, product_entry_cases.
    assert (Hk : sort_key kv.1 ∉ Dict.keys code).
    { apply NoDup_app in Hnd as (_ & Hd & _). intros Hin'.
      apply (Hd _ Hin'). unfold Dict.keys. csimpl. apply elem_of_cons. by left. }
    assert (Hc : Dict.contains code (sort_key kv.1) = false).
    { apply not_true_is_false. by rewrite contains_true. }
    destruct (folds_total (kv.2 ++ not_permute)) as [r Hr].
    rewrite (folds_product_token _ _ Hr).
    destruct r as [t|e'].
    + assert (Hin2 : kv' ∈ its).
      { apply elem_of_cons in Hin as [->|?]; [|done].
        apply folds_product_token in Hr, Hf. congruence. }
      assert (Hstep : forall v,
        product_entries format not_permute (Dict.set code (sort_key kv.1) v) its
        = Raise (FFCError "should not happen")).
      { intros v. apply IH; [|by exists kv', e].
        rewrite set_fresh by done. unfold Dict.keys in *. rewrite fmap_app. csimpl.
        rewrite <- app_assoc. csimpl. exact Hnd. }
      destruct t as [t|]; csimpl; [apply Hstep|]. rewrite Hc. apply Hstep.
    + by rewrite (folds_Raise _ _ Hr).
Qed.
End product_facts.

Section product_properties.
Context (format : Format).
Context (permutations_of : list code_map -> list (list Z * list (option string))).
Import QuadratureTransformer.

Lemma sort_key_sorted (k : list Z) : Sorted Z.le (sort_key k) /\ sort_key k ≡ₚ k.
Proof.
  unfold sort_key. split.
  - apply (Sorted_merge_sort Z.le).
  - apply merge_sort_Permutation.
Qed.

Lemma sort_key_perm (k k' : list Z) : k ≡ₚ k' -> sort_key k = sort_key k'.
Proof.
  intros Hp. apply (Sorted_unique Z.le).
  - apply sort_key_sorted.
  - apply sort_key_sorted.
  - destruct (sort_key_sorted k) as [_ ->]. destruct (sort_key_sorted k') as [_ ->]. done.
Qed.

Lemma product_entries_inv (not_permute : list (option string))
    (its : list (list Z * list (option string))) (code code' : code_map) :
  product_entries format not_permute code its = Ok code' ->
  Dict.wf code ->
  Dict.wf code'
  /\ (forall k, k ∈ Dict.keys code' <->
                k ∈ Dict.keys code \/ exists kv, kv ∈ its /\ k = sort_key kv.1)
  /\ (forall k t, Dict.get code' k = Some t ->
        Dict.get code k = Some t
        \/ exists kv, kv ∈ its /\ sort_key kv.1 = k
                      /\ product_token format (kv.2 ++ not_permute) = Ok t).
Proof.
  revert code. induction its as [|kv its IH]; intros code Hrun Hwf.
  - injection Hrun as <-. split_and!; [done| |by left].
    intros k. split; [by left|]. intros [?|(kv & Hkv & _)]; [done|].
    by apply elem_of_nil in Hkv.
  - rewrite product_entries_cons, product_entry_cases in Hrun.
    destruct (product_token format (kv.2 ++ not_permute)) as [t|e] eqn:Ht; [|done].
    assert (Hset : exists code1, code1 = Dict.set code (sort_key kv.1) t
              /\ product_entries format not_permute code1 its = Ok code').
    { destruct t as [t|]; [by eexists|].
      destruct (Dict.contains code (sort_key kv.1)); [done|]. by eexists. }
    destruct Hset as (code1 & -> & Hrest).
    destruct (IH _ Hrest (wf_set _ _ _ Hwf)) as (Hwf' & Hkeys & Hget).
    split_and!; [done| |].
    + intros k. rewrite Hkeys, keys_set_elem. split.
      * intros [[->|?]|(kv' & Hkv' & ->)].
        -- right. exists kv. split; [apply elem_of_cons; by left|done].
        -- by left.
        -- right. exists kv'. split; [apply elem_of_cons; by right|done].
      * intros [?|(kv' & Hkv' & ->)]; [left; by right|].
        apply elem_of_cons in Hkv' as [->|?]; [left; by left|].
        right. by exists kv'.
    + intros k t' Hk. destruct (Hget k t' Hk) as [Hold|(kv' & Hkv' & Hs & Hp)].
      * destruct (decide (sort_key kv.1 = k)) as [<-|Hne].
        -- rewrite get_set_eq in Hold. injection Hold as <-.
           right. exists kv. split; [apply elem_of_cons; by left|done].
        -- rewrite get_set_ne in Hold by done. by left.
      * right. exists kv'. split; [apply elem_of_cons; by right|done].
Qed.

Lemma folds_iff (vs : list (option string)) (r : result (option string)) :
  folds format vs r <-> product_token format vs = r.
Proof.
  split; [apply folds_product_token|]. intros <-.
  destruct (folds_total format vs) as [r Hr].
  by rewrite (folds_product_token _ _ _ Hr).
Qed.

(** One round of the loop over the permutations that does not fail. *)
Lemma product_entries_cons_Ok (not_permute : list (option string))
    (kv : list Z * list (option string)) (its : list (list Z * list (option string)))
    (code code' : code_map) :
  product_entries format not_permute code (kv :: its) = Ok code' ->
  exists t, product_token format (kv.2 ++ not_permute) = Ok t
    /\ (t = None -> sort_key kv.1 ∉ Dict.keys code)
    /\ product_entries format not_permute (Dict.set code (sort_key kv.1) t) its = Ok code'.
Proof.
  rewrite product_entries_cons, product_entry_cases.
  destruct (product_token format (kv.2 ++ not_permute)) as [[t|]|e]; [| |done].
  - intros Hrun. exists (Some t). by split_and!.
  - destruct (Dict.contains code (sort_key kv.1)) eqn:Hc; [done|].
    intros Hrun. exists None. split_and!; [done| |done].
    intros _ Hin. apply contains_true in Hin. congruence.
Qed.

Lemma product_entries_cons_run (not_permute : list (option string))
    (kv : list Z * list (option string)) (its : list (list Z * list (option string)))
    (code : code_map) (t : option string) :
  product_token format (kv.2 ++ not_permute) = Ok t ->
  (t = None -> sort_key kv.1 ∉ Dict.keys code) ->
  product_entries format not_permute code (kv :: its)
  = product_entries format not_permute (Dict.set code (sort_key kv.1) t) its.
Proof.
  intros Ht Hz. rewrite product_entries_cons, product_entry_cases, Ht.
  destruct t as [t|]; [done|].
  destruct (Dict.contains code (sort_key kv.1)) eqn:Hc; [|done].
  apply contains_true in Hc. by destruct (Hz eq_refl).
Qed.

(** A key that no permutation sorts to keeps its entry. *)
Lemma product_entries_untouched (not_permute : list (option string))
    (its : list (list Z * list (option string))) (code code' : code_map) (k : list Z) :
  product_entries format not_permute code its = Ok code' ->
  k ∉ (sort_key <$> Dict.keys its) ->
  Dict.get code' k = Dict.get code k.
Proof.
  revert code. induction its as [|kv its IH]; intros code Hrun Hk.
  - by injection Hrun as <-.
  - apply product_entries_cons_Ok in Hrun as (t & _ & _ & Hrest).
    unfold Dict.keys in Hk. rewrite !fmap_cons in Hk.
    apply not_elem_of_cons in Hk as [Hne Hk].
    rewrite (IH _ Hrest Hk). by apply get_set_ne.
Qed.

(** Where the loop returns, every permutation has multiplicands that fold,
    one that folds to [None] comes first at its sorted key, and the entry at
    a sorted key is the fold of the permutation that comes last with it. *)
Lemma product_entries_last (not_permute : list (option string))
    (its : list (list Z * list (option string))) (code code' : code_map) :
  product_entries format not_permute code its = Ok code' ->
  forall pre kv post, its = pre ++ kv :: post ->
    exists t, product_token format (kv.2 ++ not_permute) = Ok t
      /\ (t = None -> (sort_key kv.1 ∉ Dict.keys code)
                      /\ (sort_key kv.1 ∉ (sort_key <$> Dict.keys pre)))
      /\ (sort_key kv.1 ∉ (sort_key <$> Dict.keys post) ->
          Dict.get code' (sort_key kv.1) = Some t).
Proof.
  revert code. induction its as [|kv0 its IH]; intros code Hrun pre kv post Hsplit.
  - by destruct pre.
  - apply product_entries_cons_Ok in Hrun as (t0 & Ht0 & Hz0 & Hrest).
    destruct pre as [|kv1 pre]; simplify_eq/=.
    + exists t0. split_and!; [done| |].
      * intros Hn. split; [by apply Hz0|]. apply not_elem_of_nil.
      * intros Hpost. rewrite (product_entries_untouched _ _ _ _ _ Hrest Hpost).
        apply get_set_eq.
    + destruct (IH _ Hrest pre kv post eq_refl) as (t & Ht & Hz & Hlast).
      exists t. split_and!; [done| |done].
      intros Hn. destruct (Hz Hn) as [Hc Hp]. split.
      * intros Hin. apply Hc. apply keys_set_elem. by right.
      * apply not_elem_of_cons. split; [|done].
        intros Heq. apply Hc. apply keys_set_elem. by left.
Qed.

(** The loop returns where every permutation has multiplicands that fold
    and one that folds to [None] comes first at its sorted key. *)
Lemma product_entries_goes (not_permute : list (option string))
    (its : list (list Z * list (option string))) (code : code_map) :
  (forall pre kv post, its = pre ++ kv :: post ->
     exists t, product_token format (kv.2 ++ not_permute) = Ok t
       /\ (t = None -> (sort_key kv.1 ∉ Dict.keys code)
                       /\ (sort_key kv.1 ∉ (sort_key <$> Dict.keys pre)))) ->
  exists code', product_entries format not_permute code its = Ok code'.
Proof.
  revert code. induction its as [|kv0 its IH]; intros code Hgo.
  - by eexists.
  - destruct (Hgo [] kv0 its eq_refl) as (t0 & Ht0 & Hz0).
    rewrite (product_entries_cons_run _ _ _ _ t0); [|done|intros Hn; by apply Hz0].
    apply IH. intros pre kv post ->.
    destruct (Hgo (kv0 :: pre) kv post eq_refl) as (t & Ht & Hz).
    exists t. split; [done|]. intros Hn. destruct (Hz Hn) as [Hc Hp].
    unfold Dict.keys in Hp. rewrite !fmap_cons in Hp.
    apply not_elem_of_cons in Hp as [Hne Hp].
    split; [|done]. rewrite keys_set_elem. by intros [?|?].
Qed.

Lemma goes_through_entries (not_permute : list (option string))
    (its : list (list Z * list (option string))) :
  goes_through format not_permute its <->
  exists code, product_entries format not_permute [] its = Ok code.
Proof.
  split.
  - intros Hgo. apply product_entries_goes. intros pre kv post Hsplit.
    destruct (Hgo pre kv post Hsplit) as (t & Ht & Hz).
    exists t. split; [by apply folds_iff|]. intros Hn. split; [apply not_elem_of_nil|].
    by apply Hz.
  - intros [code Hrun] pre kv post Hsplit.
    destruct (product_entries_last _ _ _ _ Hrun pre kv post Hsplit) as (t & Ht & Hz & _).
    exists t. split; [by apply folds_iff|]. intros Hn. by apply Hz.
Qed.

(** The keys stored after the permutations before a position. *)
Lemma product_entries_stored (not_permute : list (option string))
    (pre : list (list Z * list (option string))) (code1 : code_map) (k : list Z) :
  product_entries format not_permute [] pre = Ok code1 ->
  k ∈ sort_key <$> Dict.keys pre -> Dict.contains code1 k = true.
Proof.
  intros Hrun Hin. apply contains_true.
  destruct (product_entries_inv _ _ _ _ Hrun) as (_ & Hkeys & _); [apply NoDup_nil_2|].
  apply Hkeys. right. unfold Dict.keys in Hin.
  apply list_elem_of_fmap in Hin as (k0 & -> & Hk0).
  apply list_elem_of_fmap in Hk0 as (kv & -> & Hkv). by exists kv.
Qed.

(** The first permutation at which the loop fails. *)
Lemma product_entries_failure (not_permute : list (option string))
    (pre post : list (list Z * list (option string)))
    (kv : list Z * list (option string)) :
  goes_through format not_permute pre ->
  (forall e, folds format (kv.2 ++ not_permute) (Raise e) ->
     product_entries format not_permute [] (pre ++ kv :: post) = Raise e)
  /\ (folds format (kv.2 ++ not_permute) (Ok None) ->
      sort_key kv.1 ∈ sort_key <$> Dict.keys pre ->
      product_entries format not_permute [] (pre ++ kv :: post)
      = Raise (FFCError "This key should not be in the code.")).
Proof.
  intros [code1 Hpre]%goes_through_entries. split.
  - intros e He%folds_iff.
    rewrite product_entries_app, Hpre. change (Ok ?a ≫= ?f) with (f a). cbv beta.
    by rewrite product_entries_cons, product_entry_cases, He.
  - intros Hz%folds_iff Hin.
    rewrite product_entries_app, Hpre. change (Ok ?a ≫= ?f) with (f a). cbv beta.
    rewrite product_entries_cons, product_entry_cases, Hz.
    by rewrite (product_entries_stored _ _ _ _ Hpre Hin).
Qed.

(** With multiplicands that all fold, the loop returns or fails with the
    assertion on the key. *)
Lemma product_entries_ok_or_assert (not_permute : list (option string))
    (its : list (list Z * list (option string))) (code : code_map) :
  (forall kv, kv ∈ its -> exists t, folds format (kv.2 ++ not_permute) (Ok t)) ->
  product_entries format not_permute code its
  = Raise (FFCError "This key should not be in the code.")
  \/ exists code', product_entries format not_permute code its = Ok code'.
Proof.
  revert code. induction its as [|kv its IH]; intros code Hok.
  - right. by eexists.
  - destruct (Hok kv) as [t Ht%folds_iff]; [apply elem_of_cons; by left|].
    rewrite product_entries_cons, product_entry_cases, Ht.
    assert (Hrest : forall kv', kv' ∈ its ->
              exists t', folds format (kv'.2 ++ not_permute) (Ok t')).
    { intros kv' Hkv'. apply Hok. apply elem_of_cons. by right. }
    destruct t as [t|]; [by apply IH|].
    destruct (Dict.contains code (sort_key kv.1)); [by left|by apply IH].
Qed.

(** The entry of an output key is the fold of the permutation that comes
    last among those with this sorted key. *)
Lemma product_entries_at_key (not_permute : list (option string))
    (its : list (list Z * list (option string))) (code : code_map)
    (k : list Z) (t : option string) :
  product_entries format not_permute [] its = Ok code ->
  Dict.get code k = Some t ->
  exists pre kv post, its = pre ++ kv :: post
    /\ sort_key kv.1 = k
    /\ (k ∉ (sort_key <$> Dict.keys post))
    /\ folds format (kv.2 ++ not_permute) (Ok t)
    /\ (t = None -> k ∉ (sort_key <$> Dict.keys pre)).
Proof.
  intros Hrun Hget.
  destruct (product_entries_inv _ _ _ _ Hrun) as (_ & Hkeys & _); [apply NoDup_nil_2|].
  assert (Hin : k ∈ sort_key <$> Dict.keys its).
  { destruct (decide (k ∈ Dict.keys code)) as [Hk|Hk].
    - apply Hkeys in Hk as [Hk|(kv & Hkv & ->)]; [by apply elem_of_nil in Hk|].
      apply list_elem_of_fmap_2. unfold Dict.keys. by apply list_elem_of_fmap_2.
    - apply get_None in Hk. congruence. }
  apply list_elem_of_split_r in Hin as (ks1 & ks2 & Hsplit & Hlast).
  unfold Dict.keys in Hsplit. rewrite <- list_fmap_compose in Hsplit.
  apply fmap_app_inv in Hsplit as (pre & rest & -> & Hrest & ->).
  symmetry in Hrest. apply fmap_cons_inv in Hrest as (kv & post & Hk & -> & ->).
  simpl in Hk.
  assert (Hpost : k ∉ (sort_key <$> Dict.keys post)).
  { unfold Dict.keys. by rewrite <- list_fmap_compose. }
  destruct (product_entries_last _ _ _ _ Hrun pre kv post eq_refl)
    as (t' & Ht' & Hfirst & Hlast').
  rewrite <- Hk in Hlast', Hfirst. rewrite Hlast' in Hget by done.
  injection Hget as <-.
  exists pre, kv, post. split_and!; [done|done|done|by apply folds_iff|].
  intros Hn. by apply Hfirst.
Qed.

(** C6, as the code has it.  The multiplicands of a permutation, the tokens
    of the tensor operands followed by those of the scalar operands, are
    folded from the left, with one outcome for each list: the fold is [None]
    as soon as a multiplicand is [None], an empty token raises "should not
    happen", tokens equal to ["1"] are dropped and [multiply] is applied to
    the others, or to ["1"] alone when none is left, which is the literal
    ["1"] where [multiply] of one token is that token.  Without tensor
    operands the fold of the scalar tokens is the entry at the empty key.
    With tensor operands the product returns exactly when it goes through
    all permutations; the entry at an output key is then the fold of the
    permutation enumerated last among those with this sorted key, so the
    fold of its permutation where only one has it, and it is [None] only
    where no other permutation has the key; the first permutation it does
    not get through makes it fail, with "should not happen" for an empty
    token and with "This key should not be in the code." for a fold that is
    [None] at a sorted key that a permutation before it has.  The entries
    for sorted keys that are pairwise distinct follow as a special case. *)
Theorem product_fold (operands : list code_map) :
  let scalars := scalar_tokens operands in
  let permutations := permutations_of (tensor_operands operands) in
  (forall vs, exists r, folds format vs r /\ forall r', folds format vs r' -> r' = r)
  /\ (permutations = [] ->
      (forall t, folds format scalars (Ok t) ->
         product format permutations_of operands = Ok [([], t)])
      /\ (forall e, folds format scalars (Raise e) ->
            product format permutations_of operands = Raise e))
  /\ (permutations ≠ [] ->
      ((exists code, product format permutations_of operands = Ok code)
       <-> goes_through format scalars permutations)
      /\ (forall code, product format permutations_of operands = Ok code ->
            (forall k t, Dict.get code k = Some t ->
               exists pre kv post, permutations = pre ++ kv :: post
                 /\ sort_key kv.1 = k
                 /\ (k ∉ (sort_key <$> Dict.keys post))
                 /\ folds format (kv.2 ++ scalars) (Ok t)
                 /\ (t = None -> k ∉ (sort_key <$> Dict.keys pre)))
            /\ (forall pre kv post, permutations = pre ++ kv :: post ->
                  sort_key kv.1 ∉ (sort_key <$> Dict.keys post) ->
                  exists t, folds format (kv.2 ++ scalars) (Ok t)
                    /\ Dict.get code (sort_key kv.1) = Some t))
      /\ (forall pre kv post, permutations = pre ++ kv :: post ->
            goes_through format scalars pre ->
            (forall e, folds format (kv.2 ++ scalars) (Raise e) ->
               e = FFCError "should not happen"
               /\ product format permutations_of operands = Raise e)
            /\ (folds format (kv.2 ++ scalars) (Ok None) ->
                sort_key kv.1 ∈ sort_key <$> Dict.keys pre ->
                product format permutations_of operands
                = Raise (FFCError "This key should not be in the code."))))
  /\ (permutations ≠ [] -> NoDup (sort_key <$> Dict.keys permutations) ->
      ((exists kv e, kv ∈ permutations /\ folds format (kv.2 ++ scalars) (Raise e)) ->
       product format permutations_of operands = Raise (FFCError "should not happen"))
      /\ ((forall kv, kv ∈ permutations -> exists t, folds format (kv.2 ++ scalars) (Ok t)) ->
          exists code, product format permutations_of operands = Ok code
            /\ Dict.keys code = sort_key <$> Dict.keys permutations
            /\ forall kv t, kv ∈ permutations ->
                 folds format (kv.2 ++ scalars) (Ok t) ->
                 Dict.get code (sort_key kv.1) = Some t))
  /\ (format_multiply format ["1"] = "1" ->
      forall ss, Forall (fun s => s ≠ "") ss -> non_identity ss = [] ->
        folds format (Some <$> ss) (Ok (Some "1"))).
Proof.
  intros scalars permutations. split_and!.
  - intros vs. destruct (folds_total format vs) as [r Hr]. exists r. split; [done|].
    intros r' Hr'. apply folds_iff in Hr, Hr'. congruence.
  - intros Hnil. split.
    + intros t Ht. rewrite product_run. fold permutations. rewrite Hnil. csimpl.
      fold scalars. by rewrite (folds_product_token _ _ _ Ht).
    + intros e He. rewrite product_run. fold permutations. rewrite Hnil. csimpl.
      fold scalars. by rewrite (folds_product_token _ _ _ He).
  - intros Hne.
    assert (Hrun : product format permutations_of operands
                   = product_entries format scalars [] permutations).
    { rewrite product_run. fold permutations scalars.
      by rewrite bool_decide_false. }
    rewrite Hrun. split_and!.
    + symmetry. apply goes_through_entries.
    + intros code Hcode. split.
      * intros k t. by apply product_entries_at_key.
      * intros pre kv post Hsplit Hlast.
        destruct (product_entries_last _ _ _ _ Hcode pre kv post Hsplit)
          as (t & Ht & _ & Hget).
        exists t. split; [by apply folds_iff|by apply Hget].
    + intros pre kv post Hsplit Hgo. rewrite Hsplit.
      destruct (product_entries_failure scalars pre post kv Hgo) as [Hraise Hassert].
      split; [|exact Hassert].
      intros e He. split; [by eapply folds_Raise|by apply Hraise].
  - intros Hne Hnd. split.
    + intros Hbad. rewrite product_run. fold permutations scalars.
      rewrite bool_decide_false by done. csimpl.
      by apply product_entries_raise.
    + intros Hok. rewrite product_run. fold permutations scalars.
      rewrite bool_decide_false by done. csimpl.
      rewrite product_entries_fresh; [|done|].
      2:{ intros kv Hkv. destruct (Hok kv Hkv) as [t Ht]. exists t.
          by apply folds_product_token. }
      eexists. split; [reflexivity|]. csimpl.
      assert (Hkeys : Dict.keys (entry_of format scalars <$> permutations)
                      = sort_key <$> Dict.keys permutations).
      { unfold Dict.keys. rewrite <- !list_fmap_compose. done. }
      split; [done|]. intros kv t Hkv Ht. apply get_elem_wf.
      * unfold Dict.wf. by rewrite Hkeys.
      * apply list_elem_of_fmap. exists kv. split; [|done].
        unfold entry_of. by rewrite (folds_product_token _ _ _ Ht).
  - intros Hone ss Hss Hid. rewrite <- Hone. by apply folds_identity.
Qed.

(** C2, as the code has it.  Each key the permutation generator gives is
    put in increasing order, so that keys with the same indices in any order
    give the same output key; the result of a product with tensor operands
    has one entry for each sorted key, and the token of an entry is the fold
    of one permutation alone, the one enumerated last with this sorted key:
    the tokens of permutations with the same sorted key are not merged; a
    permutation that has a [None] multiplicand and a sorted key that a
    permutation enumerated before it had makes the product fail. *)
Theorem product_key_canonical (operands : list code_map) :
  let scalars := scalar_tokens operands in
  let permutations := permutations_of (tensor_operands operands) in
  permutations ≠ [] ->
  (forall k, Sorted Z.le (sort_key k) /\ sort_key k ≡ₚ k)
  /\ (forall k k', k ≡ₚ k' -> sort_key k = sort_key k')
  /\ (forall code, product format permutations_of operands = Ok code ->
        Dict.wf code
        /\ (forall k, k ∈ Dict.keys code <->
                      exists kv, kv ∈ permutations /\ k = sort_key kv.1)
        /\ (forall k t, Dict.get code k = Some t ->
              exists pre kv post, permutations = pre ++ kv :: post
                /\ sort_key kv.1 = k
                /\ (k ∉ (sort_key <$> Dict.keys post))
                /\ folds format (kv.2 ++ scalars) (Ok t)
                /\ (t = None -> k ∉ (sort_key <$> Dict.keys pre))))
  /\ (forall pre kv post,
        permutations = pre ++ kv :: post ->
        (forall kv', kv' ∈ pre -> exists t, folds format (kv'.2 ++ scalars) (Ok t)) ->
        sort_key kv.1 ∈ sort_key <$> Dict.keys pre ->
        folds format (kv.2 ++ scalars) (Ok None) ->
        product format permutations_of operands
        = Raise (FFCError "This key should not be in the code.")).
Proof.
  intros scalars permutations Hne.
  assert (Hrun : product format permutations_of operands
                 = product_entries format scalars [] permutations).
  { rewrite product_run. fold permutations scalars. by rewrite bool_decide_false. }
  rewrite Hrun. split_and!.
  - apply sort_key_sorted.
  - apply sort_key_perm.
  - intros code Hcode.
    destruct (product_entries_inv _ _ _ _ Hcode) as (Hwf & Hkeys & _).
    { apply NoDup_nil_2. }
    split_and!; [done| |].
    + intros k. rewrite Hkeys. split; [|by right].
      intros [Hnil|?]; [|done]. by apply elem_of_nil in Hnil.
    + intros k t. by apply product_entries_at_key.
  - intros pre kv post Hsplit Hok Hin Hzero. rewrite Hsplit, product_entries_app.
    destruct (product_entries_ok_or_assert scalars pre [] Hok) as [->|[code1 Hpre]]; [done|].
    rewrite Hpre. change (Ok ?a ≫= ?f) with (f a). cbv beta.
    rewrite product_entries_cons, product_entry_cases.
    apply folds_iff in Hzero. rewrite Hzero.
    by rewrite (product_entries_stored _ _ _ _ Hpre Hin).
Qed.
End product_properties.

(** ** The wrappers *)

Section wrappers_properties.
Import Wrappers.

(** C9.  With class names under the keys [_encapsule_form] reads
    ("elements", "dofmaps", "coordinate_maps", "forms"), the single-element
    case of [_encapsulate] selects nothing: the look-up of the key
    "coordinate_mapppings" raises a [KeyError], while [_encapsule_form]
    returns on the same class names; only with a list under the misspelt key
    are the three names at index [len(elements) - 1] returned. *)
Theorem encapsule_element_key_error :
  let classnames :=
    [("elements", ["e0"; "e1"]); ("dofmaps", ["d0"; "d1"]);
     ("coordinate_maps", ["c0"; "c1"]); ("forms", ["f0"])] in
  let all_equal := fun l : list string =>
    match l with
    | [] => true
    | x :: l' => forallb (fun y => bool_decide (y = x)) l'
    end in
  _encapsulate all_equal "prefix" [] classnames [] ["P1"; "P2"] [("P1", 0); ("P2", 1)]
  = Raise (KeyError "'coordinate_mapppings'")
  /\ _encapsule_element "prefix" classnames ["P1"; "P2"]
     = Raise (KeyError "'coordinate_mapppings'")
  /\ _encapsule_form "prefix" [] classnames
       {| original_form := 10; reduced_coefficients := [11];
          argument_elements := ["P1"]; coefficient_elements := ["P2"] |}
       0 [("P1", 0); ("P2", 1)]
     = Ok {| form_name := "0";
             coefficient_names := ["w0"];
             ufc_form_classname := "f0";
             ufc_finite_element_classnames := ["e0"; "e1"];
             ufc_dofmap_classnames := ["d0"; "d1"];
             ufc_coordinate_mapping_classnames := ["c0"; "c1"];
             superclassname := "Form" |}
  /\ _encapsule_element "prefix"
       (("coordinate_mapppings", ["m0"; "m1"]) :: classnames) ["P1"; "P2"]
     = Ok {| element_name := "0";
             element_classnames := ["e1"];
             element_dofmap_classnames := ["d1"];
             element_coordinate_mapping_classnames := ["m1"] |}.
Proof. cbv zeta. split_and!; vm_compute; reflexivity. Qed.
End wrappers_properties.

(** ** Concrete runs *)

Section runs.
Import QuadratureTransformer.

Lemma insertion_order_enumerates {K V : Type} :
  enumerates (@Sample.insertion_order K V).
Proof. intros d. done. Qed.

Lemma reverse_order_enumerates {K V : Type} :
  enumerates (@Sample.reverse_order K V).
Proof. intros d. apply reverse_Permutation. Qed.

(** The scenario [a + a*b] of the specification, under each of the two
    interpreters. *)
Example product_then_sum :
  product Sample.format create_permutations [[([], Some "A")]; [([], Some "B")]]
  = Ok [([], Some "A*B")]
  /\ sum Sample.format Sample.insertion_order [[([], Some "A")]; [([], Some "A*B")]]
     = Ok [([], Some "(A + A*B)")]
  /\ sum Sample.format Sample.reverse_order [[([], Some "A")]; [([], Some "A*B")]]
     = Ok [([], Some "(A*B + A)")].
Proof. split_and!; vm_compute; reflexivity. Qed.

(** The terms of a sum come in the order of the interpreter. *)
Example sum_mixed :
  sum Sample.format Sample.insertion_order
    [[([], Some "t")]; [([], Some "u"); ([0], None)]; [([], Some "t")]]
  = Ok [([], Some "(2*t + u)"); ([0], None)]
  /\ sum Sample.format Sample.reverse_order
       [[([], Some "t")]; [([], Some "u"); ([0], None)]; [([], Some "t")]]
     = Ok [([], Some "(u + 2*t)"); ([0], None)].
Proof. split; vm_compute; reflexivity. Qed.

Example create_argument_covariant :
  (create_argument Sample.format Sample.mapping_basis tt [0] 0 0 0 tt
     COVARIANT_PIOLA [[0]; [1]] Sample.self0).1
  = Ok [([0], Some "(JINV_00*JINV_00*FE0 + JINV_10*JINV_00*FE0)");
        ([1], Some "(JINV_00*JINV_10*FE1 + JINV_10*JINV_10*FE1)")].
Proof. vm_compute. reflexivity. Qed.

Lemma sum_duplicate_reduction_witness :
  (exists code,
     sum Sample.format Sample.reverse_order
       [[([], Some "t")]; [([], Some "t")]; [([], Some "t")]] = Ok code
     /\ Dict.get code [] = Some (Some "3*t"))
  /\ (exists code,
        sum Sample.format Sample.reverse_order
          [[([], Some "t")]; [([], Some "u")]; [([], Some "t")]] = Ok code
        /\ Dict.get code [] = Some (Some "(u + 2*t)"))
  /\ (exists code,
        sum Sample.format Sample.insertion_order
          [[([], Some "t")]; [([], Some "u")]; [([], Some "t")]] = Ok code
        /\ Dict.get code [] = Some (Some "(2*t + u)")).
Proof.
  split_and!.
  - destruct (sum_duplicate_reduction Sample.format Sample.reverse_order
                [[([], Some "t")]; [([], Some "t")]; [([], Some "t")]] [])
      as (code & Hrun & _ & _ & _ & Hone).
    { apply reverse_order_enumerates. }
    { vm_compute. lia. }
    exists code. split; [exact Hrun|].
    destruct (Hone "3*t") as [_ Hg]; [vm_compute; reflexivity|exact Hg].
  - destruct (sum_duplicate_reduction Sample.format Sample.reverse_order
                [[([], Some "t")]; [([], Some "u")]; [([], Some "t")]] [])
      as (code & Hrun & _ & _ & Hmany & _).
    { apply reverse_order_enumerates. }
    { vm_compute. lia. }
    exists code. split; [exact Hrun|]. apply Hmany. vm_compute. lia.
  - destruct (sum_duplicate_reduction Sample.format Sample.insertion_order
                [[([], Some "t")]; [([], Some "u")]; [([], Some "t")]] [])
      as (code & Hrun & _ & _ & Hmany & _).
    { apply insertion_order_enumerates. }
    { vm_compute. lia. }
    exists code. split; [exact Hrun|]. apply Hmany. vm_compute. lia.
Defined.

Lemma sum_single_or_zero_witness :
  (exists code,
     sum Sample.format Sample.reverse_order
       [[([0], Some "u"); ([1], None)]; [([0], None); ([1], None)]] = Ok code
     /\ Dict.get code [0] = Some (Some "u"))
  /\ (exists code,
        sum Sample.format Sample.reverse_order
          [[([0], Some "u"); ([1], None)]; [([0], None); ([1], None)]] = Ok code
        /\ Dict.get code [1] = Some None /\ Dict.get code [1] ≠ Some (Some "0"))
  /\ sum Sample.format Sample.reverse_order [[([0], Some "u"); ([1], None)]]
     = Ok [([0], Some "u"); ([1], None)].
Proof.
  split_and!.
  - destruct (sum_single_or_zero Sample.format Sample.reverse_order
                [[([0], Some "u"); ([1], None)]; [([0], None); ([1], None)]] [0] [])
      as (Hone & _).
    apply (Hone reverse_order_enumerates). vm_compute. reflexivity.
  - destruct (sum_single_or_zero Sample.format Sample.reverse_order
                [[([0], Some "u"); ([1], None)]; [([0], None); ([1], None)]] [1] [])
      as (_ & Hzero & _).
    apply (Hzero reverse_order_enumerates).
    + vm_compute. discriminate.
    + vm_compute. reflexivity.
  - destruct (sum_single_or_zero Sample.format Sample.reverse_order [] []
                [([0], Some "u"); ([1], None)]) as (_ & _ & Hsingle).
    apply Hsingle. apply (bool_decide_unpack _). vm_compute. exact I.
Defined.

Lemma division_cases_witness :
  division Sample.format [[([], Some "A")]]
  = Raise (FFCError "Expected exactly two operands (numerator and denominator): ")
  /\ division Sample.format [[([], Some "A")]; [([0], Some "b0"); ([1], Some "b1")]]
     = Raise (FFCError "Only support function type denominator: ")
  /\ division Sample.format [[([], Some "A")]; [([], None)]]
     = Raise (FFCError "Division by zero!")
  /\ (exists code,
        division Sample.format [[([0], Some "A"); ([1], None)]; [([], Some "B")]] = Ok code
        /\ Dict.get code [0] = Some (Some "A/(B)")
        /\ Dict.get code [1] = Some None)
  /\ (exists code,
        division Sample.format [[([0], Some "A"); ([1], None)]; [([], Some "1")]] = Ok code
        /\ Dict.get code [0] = Some (Some "A")).
Proof.
  split_and!.
  - destruct (division_cases Sample.format [[([], Some "A")]]) as (Harity & _).
    apply Harity. vm_compute. lia.
  - destruct (division_cases Sample.format
                [[([], Some "A")]; [([0], Some "b0"); ([1], Some "b1")]])
      as (_ & Hrank & _).
    apply (Hrank [([], Some "A")] [([0], Some "b0"); ([1], Some "b1")]).
    + reflexivity.
    + intros [v Hv]. discriminate.
  - destruct (division_cases Sample.format [[([], Some "A")]; [([], None)]])
      as (_ & _ & Hzero & _).
    apply (Hzero [([], Some "A")]). reflexivity.
  - destruct (division_cases Sample.format
                [[([0], Some "A"); ([1], None)]; [([], Some "B")]])
      as (_ & _ & _ & Hmap).
    destruct (Hmap [([0], Some "A"); ([1], None)] "B") as (code & Hrun & _ & Hkeys).
    { reflexivity. }
    { apply (bool_decide_unpack _). vm_compute. exact I. }
    exists code. split; [exact Hrun|]. split.
    + destruct (Hkeys [0]) as (_ & _ & _ & Hdiv).
      apply (Hdiv "A"); [reflexivity|discriminate].
    + destruct (Hkeys [1]) as (_ & Hnone & _). apply Hnone. reflexivity.
  - destruct (division_cases Sample.format
                [[([0], Some "A"); ([1], None)]; [([], Some "1")]])
      as (_ & _ & _ & Hmap).
    destruct (Hmap [([0], Some "A"); ([1], None)] "1") as (code & Hrun & _ & Hkeys).
    { reflexivity. }
    { apply (bool_decide_unpack _). vm_compute. exact I. }
    exists code. split; [exact Hrun|].
    destruct (Hkeys [0]) as (_ & _ & Hone & _). apply (Hone "A"); reflexivity.
Defined.
Lemma power_dispatch_witness :
  power Sample.format Sample.visit (Coefficient 0) (IntValue 2) Sample.self0
  = (Ok [([], Some (format_power Sample.format (Some "w0") 2))], Sample.self0)
  /\ power Sample.format Sample.visit (Coefficient 0) (FloatValue 2.0) Sample.self0
     = (Ok [([], Some (format_std_power Sample.format (Some "w0")
                         (Some (format_floating_point Sample.format (PyFloat 2.0)))))],
        Sample.self0)
  /\ power Sample.format Sample.visit (Coefficient 0) (Coefficient 2) Sample.self0
     = (Ok [([], Some (format_std_power Sample.format (Some "w0") (Some "w2")))],
        Sample.self0)
  /\ power Sample.format Sample.visit (Coefficient 0) (Operator "Sum") Sample.self0
     = (Raise (FFCError "power does not support this exponent: "), Sample.self0)
  /\ power Sample.format Sample.visit (Coefficient 1) (IntValue 2) Sample.self0
     = (Raise (FFCError "Only support function type base: "), Sample.self0).
Proof.
  assert (Hscalar : Sample.visit (Coefficient 0) Sample.self0
                    = (Ok [([], Some "w0")], Sample.self0)) by reflexivity.
  assert (Hvector : Sample.visit (Coefficient 1) Sample.self0
                    = (Ok [([0], Some "w1_0"); ([1], Some "w1_1")], Sample.self0))
    by reflexivity.
  split_and!.
  - destruct (power_dispatch Sample.format Sample.visit (Coefficient 0) (IntValue 2)
                _ _ _ Hscalar) as (_ & Hrank0).
    destruct (Hrank0 (Some "w0") eq_refl) as (Hint & _). by apply Hint.
  - destruct (power_dispatch Sample.format Sample.visit (Coefficient 0) (FloatValue 2.0)
                _ _ _ Hscalar) as (_ & Hrank0).
    destruct (Hrank0 (Some "w0") eq_refl) as (_ & Hfloat & _). by apply Hfloat.
  - destruct (power_dispatch Sample.format Sample.visit (Coefficient 0) (Coefficient 2)
                _ _ _ Hscalar) as (_ & Hrank0).
    destruct (Hrank0 (Some "w0") eq_refl) as (_ & _ & Hcoefficient & _).
    apply (Hcoefficient 2 [([], Some "w2")]); reflexivity.
  - destruct (power_dispatch Sample.format Sample.visit (Coefficient 0) (Operator "Sum")
                _ _ _ Hscalar) as (_ & Hrank0).
    destruct (Hrank0 (Some "w0") eq_refl) as (_ & _ & _ & Hother). by apply (Hother "Sum").
  - destruct (power_dispatch Sample.format Sample.visit (Coefficient 1) (IntValue 2)
                _ _ _ Hvector) as (Hfail & _).
    apply Hfail. intros [v Hv]. discriminate.
Defined.

Lemma power_coefficient_unchecked_witness :
  power Sample.format Sample.visit (Coefficient 0) (Coefficient 1) Sample.self0
  = (Raise (KeyError "()"), Sample.self0).
Proof.
  destruct (power_coefficient_unchecked Sample.format Sample.visit
              (Coefficient 0) (Coefficient 1) Sample.self0 Sample.self0 Sample.self0
              (Some "w0") [([0], Some "w1_0"); ([1], Some "w1_1")])
    as (Hmissing & _).
  - reflexivity.
  - reflexivity.
  - apply (Hmissing 1); reflexivity.
Defined.

Lemma apply_transform_factors_witness :
  (__apply_transform Sample.format (Some "FE0") [0; 1] [1; 0] Sample.self0).1
  = Ok (format_multiply Sample.format
          (jinv_factors Sample.format NoRestriction [1; 0] [0; 1] ++ ["FE0"]))
  /\ (__apply_transform Sample.format None [0; 1] [1; 0] Sample.self0).1
     = Ok (format_multiply Sample.format
             (jinv_factors Sample.format NoRestriction [1; 0] [0; 1]))
  /\ trans_set (__apply_transform Sample.format (Some "FE0") [0; 1] [1; 0] Sample.self0).2
     = trans_set Sample.self0
       ∪ list_to_set (jinv_factors Sample.format NoRestriction [1; 0] [0; 1]).
Proof.
  split_and!.
  - destruct (apply_transform_factors Sample.format (Some "FE0") [0; 1] [1; 0]
                Sample.self0 eq_refl) as (_ & _ & _ & _ & Hpresent & _).
    apply (Hpresent "FE0"); [reflexivity|discriminate].
  - destruct (apply_transform_factors Sample.format None [0; 1] [1; 0]
                Sample.self0 eq_refl) as (_ & _ & _ & Habsent & _).
    by apply Habsent.
  - destruct (apply_transform_factors Sample.format (Some "FE0") [0; 1] [1; 0]
                Sample.self0 eq_refl) as (_ & _ & Hset & _).
    exact Hset.
Defined.

Lemma sample_visit_monotone (e : Expr) : monotone (Sample.visit e).
Proof.
  destruct e as [n|x|c|name]; csimpl.
  - apply monotone_ret.
  - apply monotone_ret.
  - destruct (bool_decide (c = 1)); apply monotone_ret.
  - apply monotone_facet_normal.
Qed.

Lemma trans_set_monotone_witness :
  trans_set (after_calls Sample.format Sample.mapping_basis Sample.function_name
               Sample.error_with_argument Sample.visit
               [CallFacetNormal [];
                CallCreateArgument tt [0] 0 0 0 tt COVARIANT_PIOLA [[0]; [1]]]
               Sample.self0)
  ⊆ trans_set (after_calls Sample.format Sample.mapping_basis Sample.function_name
                 Sample.error_with_argument Sample.visit
                 ([CallFacetNormal [];
                   CallCreateArgument tt [0] 0 0 0 tt COVARIANT_PIOLA [[0]; [1]]]
                  ++ [CallPower (Coefficient 0) (Operator "FacetNormal");
                      CallCreateFunction tt [1] 0 0 0 tt tt CONTRAVARIANT_PIOLA [[0]];
                      CallSum []])
                 Sample.self0).
Proof.
  destruct (trans_set_monotone Sample.format Sample.mapping_basis Sample.function_name
              Sample.error_with_argument Sample.visit sample_visit_monotone)
    as (_ & Hsequence & _).
  apply Hsequence.
Defined.
Lemma product_fold_witness :
  product Sample.format (permutations_under Sample.reverse_order)
    [[([], Some "A")]; [([], Some "1")]; [([], Some "B")]]
  = Ok [([], Some (format_multiply Sample.format ["A"; "B"]))]
  /\ product Sample.format (permutations_under Sample.reverse_order)
       [[([], Some "A")]; [([], None)]]
     = Ok [([], None)]
  /\ product Sample.format (permutations_under Sample.reverse_order)
       [[([], Some "1")]; [([], Some "1")]]
     = Ok [([], Some "1")]
  /\ product Sample.format (permutations_under Sample.reverse_order)
       [[([], Some "A")]; [([], Some "")]]
     = Raise (FFCError "should not happen")
  /\ (exists code,
        product Sample.format (permutations_under Sample.reverse_order)
          [[([1; 0], Some "x"); ([2; 0], None)]; [([], Some "1")]; [([], Some "c")]]
        = Ok code
        /\ Dict.get code [0; 1] = Some (Some (format_multiply Sample.format ["x"; "c"]))
        /\ Dict.get code [0; 2] = Some None)
  /\ product Sample.format (permutations_under Sample.reverse_order)
       [[([1; 0], None); ([0; 1], Some "x")]; [([], Some "c")]]
     = Raise (FFCError "This key should not be in the code.")
  /\ (exists code,
        product Sample.format (permutations_under Sample.insertion_order)
          [[([1; 0], None); ([0; 1], Some "x")]; [([], Some "c")]]
        = Ok code
        /\ Dict.get code [0; 1] = Some (Some (format_multiply Sample.format ["x"; "c"]))).
Proof.
  assert (Hx : folds Sample.format [Some "x"; Some "1"; Some "c"]
                 (Ok (Some (format_multiply Sample.format ["x"; "c"])))).
  { apply (folds_multiply Sample.format ["x"; "1"; "c"]).
    - repeat constructor; discriminate.
    - discriminate. }
  assert (Hxc : folds Sample.format [Some "x"; Some "c"]
                  (Ok (Some (format_multiply Sample.format ["x"; "c"])))).
  { apply (folds_multiply Sample.format ["x"; "c"]).
    - repeat constructor; discriminate.
    - discriminate. }
  split_and!.
  - destruct (product_fold Sample.format (permutations_under Sample.reverse_order)
                [[([], Some "A")]; [([], Some "1")]; [([], Some "B")]])
      as (_ & Hscalar & _).
    destruct (Hscalar eq_refl) as (Hfold & _). apply Hfold.
    apply (folds_multiply Sample.format ["A"; "1"; "B"]).
    + repeat constructor; discriminate.
    + discriminate.
  - destruct (product_fold Sample.format (permutations_under Sample.reverse_order)
                [[([], Some "A")]; [([], None)]]) as (_ & Hscalar & _).
    destruct (Hscalar eq_refl) as (Hfold & _). apply Hfold.
    apply (folds_zero Sample.format ["A"] []). repeat constructor; discriminate.
  - destruct (product_fold Sample.format (permutations_under Sample.reverse_order)
                [[([], Some "1")]; [([], Some "1")]])
      as (_ & Hscalar & _ & _ & Hliteral).
    destruct (Hscalar eq_refl) as (Hfold & _). apply Hfold.
    apply (Hliteral eq_refl ["1"; "1"]).
    + repeat constructor; discriminate.
    + reflexivity.
  - destruct (product_fold Sample.format (permutations_under Sample.reverse_order)
                [[([], Some "A")]; [([], Some "")]]) as (_ & Hscalar & _).
    destruct (Hscalar eq_refl) as (_ & Hraise). apply Hraise.
    apply (folds_malformed Sample.format ["A"] []). repeat constructor; discriminate.
  - destruct (product_fold Sample.format (permutations_under Sample.reverse_order)
                [[([1; 0], Some "x"); ([2; 0], None)]; [([], Some "1")]; [([], Some "c")]])
      as (_ & _ & _ & Htensor & _).
    destruct Htensor as (_ & Hentries).
    { discriminate. }
    { apply (bool_decide_unpack _). vm_compute. exact I. }
    assert (Hzero : folds Sample.format [None; Some "1"; Some "c"] (Ok None)).
    { apply (folds_zero Sample.format [] [Some "1"; Some "c"]). constructor. }
    destruct Hentries as (code & Hrun & _ & Hget).
    { intros kv Hkv. apply elem_of_cons in Hkv as [->|Hkv]; [by eexists|].
      apply list_elem_of_singleton in Hkv as ->. by eexists. }
    exists code. split; [exact Hrun|]. split.
    + apply (Hget ([1; 0], [Some "x"])); [|exact Hx].
      apply elem_of_cons. right. apply elem_of_cons. by left.
    + apply (Hget ([2; 0], [None])); [|exact Hzero].
      apply elem_of_cons. by left.
  - destruct (product_fold Sample.format (permutations_under Sample.reverse_order)
                [[([1; 0], None); ([0; 1], Some "x")]; [([], Some "c")]])
      as (_ & _ & Htensor & _).
    destruct Htensor as (_ & _ & Hfails); [discriminate|].
    destruct (Hfails [([0; 1], [Some "x"])] ([1; 0], [None]) [] eq_refl) as (_ & Hassert).
    { intros pre kv post Hsplit.
      destruct pre as [|kv0 [|kv1 pre]]; simplify_eq/=.
      exists (Some (format_multiply Sample.format ["x"; "c"])). by split. }
    apply Hassert.
    + apply (folds_zero Sample.format [] [Some "c"]). constructor.
    + apply (bool_decide_unpack _). vm_compute. exact I.
  - destruct (product_fold Sample.format (permutations_under Sample.insertion_order)
                [[([1; 0], None); ([0; 1], Some "x")]; [([], Some "c")]])
      as (_ & _ & Htensor & _).
    destruct Htensor as (Hreturns & Hentries & _); [discriminate|].
    destruct (proj2 Hreturns) as [code Hrun].
    { intros pre kv post Hsplit.
      change (permutations_under _ _)
        with [([1; 0], [@None string]); ([0; 1], [Some "x"])] in Hsplit.
      destruct pre as [|kv0 [|kv1 [|kv2 pre]]]; simplify_eq/=.
      - exists None. split; [|intros _; apply not_elem_of_nil].
        apply (folds_zero Sample.format [] [Some "c"]). constructor.
      - exists (Some (format_multiply Sample.format ["x"; "c"])). by split. }
    exists code. split; [exact Hrun|].
    destruct (Hentries code Hrun) as (_ & Hlast).
    destruct (Hlast [([1; 0], [None])] ([0; 1], [Some "x"]) [] eq_refl) as (t & Ht & Hget).
    { apply not_elem_of_nil. }
    change (sort_key ([0; 1], [Some "x"]).1) with [0; 1] in Hget.
    rewrite Hget. apply folds_iff in Ht.
    assert (Heq : Ok t = Ok (Some (format_multiply Sample.format ["x"; "c"])))
      by (rewrite <- Ht; vm_compute; reflexivity).
    by injection Heq as ->.
Defined.

Lemma enumerated_cases {K V : Type} (items : list (K * V) -> list (K * V))
    (d : list (K * V)) (P : list (K * V) -> Prop) :
  enumerates items -> Forall P (permutations d) -> P (items d).
Proof.
  intros Hitems HP. eapply Forall_forall; [exact HP|].
  apply permutations_Permutation. symmetry. apply Hitems.
Qed.

(** A property of a product under every interpreter, for given operands:
    the permutations are computed, and the property is checked for each
    order in which they can be enumerated. *)
Ltac every_enumeration items Hitems :=
  rewrite product_run; unfold permutations_under;
  match goal with
  | |- context [items ?d] =>
      let d' := eval vm_compute in d in change d with d'
  end;
  match goal with
  | |- context [items ?d] => pattern (items d); apply (enumerated_cases items d _ Hitems)
  end;
  match goal with
  | |- Forall _ (permutations ?d) =>
      let l := eval vm_compute in (permutations d) in change (permutations d) with l
  end;
  repeat apply Forall_cons_2; [..|apply Forall_nil_2]; cbv beta.

(** A [None] among the multiplicands of an output key does not make its
    entry [None] where another permutation has the same sorted key.  Of the
    keys [(1, 0)] with the token [x] and [(0, 1)] with [None], both sorted
    to [(0, 1)], the one enumerated last decides: the product fails on the
    key when it is the [None], and holds [x] at [(0, 1)] when it is the
    token; in no order of enumeration is the entry [None].  The same for
    the product of the vectors [(None, a)] and [(b, c)], where [None*c] and
    [a*b] meet at [(0, 1)]. *)
Lemma product_zero_not_kept :
  (forall items, enumerates items ->
     let run :=
       product Sample.format (permutations_under items)
         [[([1; 0], Some "x"); ([0; 1], None)]] in
     run = Raise (FFCError "This key should not be in the code.")
     \/ run = Ok [([0; 1], Some "x")])
  /\ (forall items, enumerates items ->
        let run :=
          product Sample.format (permutations_under items)
            [[([0], None); ([1], Some "a")]; [([0], Some "b"); ([1], Some "c")]] in
        run = Raise (FFCError "This key should not be in the code.")
        \/ exists code, run = Ok code /\ Dict.get code [0; 1] = Some (Some "a*b"))
  /\ product Sample.format (permutations_under Sample.insertion_order)
       [[([1; 0], Some "x"); ([0; 1], None)]]
     = Raise (FFCError "This key should not be in the code.")
  /\ product Sample.format (permutations_under Sample.reverse_order)
       [[([1; 0], Some "x"); ([0; 1], None)]]
     = Ok [([0; 1], Some "x")].
Proof.
  split_and!.
  - intros items Hitems. cbv zeta.
    every_enumeration items Hitems; vm_compute; auto.
  - intros items Hitems. cbv zeta.
    every_enumeration items Hitems; vm_compute;
      first [by left | right; eexists; split; reflexivity].
  - vm_compute. reflexivity.
  - vm_compute. reflexivity.
Qed.

(** The values of two permutation keys with the same sorted key are not
    merged, and the product does not fail: of the tokens [a0*b1] and
    [a1*b0] of the keys [(0, 1)] and [(1, 0)] the product of two vectors
    keeps one, the one enumerated last, and the other leaves no trace; so
    for a map with the keys [(1, 0)] and [(0, 1)]. *)
Lemma product_collision_not_merged :
  (forall items, enumerates items ->
     exists code,
       product Sample.format (permutations_under items)
         [[([0], Some "a0"); ([1], Some "a1")]; [([0], Some "b0"); ([1], Some "b1")]]
       = Ok code
       /\ Dict.keys code ≡ₚ [[0; 0]; [0; 1]; [1; 1]]
       /\ (Dict.get code [0; 1] = Some (Some "a0*b1")
           \/ Dict.get code [0; 1] = Some (Some "a1*b0")))
  /\ (forall items, enumerates items ->
        let run :=
          product Sample.format (permutations_under items)
            [[([1; 0], Some "x"); ([0; 1], Some "y")]] in
        run = Ok [([0; 1], Some "x")] \/ run = Ok [([0; 1], Some "y")])
  /\ product Sample.format (permutations_under Sample.insertion_order)
       [[([0], Some "a0"); ([1], Some "a1")]; [([0], Some "b0"); ([1], Some "b1")]]
     = Ok [([0; 0], Some "a0*b0"); ([0; 1], Some "a1*b0"); ([1; 1], Some "a1*b1")]
  /\ product Sample.format (permutations_under Sample.reverse_order)
       [[([0], Some "a0"); ([1], Some "a1")]; [([0], Some "b0"); ([1], Some "b1")]]
     = Ok [([1; 1], Some "a1*b1"); ([0; 1], Some "a0*b1"); ([0; 0], Some "a0*b0")].
Proof.
  split_and!.
  - intros items Hitems.
    every_enumeration items Hitems; vm_compute;
      eexists; (split; [reflexivity|]); (split; [|auto]).
    all: apply (bool_decide_unpack _); vm_compute; exact I.
  - intros items Hitems. cbv zeta.
    every_enumeration items Hitems; vm_compute; auto.
  - vm_compute. reflexivity.
  - vm_compute. reflexivity.
Qed.

Lemma product_key_canonical_witness :
  sort_key [1; 0] = sort_key [0; 1]
  /\ Dict.wf [([1; 1], Some "a1*b1"); ([0; 1], Some "a0*b1"); ([0; 0], Some "a0*b0")]
  /\ (exists pre kv post,
        permutations_under Sample.reverse_order
          [[([0], Some "a0"); ([1], Some "a1")]; [([0], Some "b0"); ([1], Some "b1")]]
        = pre ++ kv :: post
        /\ sort_key kv.1 = [0; 1]
        /\ ([0; 1] ∉ (sort_key <$> Dict.keys post))
        /\ folds Sample.format kv.2 (Ok (Some "a0*b1")))
  /\ product Sample.format (permutations_under Sample.reverse_order)
       [[([1; 0], None); ([0; 1], Some "x")]]
     = Raise (FFCError "This key should not be in the code.")
  /\ product Sample.format (permutations_under Sample.insertion_order)
       [[([1; 0], None); ([0; 1], None)]]
     = Raise (FFCError "This key should not be in the code.")
  /\ product Sample.format (permutations_under Sample.reverse_order)
       [[([1; 0], None); ([0; 1], None)]]
     = Raise (FFCError "This key should not be in the code.").
Proof.
  assert (Hrun :
    product Sample.format (permutations_under Sample.reverse_order)
      [[([0], Some "a0"); ([1], Some "a1")]; [([0], Some "b0"); ([1], Some "b1")]]
    = Ok [([1; 1], Some "a1*b1"); ([0; 1], Some "a0*b1"); ([0; 0], Some "a0*b0")])
    by (vm_compute; reflexivity).
  assert (Hzero : folds Sample.format [None] (Ok None)).
  { apply (folds_zero Sample.format [] []). constructor. }
  split_and!.
  - destruct (product_key_canonical Sample.format (permutations_under Sample.reverse_order)
                [[([1; 0], None); ([0; 1], Some "x")]]) as (_ & Hperm & _).
    { discriminate. }
    apply Hperm. apply perm_swap.
  - destruct (product_key_canonical Sample.format (permutations_under Sample.reverse_order)
                [[([0], Some "a0"); ([1], Some "a1")]; [([0], Some "b0"); ([1], Some "b1")]])
      as (_ & _ & Hcode & _).
    { discriminate. }
    by destruct (Hcode _ Hrun) as (Hwf & _).
  - destruct (product_key_canonical Sample.format (permutations_under Sample.reverse_order)
                [[([0], Some "a0"); ([1], Some "a1")]; [([0], Some "b0"); ([1], Some "b1")]])
      as (_ & _ & Hcode & _).
    { discriminate. }
    destruct (Hcode _ Hrun) as (_ & _ & Hentry).
    destruct (Hentry [0; 1] (Some "a0*b1") eq_refl)
      as (pre & kv & post & Hsplit & Hkey & Hlast & Hfold & _).
    exists pre, kv, post. split_and!; [exact Hsplit|exact Hkey|exact Hlast|].
    by rewrite app_nil_r in Hfold.
  - destruct (product_key_canonical Sample.format (permutations_under Sample.reverse_order)
                [[([1; 0], None); ([0; 1], Some "x")]]) as (_ & _ & _ & Hcollision).
    { discriminate. }
    apply (Hcollision [([0; 1], [Some "x"])] ([1; 0], [None]) []).
    + reflexivity.
    + intros kv Hkv. apply list_elem_of_singleton in Hkv as ->.
      eexists. apply (folds_multiply Sample.format ["x"]).
      * repeat constructor; discriminate.
      * discriminate.
    + apply (bool_decide_unpack _). vm_compute. exact I.
    + exact Hzero.
  - destruct (product_key_canonical Sample.format
                (permutations_under Sample.insertion_order)
                [[([1; 0], None); ([0; 1], None)]]) as (_ & _ & _ & Hcollision).
    { discriminate. }
    apply (Hcollision [([1; 0], [None])] ([0; 1], [None]) []).
    + reflexivity.
    + intros kv Hkv. apply list_elem_of_singleton in Hkv as ->. by eexists.
    + apply (bool_decide_unpack _). vm_compute. exact I.
    + exact Hzero.
  - destruct (product_key_canonical Sample.format (permutations_under Sample.reverse_order)
                [[([1; 0], None); ([0; 1], None)]]) as (_ & _ & _ & Hcollision).
    { discriminate. }
    apply (Hcollision [([0; 1], [None])] ([1; 0], [None]) []).
    + reflexivity.
    + intros kv Hkv. apply list_elem_of_singleton in Hkv as ->. by eexists.
    + apply (bool_decide_unpack _). vm_compute. exact I.
    + exact Hzero.
Defined.
End runs.

(** * Further properties *)

(** ** [sum]: it returns, and [None] is neutral *)

Lemma elem_of_concat {A : Type} (x : A) (ls : list (list A)) :
  x ∈ concat ls <-> exists l, x ∈ l /\ l ∈ ls.
Proof.
  induction ls as [|l ls IH]; csimpl.
  - split; [intros H; by apply elem_of_nil in H|].
    intros (l & _ & Hl). by apply elem_of_nil in Hl.
  - rewrite elem_of_app, IH. split.
    + intros [Hx|(l' & Hx & Hl')].
      * exists l. split; [done|]. apply elem_of_cons. by left.
      * exists l'. split; [done|]. apply elem_of_cons. by right.
    + intros (l' & Hx & Hl'). apply elem_of_cons in Hl' as [->|Hl']; [by left|].
      right. by exists l'.
Qed.

Section sum_more.
Context (format : Format).
Context (duplications_items : list (string * Z) -> list (string * Z)).
Import QuadratureTransformer.

Lemma sum_collect_item_wf (code : list (list Z * list (option string)))
    (its : code_map) :
  Dict.wf code -> Dict.wf (foldl sum_collect_item code its).
Proof.
  revert code. induction its as [|[k v] its IH]; intros code Hwf; csimpl; [done|].
  apply IH. destruct (Dict.get code k); by apply wf_set.
Qed.

Lemma sum_collect_wf (operands : list code_map) : Dict.wf (sum_collect operands).
Proof.
  unfold sum_collect. rewrite sum_collect_concat.
  apply sum_collect_item_wf. apply NoDup_nil_2.
Qed.

Lemma sum_entries_keys (d : list (list Z * list (option string))) (code : code_map) :
  mapM (fun kv : list Z * list (option string) =>
          v ← sum_entry format duplications_items kv.2; Ok (kv.1, v)) d = Ok code ->
  Dict.keys code = Dict.keys d.
Proof.
  revert code. induction d as [|[k val] d IH]; intros code.
  - by intros [= <-].
  - match goal with
    | |- mapM ?f (?x :: ?l) = _ -> _ =>
        change (mapM f (x :: l)) with (y ← f x; r ← mapM f l; mret (y :: r))
    end.
    csimpl. destruct (sum_entry format duplications_items val) as [t|e]; csimpl; [|done].
    destruct (mapM _ d) as [code'|e] eqn:Hd; csimpl; [|done].
    intros [= <-]. unfold Dict.keys in *. csimpl. f_equal. by apply IH.
Qed.

(** X1.  Under an interpreter that gives each count once, in whatever
    order, [sum] returns for every list of operands, so the check after the
    duplicate reduction never fails; the result has each key of an operand
    once, and no other key. *)
Theorem sum_returns (operands : list code_map) :
  enumerates duplications_items ->
  exists code, sum format duplications_items operands = Ok code
    /\ Dict.wf code
    /\ forall k, k ∈ Dict.keys code <-> exists op, op ∈ operands /\ k ∈ Dict.keys op.
Proof.
  intros Hitems.
  destruct (sum_at_key format duplications_items operands Hitems)
    as (code & Hrun & Hkeys).
  exists code. split; [done|].
  pose proof (sum_entries_keys _ _ Hrun) as Hk. unfold Dict.items in Hk.
  split.
  - unfold Dict.wf. rewrite Hk. apply sum_collect_wf.
  - intros k. rewrite Hk. split.
    + intros Hin. destruct (Dict.get (sum_collect operands) k) as [vals|] eqn:Hg.
      2:{ by apply get_None in Hg. }
      rewrite sum_collect_get in Hg. unfold contributions in Hg.
      destruct (filter _ (concat operands)) as [|[k' v] f] eqn:Hf; [done|].
      assert (Hkv : (k', v) ∈ filter (fun kv : list Z * option string => kv.1 = k)
                                  (concat operands))
        by (rewrite Hf; apply elem_of_cons; by left).
      apply list_elem_of_filter in Hkv as [Hk' Hkv]. csimpl in Hk'. subst k'.
      apply elem_of_concat in Hkv as (op & Hkv & Hop).
      exists op. split; [done|]. unfold Dict.keys.
      apply list_elem_of_fmap. by exists (k, v).
    + intros (op & Hop & Hin).
      destruct (decide (k ∈ Dict.keys (sum_collect operands))) as [|Hnin]; [done|].
      apply get_None in Hnin. rewrite sum_collect_get in Hnin.
      unfold Dict.keys in Hin. apply list_elem_of_fmap in Hin as ([k' v] & -> & Hkv).
      assert (Hc : v ∈ contributions k' operands).
      { unfold contributions. apply list_elem_of_fmap. exists (k', v). split; [done|].
        apply list_elem_of_filter. split; [done|].
        apply elem_of_concat. by exists op. }
      csimpl in Hnin. destruct (contributions k' operands); [|done].
      by apply elem_of_nil in Hc.
Qed.

Lemma sum_entry_nonzero (val val' : list (option string)) :
  omap id val = omap id val' -> sum_entry format duplications_items val = sum_entry format duplications_items val'.
Proof. unfold sum_entry. by intros ->. Qed.

Lemma sum_entries_nonzero (d d' : list (list Z * list (option string))) :
  Forall2 (fun x y => x.1 = y.1 /\ omap id x.2 = omap id y.2) d d' ->
  mapM (fun kv : list Z * list (option string) =>
          v ← sum_entry format duplications_items kv.2; Ok (kv.1, v)) d
  = mapM (fun kv : list Z * list (option string) =>
            v ← sum_entry format duplications_items kv.2; Ok (kv.1, v)) d'.
Proof.
  induction 1 as [|[k val] [k' val'] d d' [Hk Hv] _ IH]; [done|].
  simpl in Hk, Hv. subst k'.
  match goal with
  | |- mapM ?f (?x :: ?l) = mapM ?f (?x' :: ?l') =>
      change (mapM f (x :: l)) with (y ← f x; r ← mapM f l; mret (y :: r));
      change (mapM f (x' :: l')) with (y ← f x'; r ← mapM f l'; mret (y :: r))
  end.
  rewrite IH. cbn [fst snd]. by rewrite (sum_entry_nonzero _ _ Hv).
Qed.

Lemma set_append_None (code : list (list Z * list (option string))) (k : list Z)
    (vals : list (option string)) :
  Dict.get code k = Some vals ->
  Forall2 (fun x y => x.1 = y.1 /\ omap id x.2 = omap id y.2)
          code (Dict.set code k (vals ++ [None])).
Proof.
  induction code as [|[k' v'] code IH]; csimpl; [done|].
  destruct (decide (k = k')) as [->|Hne].
  - intros [= ->]. constructor.
    + csimpl. split; [done|]. rewrite omap_app. csimpl. by rewrite app_nil_r.
    + apply Forall2_same_length_lookup_2; [done|]. intros i x y Hx Hy.
      rewrite Hx in Hy. by injection Hy as <-.
  - intros Hg. constructor; [done|]. by apply IH.
Qed.

Lemma sum_collect_None (code : list (list Z * list (option string))) (z : code_map) :
  (forall kv, kv ∈ z -> kv.2 = None /\ kv.1 ∈ Dict.keys code) ->
  Forall2 (fun x y => x.1 = y.1 /\ omap id x.2 = omap id y.2)
          code (foldl sum_collect_item code z).
Proof.
  revert code. induction z as [|[k v] z IH]; intros code Hz; csimpl.
  - apply Forall2_same_length_lookup_2; [done|]. intros i x y Hx Hy.
    rewrite Hx in Hy. by injection Hy as <-.
  - destruct (Hz (k, v)) as [Hv Hk]; [apply elem_of_cons; by left|].
    simpl in Hv, Hk. subst v.
    destruct (Dict.get code k) as [vals|] eqn:Hg.
    2:{ by apply get_None in Hg. }
    pose proof (set_append_None _ _ _ Hg) as Hstep.
    eapply Forall2_trans; [|exact Hstep|apply IH].
    + intros x y w [-> ->] [-> ->]. done.
    + intros kv Hkv. destruct (Hz kv) as [? Hin]; [apply elem_of_cons; by right|].
      split; [done|]. rewrite keys_set_present; [done|].
      destruct (decide (k ∈ Dict.keys code)) as [|Hn]; [done|].
      apply get_None in Hn. congruence.
Qed.

(** X2.  An operand that holds [None] at keys that other operands have is
    neutral for a sum: with it at the end, [sum] returns the same map. *)
Theorem sum_zero_neutral (operands : list code_map) (z : code_map) :
  (forall kv, kv ∈ z -> kv.2 = None /\ exists op, op ∈ operands /\ kv.1 ∈ Dict.keys op) ->
  sum format duplications_items (operands ++ [z]) = sum format duplications_items operands.
Proof.
  intros Hz. unfold sum, sum_collect, Dict.items. rewrite foldl_app. csimpl.
  symmetry. apply sum_entries_nonzero. apply sum_collect_None.
  intros kv Hkv. destruct (Hz kv Hkv) as (Hnone & op & Hop & Hin). split; [done|].
  fold (sum_collect operands).
  destruct (decide (kv.1 ∈ Dict.keys (sum_collect operands))) as [|Hnin]; [done|].
  apply get_None in Hnin. rewrite sum_collect_get in Hnin.
  unfold Dict.keys in Hin. apply list_elem_of_fmap in Hin as ([k' v] & Hk & Hkv').
  csimpl in Hk.
  assert (Hc : v ∈ contributions kv.1 operands).
  { unfold contributions. apply list_elem_of_fmap. exists (k', v). split; [done|].
    apply list_elem_of_filter. split; [done|].
    apply elem_of_concat. by exists op. }
  destruct (contributions kv.1 operands); [|done]. by apply elem_of_nil in Hc.
Qed.
End sum_more.

(** ** [product]: operands that change nothing *)

Section product_more.
Context (format : Format).
Context (permutations_of : list code_map -> list (list Z * list (option string))).
Import QuadratureTransformer.

Lemma tensor_operands_app (l1 l2 : list code_map) :
  tensor_operands (l1 ++ l2) = tensor_operands l1 ++ tensor_operands l2.
Proof. unfold tensor_operands. apply filter_app. Qed.

Lemma scalar_tokens_app (l1 l2 : list code_map) :
  scalar_tokens (l1 ++ l2) = scalar_tokens l1 ++ scalar_tokens l2.
Proof. unfold scalar_tokens. apply omap_app. Qed.

(** X3.  An empty code map among the operands of a product is passed over:
    the product is the one of the other operands. *)
Theorem product_ignores_empty (l1 l2 : list code_map) :
  product format permutations_of (l1 ++ [] :: l2)
  = product format permutations_of (l1 ++ l2).
Proof.
  rewrite !(product_run format permutations_of).
  rewrite !tensor_operands_app, !scalar_tokens_app.
  rewrite (tensor_operands_cons [] l2), (scalar_tokens_cons [] l2). done.
Qed.

Lemma multiplicands_skip_identity (a b : list (option string)) (value : list string) :
  product_multiplicands (a ++ Some "1" :: b) value
  = product_multiplicands (a ++ b) value.
Proof.
  revert value. induction a as [|[s|] a IH]; intros value; csimpl; [done| |done].
  destruct (bool_decide (s = "")); [done|].
  destruct (bool_decide (s = "1")); apply IH.
Qed.

Lemma product_entries_ext (np np' : list (option string)) (code : code_map)
    (its : list (list Z * list (option string))) :
  (forall vs, product_token format (vs ++ np) = product_token format (vs ++ np')) ->
  product_entries format np code its = product_entries format np' code its.
Proof.
  intros Hext. revert code. induction its as [|kv its IH]; intros code; [done|].
  rewrite !product_entries_cons, !product_entry_cases, Hext.
  destruct (product_token format (kv.2 ++ np')) as [[t|]|e]; csimpl; try done.
  destruct (Dict.contains code (sort_key kv.1)); [done|]. apply IH.
Qed.

(** X4.  A rank-0 operand with the token ["1"] changes nothing in a
    product, wherever it stands among the operands: every entry, and every
    failure, is the one of the product without it. *)
Theorem product_identity_operand (l1 l2 : list code_map) :
  product format permutations_of (l1 ++ [([], Some "1")] :: l2)
  = product format permutations_of (l1 ++ l2).
Proof.
  rewrite !(product_run format permutations_of).
  rewrite !tensor_operands_app, !scalar_tokens_app.
  rewrite (tensor_operands_cons [([], Some "1")] l2),
    (scalar_tokens_cons [([], Some "1")] l2).
  change (tensor_operands [[([], Some "1")]]) with (@nil code_map).
  change (scalar_tokens [[([], Some "1")]]) with [Some "1"].
  rewrite app_nil_l. cbn [app].
  assert (Hext : forall vs,
    product_token format (vs ++ scalar_tokens l1 ++ Some "1" :: scalar_tokens l2)
    = product_token format (vs ++ scalar_tokens l1 ++ scalar_tokens l2)).
  { intros vs. unfold product_token.
    by rewrite !app_assoc, multiplicands_skip_identity. }
  destruct (negb (bool_decide (permutations_of (tensor_operands l1 ++ tensor_operands l2) = []))).
  - by apply product_entries_ext.
  - pose proof (Hext []) as Hscalar. rewrite !app_nil_l in Hscalar.
    by rewrite Hscalar.
Qed.

Lemma tensor_operands_symbols (ss : list string) :
  tensor_operands (_create_symbol <$> ss) = [].
Proof.
  induction ss as [|s ss IH]; [done|].
  rewrite fmap_cons, tensor_operands_cons, IH. done.
Qed.

Lemma scalar_tokens_symbols (ss : list string) :
  scalar_tokens (_create_symbol <$> ss) = Some <$> ss.
Proof.
  induction ss as [|s ss IH]; [done|].
  rewrite fmap_cons, scalar_tokens_cons, IH. done.
Qed.

(** X5.  Where the permutation generator gives nothing for no map, the
    product of symbols, none of them empty, is the symbol of
    [_create_product] of those that are not ["1"], or of ["1"] alone when no
    other is left. *)
Theorem product_of_symbols (ss : list string) :
  permutations_of [] = [] ->
  Forall (fun s => s ≠ "") ss ->
  product format permutations_of (_create_symbol <$> ss)
  = Ok (_create_symbol (_create_product format (product_value (non_identity ss)))).
Proof.
  intros Hnil Hss. rewrite product_run.
  rewrite tensor_operands_symbols, scalar_tokens_symbols, Hnil. csimpl.
  unfold product_token. by rewrite multiplicands_all.
Qed.
End product_more.

(** ** [abs] and [_math_function] *)

Section functions_more.
Context (format : Format).
Import QuadratureTransformer.

Lemma one_rank0_check (operands : list code_map) :
  (forall v, operands ≠ [[([], v)]]) ->
  match operands with
  | [op] => Dict.contains op [] && bool_decide (length op = 1%nat)
  | _ => false
  end = false.
Proof.
  intros Hne. destruct operands as [|op [|op' operands]]; [done| |done].
  apply rank0_check_false. intros [v ->]. by apply (Hne v).
Qed.

(** X6.  [abs] of one rank-0 map is the rank-0 map of the formatted entry,
    also when the entry is [None], which is handed to the format function
    and not kept as zero; for any other operands [abs] fails. *)
Theorem abs_cases (operands : list code_map) :
  (forall v, operands = [[([], v)]] ->
     abs format operands = Ok [([], Some (format_absolute_value format v))])
  /\ ((forall v, operands ≠ [[([], v)]]) ->
      abs format operands
      = Raise (FFCError "Abs expects one operand of function type: ")).
Proof.
  split.
  - by intros v ->.
  - intros Hne. unfold abs. by rewrite one_rank0_check.
Qed.

(** X7.  [_math_function] of one rank-0 map returns the operand with its
    entry formatted, [None] included, and fails for any other operands; with
    the format function of the absolute value it returns exactly when [abs]
    does, and the same map. *)
Theorem math_function_cases (operands : list code_map)
    (format_function : option string -> string) :
  (forall v, operands = [[([], v)]] ->
     _math_function operands format_function = Ok [([], Some (format_function v))])
  /\ ((forall v, operands ≠ [[([], v)]]) ->
      _math_function operands format_function
      = Raise (FFCError "MathFunctions expect one operand of function type: "))
  /\ (forall code,
        abs format operands = Ok code <->
        _math_function operands (format_absolute_value format) = Ok code).
Proof.
  split_and!.
  - by intros v ->.
  - intros Hne. unfold _math_function. by rewrite one_rank0_check.
  - intros code. unfold abs, _math_function.
    destruct operands as [|op [|op' operands]]; [done| |done].
    destruct (Dict.contains op [] && bool_decide (length op = 1%nat)) eqn:Hc.
    + apply rank0_check in Hc as [v ->]. done.
    + done.
Qed.
End functions_more.

(** ** [facet_normal] and the bounds of [__apply_transform] *)

Section geometry_more.
Context (format : Format).
Import QuadratureTransformer.

Lemma record_nil (self : transformer) : record [] self = self.
Proof. unfold record. csimpl. rewrite (right_id_L ∅ (∪)). by destruct self. Qed.

Lemma record_app (ts ts' : list string) (self : transformer) :
  record ts' (record ts self) = record (ts ++ ts') self.
Proof.
  unfold record. csimpl. f_equal.
  by rewrite list_to_set_app_L, (assoc_L (∪)).
Qed.

Lemma record_add (t : string) (self : transformer) :
  add_trans t self = record [t] self.
Proof.
  unfold add_trans, record. csimpl. f_equal. by rewrite (right_id_L ∅ (∪)).
Qed.

(** X8.  [facet_normal] fails, and records nothing, when it gets operands or
    when the component is not a single index; otherwise it returns the name
    of the normal component as a rank-0 map and records it, and a second
    visit returns the same map and leaves the set as it is. *)
Theorem facet_normal_cases (operands : list code_map) (self : transformer) :
  (operands ≠ [] ->
   facet_normal format operands self
   = (Raise (FFCError "Didn't expect any operands for FacetNormal: "), self))
  /\ (operands = [] -> length (component self) ≠ 1%nat ->
      facet_normal format operands self
      = (Raise (FFCError "FacetNormal expects 1 component index: "), self))
  /\ (forall c, operands = [] -> component self = [c] ->
      let n := format_normal_component format (restriction self) c in
      facet_normal format operands self = (Ok [([], Some n)], record [n] self)
      /\ facet_normal format operands (record [n] self)
         = (Ok [([], Some n)], record [n] self)).
Proof.
  split_and!.
  - intros Hne. unfold facet_normal, mbind, M_bind, get_self, lift. csimpl.
    by rewrite bool_decide_false.
  - intros -> Hlen. unfold facet_normal, mbind, M_bind, get_self, lift. csimpl.
    by rewrite bool_decide_false.
  - intros c -> Hc n.
    assert (Hrun : forall s, component s = [c] -> restriction s = restriction self ->
              facet_normal format [] s = (Ok [([], Some n)], record [n] s)).
    { intros s Hs Hr. unfold facet_normal, mbind, M_bind, get_self, lift, trans_set_add.
      csimpl. rewrite Hs, Hr. csimpl. by rewrite record_add. }
    split; [by apply Hrun|].
    rewrite Hrun by done. f_equal. rewrite record_app. unfold record. csimpl.
    f_equal. apply set_eq. intros x. set_unfold. tauto.
Qed.

Lemma apply_transform_loop_short (multi : list Z) (derivatives : list Z) (i : nat)
    (transforms : list string) (self : transformer) :
  (length (drop i multi) < length derivatives)%nat ->
  apply_transform_loop format multi i derivatives transforms self =
  (Raise IndexError,
   record (jinv_factors format (restriction self) (drop i multi) derivatives) self).
Proof.
  revert i transforms self.
  induction derivatives as [|direction derivatives IH]; intros i transforms self Hlen.
  - simpl in Hlen. lia.
  - destruct (multi !! i) as [ref|] eqn:Hi.
    + rewrite (drop_S _ _ _ Hi) in Hlen |- *. simpl in Hlen.
      csimpl. unfold mbind, M_bind, lift, index. rewrite Hi. csimpl.
      rewrite IH by lia. csimpl. f_equal.
      rewrite record_add, record_app. done.
    + csimpl. unfold mbind, M_bind, lift, index. rewrite Hi. csimpl.
      apply lookup_ge_None in Hi. rewrite drop_ge by done.
      unfold jinv_factors. csimpl. by rewrite record_nil.
Qed.

Lemma apply_transform_run_le (function : option string)
    (derivatives multi : list Z) (self : transformer) :
  (length derivatives <= length multi)%nat ->
  __apply_transform format function derivatives multi self =
  (Ok (transformed format (restriction self) function derivatives multi),
   record (jinv_factors format (restriction self) multi derivatives) self).
Proof.
  intros Hlen. unfold __apply_transform, mbind, M_bind.
  rewrite apply_transform_loop_run by (rewrite drop_0; lia).
  by rewrite drop_0.
Qed.

Lemma jinv_factors_take (r : Restriction) (multi derivatives : list Z) :
  jinv_factors format r (take (length derivatives) multi) derivatives
  = jinv_factors format r multi derivatives.
Proof.
  unfold jinv_factors. revert multi.
  induction derivatives as [|d derivatives IH]; intros [|m multi]; csimpl; try done.
  by rewrite IH.
Qed.

(** X9.  With a multi-index shorter than the derivative list
    [__apply_transform] fails with an [IndexError], after it has recorded the
    factors of the positions the multi-index has; with a longer one it is
    the call with the multi-index cut to the length of the derivative
    list. *)
Theorem apply_transform_bounds (function : option string)
    (derivatives multi : list Z) (self : transformer) :
  ((length multi < length derivatives)%nat ->
   __apply_transform format function derivatives multi self
   = (Raise IndexError,
      record (jinv_factors format (restriction self) multi derivatives) self))
  /\ ((length derivatives <= length multi)%nat ->
      __apply_transform format function derivatives multi self
      = __apply_transform format function derivatives
          (take (length derivatives) multi) self).
Proof.
  split.
  - intros Hlen. unfold __apply_transform, mbind, M_bind.
    rewrite apply_transform_loop_short by (rewrite drop_0; lia).
    by rewrite drop_0.
  - intros Hlen. rewrite apply_transform_run_le by done.
    rewrite apply_transform_run_le by (rewrite length_take; lia).
    unfold transformed. by rewrite jinv_factors_take.
Qed.
End geometry_more.

(** ** [create_function] and [create_argument] *)

Lemma bind_run {A B : Type} (m : M A) (f : A -> M B) (self self' : transformer) (a : A) :
  m self = (Ok a, self') -> (m ≫= f) self = f a self'.
Proof. intros Hm. unfold mbind, M_bind. by rewrite Hm. Qed.

Lemma bind_raise {A B : Type} (m : M A) (f : A -> M B) (self self' : transformer)
    (e : exn) :
  m self = (Raise e, self') -> (m ≫= f) self = (Raise e, self').
Proof. intros Hm. unfold mbind, M_bind. by rewrite Hm. Qed.

Lemma bind_bind {A B C : Type} (f : A -> list B) (g : B -> list C) (l : list A) :
  (l ≫= f) ≫= g = l ≫= (fun x => f x ≫= g).
Proof.
  induction l as [|x l IH]; [done|].
  by rewrite !bind_cons, bind_app, IH.
Qed.

Lemma foldl_append {B : Type} (s ts : list B) :
  foldl (fun code t => code ++ [t]) s ts = s ++ ts.
Proof.
  revert s. induction ts as [|t ts IH]; intros s; csimpl.
  - by rewrite app_nil_r.
  - by rewrite IH, <- app_assoc.
Qed.

Lemma for_each_fold_run {A B S : Type} (body : S -> A -> M S) (step : S -> B -> S)
    (h : A -> list B) (names : A -> list string) (l : list A) (s : S)
    (self : transformer) :
  (forall s a self', a ∈ l ->
     restriction self' = restriction self -> geo_dim self' = geo_dim self ->
     body s a self' = (Ok (foldl step s (h a)), record (names a) self')) ->
  for_each body s l self = (Ok (foldl step s (l ≫= h)), record (l ≫= names) self).
Proof.
  revert s self. induction l as [|a l IH]; intros s self Hbody.
  - csimpl. by rewrite record_nil.
  - change (for_each body s (a :: l)) with (s' ← body s a; for_each body s' l).
    erewrite bind_run; [|apply Hbody; [apply elem_of_cons; by left|done|done]].
    rewrite IH.
    + by rewrite !bind_cons, foldl_app, record_app.
    + intros s' a' self' Ha' Hr Hn. apply Hbody; [apply elem_of_cons; by right|done|done].
Qed.

Lemma bind_singleton_fmap {A B : Type} (f : A -> B) (l : list A) :
  (l ≫= fun x => [f x]) = f <$> l.
Proof. induction l as [|x l IH]; [done|]. by rewrite bind_cons, fmap_cons, IH. Qed.

Section basis_more.
Context (format : Format).
Context {UflArgument UflFunction FfcElement QuadElement : Type}.
Context (_create_mapping_basis :
           Z -> list Z -> UflArgument -> FfcElement -> list Z * option string).
Context (_create_function_name :
           Z -> list Z -> QuadElement -> UflFunction -> FfcElement -> option string).
Context (error_with_argument : string -> Mapping -> exn).
Import QuadratureTransformer.

Lemma piola_run (unsupported : exn) (transformation : Mapping) (c local_comp : Z)
    (basis : string) (self : transformer) :
  transformation = COVARIANT_PIOLA \/ transformation = CONTRAVARIANT_PIOLA ->
  piola format unsupported transformation c local_comp basis self
  = (Ok (piola_token format (restriction self) transformation c local_comp basis),
     record (piola_names format (restriction self) transformation c local_comp) self).
Proof.
  intros [->| ->]; unfold piola, mbind, M_bind, get_self, trans_set_add; csimpl.
  - by rewrite record_add.
  - by rewrite !record_add, record_app.
Qed.

Lemma function_piola_run (ufl_function : UflFunction) (derivatives : list Z)
    (local_comp local_offset : Z) (ffc_element : FfcElement)
    (quad_element : QuadElement) (transformation : Mapping)
    (multiindices : list (list Z)) (self : transformer) :
  transformation = COVARIANT_PIOLA \/ transformation = CONTRAVARIANT_PIOLA ->
  Forall (fun multi => (length derivatives <= length multi)%nat) multiindices ->
  for_each (fun code multi =>
    self ← get_self;
    let deriv := derivative_counts (geo_dim self) multi in
    for_each (fun code c =>
      match _create_function_name (c + local_offset) deriv quad_element
              ufl_function ffc_element with
      | None => mret code
      | Some function_name =>
          function_name ←
               piola format
                 (error_with_argument "Transformation is not supported: "
                    transformation)
                 transformation c local_comp function_name;
          t ← __apply_transform format (Some function_name) derivatives multi;
          mret (code ++ [t])
      end) code (seqZ 0 (geo_dim self))) [] multiindices self
  = (Ok (multiindices ≫= fun multi => seqZ 0 (geo_dim self) ≫= fun c =>
           match _create_function_name (c + local_offset)
                   (derivative_counts (geo_dim self) multi)
                   quad_element ufl_function ffc_element with
           | Some name =>
               [transformed format (restriction self)
                  (Some (piola_token format (restriction self) transformation
                           c local_comp name))
                  derivatives multi]
           | None => []
           end),
     record (multiindices ≫= fun multi => seqZ 0 (geo_dim self) ≫= fun c =>
               match _create_function_name (c + local_offset)
                       (derivative_counts (geo_dim self) multi)
                       quad_element ufl_function ffc_element with
               | Some _ =>
                   piola_names format (restriction self) transformation c local_comp
                   ++ jinv_factors format (restriction self) multi derivatives
               | None => []
               end) self).
Proof.
  intros Hpiola Hlen.
  erewrite (for_each_fold_run _ (fun code t => code ++ [t])).
  { rewrite foldl_append. reflexivity. }
  intros s multi self' Hmulti Hr Hn.
  erewrite bind_run; [|reflexivity]. cbv zeta. rewrite Hn.
  erewrite (for_each_fold_run _ (fun code t => code ++ [t])).
  { rewrite !foldl_append. reflexivity. }
  intros s' c self'' Hc Hr' Hn'. cbv beta.
  destruct (_create_function_name _ _ _ _ _) as [name|].
  - erewrite bind_run; [|by apply piola_run].
    erewrite bind_run.
    2:{ apply apply_transform_run_le. by apply (proj1 (Forall_forall _ _) Hlen). }
    csimpl. rewrite record_app, Hr', Hr. reflexivity.
  - csimpl. by rewrite record_nil.
Qed.
Lemma positions_bind {B : Type} (n component local_offset : Z)
    (transformation : Mapping) (multiindices : list (list Z))
    (H : list Z * option Z * Z -> list B) :
  positions n component local_offset transformation multiindices ≫= H =
  match transformation with
  | AFFINE => multiindices ≫= fun multi => H (multi, None, component)
  | _ => multiindices ≫= fun multi => seqZ 0 n ≫= fun c =>
           H (multi, Some c, c + local_offset)
  end.
Proof.
  unfold positions. destruct transformation; rewrite bind_bind;
    apply list_bind_ext; try done; intros multi;
    try (by rewrite bind_singleton);
    rewrite bind_bind; apply list_bind_ext; try done; intros c;
    by rewrite bind_singleton.
Qed.

Lemma function_affine_run (ufl_function : UflFunction) (derivatives : list Z)
    (component : Z) (ffc_element : FfcElement) (quad_element : QuadElement)
    (multiindices : list (list Z)) (self : transformer) :
  Forall (fun multi => (length derivatives <= length multi)%nat) multiindices ->
  for_each (fun code multi =>
    self ← get_self;
    let deriv := derivative_counts (geo_dim self) multi in
    match _create_function_name component deriv quad_element
            ufl_function ffc_element with
    | None => mret code
    | Some function_name =>
        t ← __apply_transform format (Some function_name) derivatives multi;
        mret (code ++ [t])
    end) [] multiindices self
  = (Ok (multiindices ≫= fun multi =>
           match _create_function_name component
                   (derivative_counts (geo_dim self) multi)
                   quad_element ufl_function ffc_element with
           | Some name =>
               [transformed format (restriction self) (Some name) derivatives multi]
           | None => []
           end),
     record (multiindices ≫= fun multi =>
               match _create_function_name component
                       (derivative_counts (geo_dim self) multi)
                       quad_element ufl_function ffc_element with
               | Some _ => jinv_factors format (restriction self) multi derivatives
               | None => []
               end) self).
Proof.
  intros Hlen.
  erewrite (for_each_fold_run _ (fun code t => code ++ [t])).
  { rewrite foldl_append. reflexivity. }
  intros s multi self' Hmulti Hr Hn. cbv beta.
  erewrite bind_run; [|reflexivity]. cbv zeta. rewrite Hn.
  destruct (_create_function_name _ _ _ _ _) as [name|].
  - erewrite bind_run.
    2:{ apply apply_transform_run_le. by apply (proj1 (Forall_forall _ _) Hlen). }
    csimpl. rewrite Hr. reflexivity.
  - csimpl. by rewrite record_nil.
Qed.

(** X10.  For a mapping that is affine or Piola and multi-indices at least
    as long as the derivative list, [create_function] returns: it records
    the names of the factors of the positions where the function has a name,
    and gives [None] when no position has one, the term when there is one
    term, and the group of the sum of the terms otherwise.  A term is
    [multiply] of the transform factors of the multi-index and the name,
    with the factor of a Piola mapping in front of the name. *)
Theorem create_function_run (ufl_function : UflFunction) (derivatives : list Z)
    (component local_comp local_offset : Z) (ffc_element : FfcElement)
    (quad_element : QuadElement) (transformation : Mapping)
    (multiindices : list (list Z)) (self : transformer) :
  supported transformation ->
  Forall (fun multi => (length derivatives <= length multi)%nat) multiindices ->
  let terms :=
    function_terms format _create_function_name (restriction self) (geo_dim self)
      derivatives component local_comp local_offset transformation
      ufl_function ffc_element quad_element multiindices in
  create_function format _create_function_name error_with_argument
         ufl_function derivatives
    component local_comp local_offset ffc_element quad_element transformation
    multiindices self
  = (Ok match terms with
        | [] => None
        | [t] => Some t
        | _ => Some (format_grouping format (format_add format terms))
        end,
     record (function_names format _create_function_name (restriction self)
               (geo_dim self) derivatives component local_comp local_offset
               transformation ufl_function ffc_element quad_element multiindices)
            self)
  /\ (terms = [] <->
      forall p, p ∈ positions (geo_dim self) component local_offset transformation
                      multiindices ->
        _create_function_name p.2 (derivative_counts (geo_dim self) p.1.1)
          quad_element ufl_function ffc_element = None).
Proof.
  intros Hsup Hlen terms. split.
  - unfold terms, function_terms, function_names, create_function.
    rewrite !positions_bind.
    destruct transformation as [| | |name]; [| | |done].
    + erewrite bind_run; [|by apply function_affine_run].
      unfold basis_term, basis_names. cbn [fst snd app].
      by destruct (multiindices ≫= _) as [|t [|t' ts]].
    + erewrite bind_run; [|apply function_piola_run; [by left|done]].
      unfold basis_term, basis_names. cbn [fst snd].
      by destruct (multiindices ≫= _) as [|t [|t' ts]].
    + erewrite bind_run; [|apply function_piola_run; [by right|done]].
      unfold basis_term, basis_names. cbn [fst snd].
      by destruct (multiindices ≫= _) as [|t [|t' ts]].
  - unfold terms, function_terms. split.
    + intros Hnil p Hp.
      destruct (_create_function_name p.2 _ _ _ _) as [name|] eqn:Hname; [|done].
      assert (Hin : basis_term format (restriction self) derivatives local_comp
                      transformation p.1.1 p.1.2 name
                    ∈ @nil string).
      { rewrite <- Hnil. apply list_elem_of_bind. exists p. split; [|done].
        rewrite Hname. apply elem_of_cons. by left. }
      by apply elem_of_nil in Hin.
    + intros Hnone. destruct (_ ≫= _) as [|t ts] eqn:Hts; [done|].
      assert (Hin : t ∈ t :: ts) by (apply elem_of_cons; by left).
      rewrite <- Hts in Hin. apply list_elem_of_bind in Hin as (p & Hin & Hp).
      rewrite (Hnone p Hp) in Hin. by apply elem_of_nil in Hin.
Qed.
Lemma code_item_wf (code : list (list Z * list string))
    (its : list (list Z * option string)) :
  Dict.wf code -> Dict.wf (foldl code_item code its).
Proof.
  revert code. induction its as [|[k [t|]] its IH]; intros code Hwf; csimpl; [done| |].
  - apply IH. unfold code_item, code_append. csimpl.
    destruct (Dict.get code k); by apply wf_set.
  - apply IH. unfold code_item, code_touch. csimpl.
    destruct (Dict.contains code k); [done|]. by apply wf_set.
Qed.

Lemma terms_at_cons (key k : list Z) (t : option string)
    (its : list (list Z * option string)) :
  terms_at key ((k, t) :: its) =
  (if decide (k = key) then match t with Some t => [t] | None => [] end else [])
  ++ terms_at key its.
Proof.
  unfold terms_at. rewrite filter_cons. csimpl.
  destruct (decide (k = key)); [|done]. by destruct t.
Qed.

Lemma code_item_get (code : list (list Z * list string))
    (its : list (list Z * option string)) (key : list Z) :
  Dict.get (foldl code_item code its) key =
  match Dict.get code key with
  | Some ts => Some (ts ++ terms_at key its)
  | None => if decide (key ∈ its.*1) then Some (terms_at key its) else None
  end.
Proof.
  revert code. induction its as [|[k t] its IH]; intros code.
  - csimpl. destruct (Dict.get code key); [by rewrite app_nil_r|].
    done.
  - change (foldl code_item code ((k, t) :: its))
      with (foldl code_item (code_item code (k, t)) its).
    rewrite IH, terms_at_cons, fmap_cons. cbn [fst].
    destruct (decide (k = key)) as [->|Hne].
    + rewrite (decide_True (P := key ∈ key :: its.*1)) by (apply elem_of_cons; by left).
      unfold code_item, code_append, code_touch, Dict.contains. cbn [fst snd].
      destruct t as [t|]; destruct (Dict.get code key) as [ts|] eqn:Hg;
        rewrite ?get_set_eq, ?Hg; try done.
      by rewrite <- app_assoc.
    + assert (Hsame : Dict.get (code_item code (k, t)) key = Dict.get code key).
      { unfold code_item, code_append, code_touch. cbn [fst snd].
        destruct t as [t|].
        - destruct (Dict.get code k); by rewrite get_set_ne.
        - destruct (Dict.contains code k); [done|]. by rewrite get_set_ne. }
      rewrite Hsame. destruct (Dict.get code key); [done|]. cbn [app].
      destruct (decide (key ∈ its.*1)) as [Hin|Hnin].
      * rewrite decide_True; [done|]. apply elem_of_cons. by right.
      * rewrite decide_False; [done|]. rewrite elem_of_cons. by intros [?|?].
Qed.

Lemma argument_affine_run (ufl_argument : UflArgument) (derivatives : list Z)
    (component : Z) (ffc_element : FfcElement)
    (multiindices : list (list Z)) (self : transformer) :
  Forall (fun multi => (length derivatives <= length multi)%nat) multiindices ->
  for_each (fun code multi =>
    self ← get_self;
    let deriv := derivative_counts (geo_dim self) multi in
    let '(mapping, basis) :=
      _create_mapping_basis component deriv ufl_argument ffc_element in
    match basis with
    | None => mret (code_touch code mapping)
    | Some _ =>
        t ← __apply_transform format basis derivatives multi;
        mret (code_append code mapping t)
    end) [] multiindices self
  = (Ok (foldl code_item []
           (multiindices ≫= fun multi =>
              [((_create_mapping_basis component
                   (derivative_counts (geo_dim self) multi)
                   ufl_argument ffc_element).1,
                (fun b => transformed format (restriction self) (Some b)
                            derivatives multi)
                <$> (_create_mapping_basis component
                       (derivative_counts (geo_dim self) multi)
                       ufl_argument ffc_element).2)])),
     record (multiindices ≫= fun multi =>
               match (_create_mapping_basis component
                        (derivative_counts (geo_dim self) multi)
                        ufl_argument ffc_element).2 with
               | Some _ => jinv_factors format (restriction self) multi derivatives
               | None => []
               end) self).
Proof.
  intros Hlen.
  erewrite (for_each_fold_run _ code_item).
  { reflexivity. }
  intros s multi self' Hmulti Hr Hn. cbv beta.
  erewrite bind_run; [|reflexivity]. cbv zeta. rewrite Hn.
  destruct (_create_mapping_basis _ _ _ _) as [mapping [b|]].
  - erewrite bind_run.
    2:{ apply apply_transform_run_le. by apply (proj1 (Forall_forall _ _) Hlen). }
    csimpl. rewrite Hr. reflexivity.
  - csimpl. by rewrite record_nil.
Qed.

Lemma argument_piola_run (ufl_argument : UflArgument) (derivatives : list Z)
    (local_comp local_offset : Z) (ffc_element : FfcElement)
    (transformation : Mapping)
    (multiindices : list (list Z)) (self : transformer) :
  transformation = COVARIANT_PIOLA \/ transformation = CONTRAVARIANT_PIOLA ->
  Forall (fun multi => (length derivatives <= length multi)%nat) multiindices ->
  for_each (fun code multi =>
    self ← get_self;
    let deriv := derivative_counts (geo_dim self) multi in
    for_each (fun code c =>
      let '(mapping, basis) :=
        _create_mapping_basis (c + local_offset) deriv ufl_argument ffc_element in
      match basis with
      | None => mret (code_touch code mapping)
      | Some basis =>
          basis ← piola format (FFCError "Transformation is not supported: ")
                     transformation c local_comp basis;
          t ← __apply_transform format (Some basis) derivatives multi;
          mret (code_append code mapping t)
      end) code (seqZ 0 (geo_dim self))) [] multiindices self
  = (Ok (foldl code_item []
           (multiindices ≫= fun multi => seqZ 0 (geo_dim self) ≫= fun c =>
              [((_create_mapping_basis (c + local_offset)
                   (derivative_counts (geo_dim self) multi)
                   ufl_argument ffc_element).1,
                (fun b => transformed format (restriction self)
                            (Some (piola_token format (restriction self)
                                     transformation c local_comp b))
                            derivatives multi)
                <$> (_create_mapping_basis (c + local_offset)
                       (derivative_counts (geo_dim self) multi)
                       ufl_argument ffc_element).2)])),
     record (multiindices ≫= fun multi => seqZ 0 (geo_dim self) ≫= fun c =>
               match (_create_mapping_basis (c + local_offset)
                        (derivative_counts (geo_dim self) multi)
                        ufl_argument ffc_element).2 with
               | Some _ =>
                   piola_names format (restriction self) transformation c local_comp
                   ++ jinv_factors format (restriction self) multi derivatives
               | None => []
               end) self).
Proof.
  intros Hpiola Hlen.
  erewrite (for_each_fold_run _ code_item).
  { reflexivity. }
  intros s multi self' Hmulti Hr Hn. cbv beta.
  erewrite bind_run; [|reflexivity]. cbv zeta. rewrite Hn.
  erewrite (for_each_fold_run _ code_item).
  { reflexivity. }
  intros s' c self'' Hc Hr' Hn'. cbv beta.
  destruct (_create_mapping_basis _ _ _ _) as [mapping [b|]].
  - erewrite bind_run; [|by apply piola_run].
    erewrite bind_run.
    2:{ apply apply_transform_run_le. by apply (proj1 (Forall_forall _ _) Hlen). }
    csimpl. rewrite record_app, Hr', Hr. reflexivity.
  - csimpl. by rewrite record_nil.
Qed.

(** X11.  For a mapping that is affine or Piola and multi-indices at least
    as long as the derivative list, [create_argument] returns a map with the
    mapping keys of the positions it goes through, and records the names of
    the factors of the positions where the basis has a name.  At a key
    without a term the map holds [None], at a key with one term the term,
    and otherwise the group of the sum of the terms of the key, in the order
    of the positions. *)
Theorem create_argument_run (ufl_argument : UflArgument) (derivatives : list Z)
    (component local_comp local_offset : Z) (ffc_element : FfcElement)
    (transformation : Mapping) (multiindices : list (list Z))
    (self : transformer) :
  supported transformation ->
  Forall (fun multi => (length derivatives <= length multi)%nat) multiindices ->
  let items :=
    argument_items format _create_mapping_basis (restriction self) (geo_dim self)
      derivatives component local_comp local_offset transformation
      ufl_argument ffc_element multiindices in
  exists code,
    create_argument format _create_mapping_basis ufl_argument derivatives
      component local_comp local_offset ffc_element transformation
      multiindices self
    = (Ok code,
       record (argument_names format _create_mapping_basis (restriction self)
                 (geo_dim self) derivatives component local_comp local_offset
                 transformation ufl_argument ffc_element multiindices)
              self)
    /\ Dict.wf code
    /\ forall key,
         Dict.get code key =
         if decide (key ∈ items.*1)
         then Some match terms_at key items with
                   | [] => None
                   | [t] => Some t
                   | ts => Some (format_grouping format (format_add format ts))
                   end
         else None.
Proof.
  intros Hsup Hlen items.
  exists ((fun kv : list Z * list string => (kv.1, argument_entry format kv.2))
          <$> foldl code_item [] items).
  split_and!.
  - unfold items, argument_items, argument_names, create_argument.
    rewrite <- (bind_singleton_fmap _ (positions _ _ _ _ _)), !positions_bind.
    destruct transformation as [| | |name]; [| | |done].
    + erewrite bind_run; [|by apply argument_affine_run]. done.
    + erewrite bind_run; [|apply argument_piola_run; [by left|done]]. done.
    + erewrite bind_run; [|apply argument_piola_run; [by right|done]]. done.
  - unfold Dict.wf, Dict.keys. rewrite <- list_fmap_compose.
    apply (code_item_wf [] items). apply NoDup_nil_2.
  - intros key. rewrite get_fmap_values, code_item_get. csimpl.
    destruct (decide (key ∈ items.*1)); [|done]. csimpl. f_equal.
    unfold argument_entry.
    by destruct (terms_at key items) as [|t [|t' ts]].
Qed.
End basis_more.

Lemma for_each_ok_or_raise {A S : Type} (body : S -> A -> M S) (ok : A -> Prop)
    (g : S -> A -> S) (e : exn) (l : list A) (s : S) (self : transformer) :
  (forall s a, a ∈ l ->
     (ok a /\ body s a self = (Ok (g s a), self))
     \/ (~ ok a /\ body s a self = (Raise e, self))) ->
  (Forall ok l /\ for_each body s l self = (Ok (foldl g s l), self))
  \/ (Exists (fun a => ~ ok a) l /\ for_each body s l self = (Raise e, self)).
Proof.
  revert s. induction l as [|a l IH]; intros s Hbody.
  - left. by split.
  - change (for_each body s (a :: l)) with (s' ← body s a; for_each body s' l).
    destruct (Hbody s a) as [[Hok Hrun]|[Hbad Hrun]]; [apply elem_of_cons; by left| |].
    + erewrite bind_run; [|exact Hrun].
      destruct (IH (g s a)) as [[Hall Hrest]|[Hex Hrest]].
      { intros s' a' Ha'. apply Hbody. apply elem_of_cons. by right. }
      * left. split; [by constructor|done].
      * right. split; [by apply Exists_cons_tl|done].
    + right. split; [by apply Exists_cons_hd|].
      unfold mbind, M_bind. by rewrite Hrun.
Qed.

Lemma foldl_const {A S : Type} (s : S) (l : list A) :
  foldl (fun s _ => s) s l = s.
Proof. by induction l. Qed.

Lemma foldl_preserve {A S : Type} (P : S -> Prop) (g : S -> A -> S)
    (l : list A) (s : S) :
  (forall s a, P s -> P (g s a)) -> P s -> P (foldl g s l).
Proof.
  intros Hg. revert s. induction l as [|a l IH]; intros s Hs; [done|].
  csimpl. by apply IH, Hg.
Qed.

Section unsupported_more.
Context (format : Format).
Context {UflArgument UflFunction FfcElement QuadElement : Type}.
Context (_create_mapping_basis :
           Z -> list Z -> UflArgument -> FfcElement -> list Z * option string).
Context (_create_function_name :
           Z -> list Z -> QuadElement -> UflFunction -> FfcElement -> option string).
Context (error_with_argument : string -> Mapping -> exn).
Import QuadratureTransformer.

Lemma code_touch_empty (code : list (list Z * list string)) (k : list Z) :
  Forall (fun kv : list Z * list string => kv.2 = []) code ->
  Forall (fun kv : list Z * list string => kv.2 = []) (code_touch code k).
Proof.
  intros Hall. unfold code_touch. destruct (Dict.contains code k); [done|].
  induction Hall as [|[k' v'] code Hv Htail IH]; csimpl.
  - by repeat constructor.
  - destruct (decide (k = k')); constructor; done.
Qed.

Lemma argument_entries_None (code : list (list Z * list string)) (key : list Z)
    (t : string) :
  Forall (fun kv : list Z * list string => kv.2 = []) code ->
  Dict.get ((fun kv : list Z * list string => (kv.1, argument_entry format kv.2))
            <$> code) key ≠ Some (Some t).
Proof.
  intros Hall. rewrite get_fmap_values.
  destruct (Dict.get code key) as [ts|] eqn:Hg; [|done].
  apply get_Some_elem in Hg. rewrite Forall_forall in Hall.
  specialize (Hall _ Hg). simpl in Hall. by subst ts.
Qed.

(** X12.  With a mapping that is neither affine nor Piola,
    [create_function] and [create_argument] record nothing.  They fail
    exactly when a name is found at some multi-index and direction:
    [create_argument] with "Transformation is not supported", and
    [create_function] with what [error] raises for the message and the
    mapping as two arguments.  When no name is found, [create_function]
    returns [None] and [create_argument] a map without a term. *)
Theorem unsupported_mapping (name : string)
    (ufl_argument : UflArgument) (ufl_function : UflFunction)
    (derivatives : list Z) (component local_comp local_offset : Z)
    (ffc_element : FfcElement) (quad_element : QuadElement)
    (multiindices : list (list Z)) (self : transformer) :
  let found_function :=
    exists multi c, multi ∈ multiindices /\ c ∈ seqZ 0 (geo_dim self)
      /\ _create_function_name (c + local_offset)
           (derivative_counts (geo_dim self) multi)
           quad_element ufl_function ffc_element ≠ None in
  let found_basis :=
    exists multi c, multi ∈ multiindices /\ c ∈ seqZ 0 (geo_dim self)
      /\ (_create_mapping_basis (c + local_offset)
            (derivative_counts (geo_dim self) multi)
            ufl_argument ffc_element).2 ≠ None in
  (found_function ->
   create_function format _create_function_name error_with_argument
         ufl_function derivatives
     component local_comp local_offset ffc_element quad_element
     (OtherMapping name) multiindices self
   = (Raise (error_with_argument "Transformation is not supported: "
               (OtherMapping name)), self))
  /\ (~ found_function ->
      create_function format _create_function_name error_with_argument
         ufl_function derivatives
        component local_comp local_offset ffc_element quad_element
        (OtherMapping name) multiindices self
      = (Ok None, self))
  /\ (found_basis ->
      create_argument format _create_mapping_basis ufl_argument derivatives
        component local_comp local_offset ffc_element
        (OtherMapping name) multiindices self
      = (Raise (FFCError "Transformation is not supported: "), self))
  /\ (~ found_basis ->
      exists code,
        create_argument format _create_mapping_basis ufl_argument derivatives
          component local_comp local_offset ffc_element
          (OtherMapping name) multiindices self
        = (Ok code, self)
        /\ forall key t, Dict.get code key ≠ Some (Some t)).
Proof.
  intros found_function found_basis.
  set (e := FFCError "Transformation is not supported: ").
  set (e' := error_with_argument "Transformation is not supported: " (OtherMapping name)).
  (* the loops of create_function *)
  assert (Hfunction :
    (~ found_function /\
     create_function format _create_function_name error_with_argument
         ufl_function derivatives
       component local_comp local_offset ffc_element quad_element
       (OtherMapping name) multiindices self = (Ok None, self))
    \/ (found_function /\
        create_function format _create_function_name error_with_argument
         ufl_function derivatives
          component local_comp local_offset ffc_element quad_element
          (OtherMapping name) multiindices self = (Raise e', self))).
  { unfold create_function. cbv iota.
    match goal with
    | |- context [for_each ?body [] multiindices] =>
        destruct (for_each_ok_or_raise body
          (fun multi => Forall (fun c =>
             _create_function_name (c + local_offset)
               (derivative_counts (geo_dim self) multi)
               quad_element ufl_function ffc_element = None)
             (seqZ 0 (geo_dim self)))
          (fun code multi => code) e' multiindices [] self)
          as [[Hall Hrun]|[Hex Hrun]]
    end.
    - intros s multi _. erewrite bind_run; [|reflexivity]. cbv zeta.
      match goal with
      | |- context [for_each ?body s (seqZ 0 (geo_dim self))] =>
          destruct (for_each_ok_or_raise body
            (fun c => _create_function_name (c + local_offset)
               (derivative_counts (geo_dim self) multi)
               quad_element ufl_function ffc_element = None)
            (fun code c => code) e' (seqZ 0 (geo_dim self)) s self)
            as [[Hall Hrun]|[Hex Hrun]]
      end.
      + intros s' c _.
        destruct (_create_function_name _ _ _ _ _) as [nm|] eqn:Hnm.
        * right. split; [by intros ?|reflexivity].
        * left. by split.
      + left. split; [done|]. by rewrite Hrun, foldl_const.
      + right. split; [|done]. intros Hall.
        apply Exists_exists in Hex as (c & Hc & Hbad).
        rewrite Forall_forall in Hall. by apply Hbad, Hall.
    - left. split.
      + intros (multi & c & Hmulti & Hc & Hfound).
        rewrite Forall_forall in Hall. specialize (Hall multi Hmulti).
        rewrite Forall_forall in Hall. by apply Hfound, Hall.
      + erewrite bind_run; [|exact Hrun]. by rewrite foldl_const.
    - right. split.
      + apply Exists_exists in Hex as (multi & Hmulti & Hbad).
        apply not_Forall_Exists in Hbad; [|intros c; apply _].
        apply Exists_exists in Hbad as (c & Hc & Hfound).
        by exists multi, c.
      + by apply bind_raise. }
  (* the loops of create_argument *)
  assert (Hargument :
    (~ found_basis /\ exists code,
       create_argument format _create_mapping_basis ufl_argument derivatives
         component local_comp local_offset ffc_element
         (OtherMapping name) multiindices self = (Ok code, self)
       /\ forall key t, Dict.get code key ≠ Some (Some t))
    \/ (found_basis /\
        create_argument format _create_mapping_basis ufl_argument derivatives
          component local_comp local_offset ffc_element
          (OtherMapping name) multiindices self = (Raise e, self))).
  { unfold create_argument. cbv iota.
    match goal with
    | |- context [for_each ?body [] multiindices] =>
        destruct (for_each_ok_or_raise body
          (fun multi => Forall (fun c =>
             (_create_mapping_basis (c + local_offset)
                (derivative_counts (geo_dim self) multi)
                ufl_argument ffc_element).2 = None)
             (seqZ 0 (geo_dim self)))
          (fun code multi =>
             foldl (fun code c =>
                      code_touch code
                        (_create_mapping_basis (c + local_offset)
                           (derivative_counts (geo_dim self) multi)
                           ufl_argument ffc_element).1)
                   code (seqZ 0 (geo_dim self)))
          e multiindices [] self)
          as [[Hall Hrun]|[Hex Hrun]]
    end.
    - intros s multi _. erewrite bind_run; [|reflexivity]. cbv zeta.
      match goal with
      | |- context [for_each ?body s (seqZ 0 (geo_dim self))] =>
          destruct (for_each_ok_or_raise body
            (fun c => (_create_mapping_basis (c + local_offset)
               (derivative_counts (geo_dim self) multi)
               ufl_argument ffc_element).2 = None)
            (fun code c =>
               code_touch code
                 (_create_mapping_basis (c + local_offset)
                    (derivative_counts (geo_dim self) multi)
                    ufl_argument ffc_element).1)
            e (seqZ 0 (geo_dim self)) s self)
            as [[Hall Hrun]|[Hex Hrun]]
      end.
      + intros s' c _.
        destruct (_create_mapping_basis _ _ _ _) as [mapping [b|]] eqn:Hmb.
        * right. split; [by intros ?|reflexivity].
        * left. by split.
      + left. by split.
      + right. split; [|done]. intros Hall.
        apply Exists_exists in Hex as (c & Hc & Hbad).
        rewrite Forall_forall in Hall. by apply Hbad, Hall.
    - left. split.
      + intros (multi & c & Hmulti & Hc & Hfound).
        rewrite Forall_forall in Hall. specialize (Hall multi Hmulti).
        rewrite Forall_forall in Hall. by apply Hfound, Hall.
      + eexists. split.
        * erewrite bind_run; [|exact Hrun]. reflexivity.
        * intros key t. apply argument_entries_None.
          apply foldl_preserve; [|constructor].
          intros code multi Hcode. apply foldl_preserve; [|done].
          intros code' c Hcode'. by apply code_touch_empty.
    - right. split.
      + apply Exists_exists in Hex as (multi & Hmulti & Hbad).
        apply not_Forall_Exists in Hbad; [|intros c; apply _].
        apply Exists_exists in Hbad as (c & Hc & Hfound).
        by exists multi, c.
      + by apply bind_raise. }
  split_and!.
  - intros Hfound. by destruct Hfunction as [[Hnot _]|[_ Hrun]].
  - intros Hnot. by destruct Hfunction as [[_ Hrun]|[Hfound _]].
  - intros Hfound. by destruct Hargument as [[Hnot _]|[_ Hrun]].
  - intros Hnot. by destruct Hargument as [[_ Hrun]|[Hfound _]].
Qed.
End unsupported_more.

(** ** The derivative counts *)

Section counts_more.
Import QuadratureTransformer.

Lemma sum_list_add {A : Type} (a b : A -> Z) (l : list A) :
  sum_list ((fun i => a i + b i) <$> l) = sum_list (a <$> l) + sum_list (b <$> l).
Proof. unfold sum_list. induction l as [|i l IH]; csimpl; lia. Qed.

Lemma sum_list_indicator (x : Z) (l : list Z) :
  NoDup l ->
  sum_list ((fun i => if decide (x = i) then 1 else 0) <$> l)
  = if decide (x ∈ l) then 1 else 0.
Proof.
  unfold sum_list. induction 1 as [|i l Hi Hnd IH]; csimpl.
  - done.
  - rewrite IH. destruct (decide (x = i)) as [->|Hne].
    + rewrite decide_False by done.
      rewrite decide_True by (apply elem_of_cons; by left). done.
    + destruct (decide (x ∈ l)) as [Hin|Hnin].
      * rewrite decide_True by (apply elem_of_cons; by right). done.
      * rewrite decide_False; [done|]. rewrite elem_of_cons. by intros [?|?].
Qed.

Lemma counts_sum (n : Z) (multi : list Z) :
  sum_list ((fun i => Z.of_nat (length (filter (fun x => x = i) multi))) <$> seqZ 0 n)
  = Z.of_nat (length (filter (fun x => 0 <= x < n) multi)).
Proof.
  induction multi as [|x multi IH].
  - csimpl. unfold sum_list. induction (seqZ 0 n) as [|i l IHl]; csimpl; lia.
  - rewrite (list_fmap_ext _
      (fun i => (if decide (x = i) then 1 else 0)
                + Z.of_nat (length (filter (fun x => x = i) multi)))
      (seqZ 0 n)).
    2:{ intros j i _. rewrite filter_cons. destruct (decide (x = i)); csimpl; lia. }
    rewrite sum_list_add, IH, sum_list_indicator by apply NoDup_seqZ.
    rewrite filter_cons.
    destruct (decide (0 <= x < n)) as [Hin|Hout].
    + rewrite decide_True by (apply elem_of_seqZ; lia). csimpl. lia.
    + rewrite decide_False by (rewrite elem_of_seqZ; lia). lia.
Qed.

Lemma sum_list_zero (l : list Z) :
  existsb (fun n => negb (bool_decide (n = 0))) l = false -> sum_list l = 0.
Proof.
  unfold sum_list. induction l as [|z l IH]; csimpl; [done|].
  intros Hz. apply orb_false_iff in Hz as [Hz Hl].
  apply negb_false_iff, bool_decide_eq_true in Hz. rewrite IH by done. lia.
Qed.

(** X13.  The derivative counts of a multi-index add up to the number of its
    entries that are directions of the geometry; the list is empty exactly
    when no entry is such a direction, and has one count for each direction
    otherwise. *)
Theorem derivative_counts_order (n : Z) (multi : list Z) :
  sum_list (derivative_counts n multi)
  = Z.of_nat (length (filter (fun x => 0 <= x < n) multi))
  /\ (derivative_counts n multi = [] <-> Forall (fun x => ~ 0 <= x < n) multi)
  /\ (derivative_counts n multi ≠ [] ->
      length (derivative_counts n multi) = Z.to_nat n).
Proof.
  pose proof (counts_sum n multi) as Hsum. unfold derivative_counts.
  set (raw := (fun i => Z.of_nat (length (filter (fun x => x = i) multi))) <$> seqZ 0 n)
    in *.
  assert (Hfilter : filter (fun x => 0 <= x < n) multi = []
                    <-> Forall (fun x => ~ 0 <= x < n) multi).
  { rewrite Forall_forall. split.
    - intros Hnil x Hx Hin.
      assert (Hf : x ∈ filter (fun x => 0 <= x < n) multi)
        by (by apply list_elem_of_filter).
      rewrite Hnil in Hf. by apply elem_of_nil in Hf.
    - intros Hall. destruct (filter _ multi) as [|x f] eqn:Hf; [done|].
      assert (Hx : x ∈ filter (fun x => 0 <= x < n) multi)
        by (rewrite Hf; apply elem_of_cons; by left).
      apply list_elem_of_filter in Hx as [Hin Hx]. by destruct (Hall x Hx). }
  destruct (existsb _ raw) eqn:Hany; csimpl.
  - split_and!.
    + done.
    + split.
      * intros Hnil. by rewrite Hnil in Hany.
      * intros Hall. apply Hfilter in Hall. rewrite Hall in Hsum. csimpl in Hsum.
        apply existsb_exists in Hany as (z & Hz & Hne).
        apply negb_true_iff, bool_decide_eq_false in Hne.
        exfalso. apply Hne.
        assert (Hnonneg : Forall (fun z => 0 <= z) raw).
        { unfold raw. apply Forall_fmap, Forall_forall. intros i _. csimpl. lia. }
        clear -Hsum Hz Hnonneg. apply list_elem_of_In in Hz.
        unfold sum_list in Hsum.
        induction Hnonneg as [|y raw Hy Hraw IH]; [by apply elem_of_nil in Hz|].
        csimpl in Hsum.
        assert (0 <= foldr Z.add 0 raw).
        { clear -Hraw. induction Hraw; csimpl; lia. }
        apply elem_of_cons in Hz as [->|Hz]; [lia|]. apply IH; [lia|done].
    + intros _. unfold raw. by rewrite length_fmap, length_seqZ.
  - split_and!.
    + rewrite <- Hsum. symmetry. by apply sum_list_zero.
    + split; [|done]. intros _. apply Hfilter.
      rewrite (sum_list_zero _ Hany) in Hsum.
      destruct (filter _ multi); [done|]. csimpl in Hsum. lia.
    + done.
Qed.
End counts_more.

(** ** [division] by one *)

Section division_more.
Context (format : Format).
Import QuadratureTransformer.

(** X14.  Division by the token ["1"] returns the numerator map as it is. *)
Theorem division_by_one (numerator : code_map) :
  Dict.wf numerator ->
  division format [numerator; [([], Some "1")]] = Ok numerator.
Proof.
  intros Hwf. unfold division. csimpl. unfold Dict.items.
  rewrite foldl_set_fresh by done. csimpl. f_equal.
  induction numerator as [|[k [v|]] numerator IH]; csimpl; [done| |].
  - f_equal. apply IH. unfold Dict.wf, Dict.keys in *. csimpl in Hwf.
    by apply NoDup_cons in Hwf as [_ ?].
  - f_equal. apply IH. unfold Dict.wf, Dict.keys in *. csimpl in Hwf.
    by apply NoDup_cons in Hwf as [_ ?].
Qed.
End division_more.

(** ** The wrappers: forms, and the edge cases *)

Lemma mapM_Ok_inv {A B : Type} (f : A -> result B) (l : list A) (l' : list B) :
  mapM f l = Ok l' -> Forall2 (fun x y => f x = Ok y) l l'.
Proof.
  revert l'. induction l as [|x l IH]; intros l'.
  - intros [= <-]. constructor.
  - change (mapM f (x :: l)) with (y ← f x; k ← mapM f l; mret (y :: k)).
    destruct (f x) as [y|e] eqn:Hx; [|done].
    destruct (mapM f l) as [k|e] eqn:Hl; [|done].
    intros [= <-]. constructor; [done|]. by apply IH.
Qed.

Section wrappers_more.
Import Wrappers.
Context {Element : Type} `{EqDecision Element}.

Lemma getitem_list_last {A : Type} (l : list A) :
  getitem_list l (-1) =
  match last l with
  | Some a => Ok a
  | None => Raise IndexError
  end.
Proof.
  unfold getitem_list. rewrite (bool_decide_true (-1 < 0)) by lia.
  destruct l as [|a l _] using rev_ind; [done|].
  rewrite last_snoc, length_app. cbn [length].
  rewrite bool_decide_true by lia.
  replace (Z.to_nat (-1 + Z.of_nat (length l + 1))) with (length l) by lia.
  by rewrite lookup_app_r, Nat.sub_diag.
Qed.

(** X15.  With no element, [_encapsule_element] does not fail on the index
    [-1]: it takes the last class name of each of the three lists, and
    fails with an [IndexError] only where a list is empty. *)
Theorem encapsule_element_empty (prefix : string)
    (classnames : list (string * list string)) (es ds cs : list string) :
  Dict.get classnames "elements" = Some es ->
  Dict.get classnames "dofmaps" = Some ds ->
  Dict.get classnames "coordinate_mapppings" = Some cs ->
  (forall e d c, last es = Some e -> last ds = Some d -> last cs = Some c ->
     _encapsule_element (Element := Element) prefix classnames []
     = Ok {| element_name := "0";
             element_classnames := [e];
             element_dofmap_classnames := [d];
             element_coordinate_mapping_classnames := [c] |})
  /\ (es = [] \/ ds = [] \/ cs = [] ->
      _encapsule_element (Element := Element) prefix classnames [] = Raise IndexError).
Proof.
  intros He Hd Hc. unfold _encapsule_element, getitem. rewrite He, Hd, Hc. csimpl.
  rewrite !getitem_list_last. split.
  - by intros e d c -> -> ->.
  - intros [->|[->| ->]]; csimpl.
    + done.
    + by destruct (last es).
    + destruct (last es); [|done]. by destruct (last ds).
Qed.

(** X16.  Where [_encapsule_form] returns, the three lists of class names
    have one entry for each argument and coefficient element, each
    coefficient has a name, by default [w] and its position, and the
    superclass is ["Form"]; an element that the element map does not have
    makes it fail with a [KeyError].  For a form data without elements only
    the class name of the form is looked up: the function returns whatever
    the tables of the element, dofmap and coordinate-map class names are,
    also when they are missing. *)
Theorem encapsule_form_shape (prefix : string) (object_names : list (Z * string))
    (classnames : list (string * list string)) (form_data : FormData) (i : nat)
    (element_map : list (Element * Z)) :
  let elements := argument_elements form_data ++ coefficient_elements form_data in
  (forall r,
     _encapsule_form prefix object_names classnames form_data i element_map = Ok r ->
     length (ufc_finite_element_classnames r) = length elements
     /\ length (ufc_dofmap_classnames r) = length elements
     /\ length (ufc_coordinate_mapping_classnames r) = length elements
     /\ length (coefficient_names r) = length (reduced_coefficients form_data)
     /\ (forall j obj, reduced_coefficients form_data !! j = Some obj ->
           coefficient_names r !! j
           = Some (get_default object_names obj ("w" +:+ pretty (Z.of_nat j))))
     /\ superclassname r = "Form")
  /\ ((exists e, e ∈ elements /\ Dict.get element_map e = None) ->
      exists k, _encapsule_form prefix object_names classnames form_data i element_map
                = Raise (KeyError k))
  /\ (elements = [] ->
      forall fs f, Dict.get classnames "forms" = Some fs -> fs !! i = Some f ->
        exists r,
          _encapsule_form prefix object_names classnames form_data i element_map = Ok r
          /\ ufc_form_classname r = f
          /\ ufc_finite_element_classnames r = []
          /\ ufc_dofmap_classnames r = []
          /\ ufc_coordinate_mapping_classnames r = []).
Proof.
  intros elements. split_and!.
  - intros r. unfold _encapsule_form. fold elements.
    destruct (mapM _ elements) as [numbers|e] eqn:Hn; [|done]. csimpl.
    destruct (getitem classnames "forms" _) as [fs|e]; [|done]. csimpl.
    destruct (getitem_list fs _) as [f|e]; [|done]. csimpl.
    destruct (mapM (fun j => es ← getitem classnames "elements" _; getitem_list es j)
                   numbers) as [es'|e] eqn:He; [|done]. csimpl.
    destruct (mapM (fun j => ds ← getitem classnames "dofmaps" _; getitem_list ds j)
                   numbers) as [ds'|e] eqn:Hd; [|done]. csimpl.
    destruct (mapM (fun j => cs ← getitem classnames "coordinate_maps" _;
                             getitem_list cs j)
                   numbers) as [cs'|e] eqn:Hc; [|done]. csimpl.
    intros [= <-]. csimpl.
    apply mapM_Ok_inv, Forall2_length in Hn, He, Hd, Hc.
    split_and!; try congruence.
    + by rewrite length_imap.
    + intros j obj Hj. by rewrite list_lookup_imap, Hj.
  - intros (e & Hin & Hnone). exists "element".
    unfold _encapsule_form. fold elements.
    rewrite (mapM_Raise _ (KeyError "element")); [done| |].
    + intros x e' _. unfold getitem. by destruct (Dict.get element_map x); intros [= <-].
    + exists e. split; [done|]. unfold getitem. by rewrite Hnone.
  - intros Hnil fs f Hfs Hf. unfold _encapsule_form. fold elements. rewrite Hnil.
    unfold getitem. rewrite Hfs. csimpl.
    assert (Hi : getitem_list fs (Z.of_nat i) = Ok f).
    { unfold getitem_list. pose proof (lookup_lt_Some _ _ _ Hf) as Hlt.
      cbv zeta. rewrite (bool_decide_false (Z.of_nat i < 0)) by lia.
      rewrite bool_decide_true by lia.
      by rewrite Nat2Z.id, Hf. }
    rewrite Hi. csimpl. eexists. split; [reflexivity|]. by split_and!.
Qed.

Context (all_equal : list Element -> bool).
Context (generate_dolfin_code :
           string -> string -> UFCElementNames + list UFCFormNames -> bool -> string).

Lemma zip_seq_lookup {A : Type} (l : list A) (start j : nat) (a : A) :
  l !! j = Some a -> zip (seq start (length l)) l !! j = Some ((start + j)%nat, a).
Proof.
  revert start j. induction l as [|x l IH]; intros start [|j]; csimpl; try done.
  - intros [= ->]. by rewrite Nat.add_0_r.
  - intros Hj. rewrite (IH (S start) j) by done. do 2 f_equal. lia.
Qed.

(** X17.  With form datas, [_encapsulate] does not look at the list of
    elements; it returns exactly when [_encapsule_form] returns for every
    form data and its position, and it then gives one capsule for each form
    data, the capsule at position [j] being the one [_encapsule_form] makes
    of the form data and [j], and the flag is [all_equal] of the argument
    elements of all forms.  Without form datas the flag is false. *)
Theorem encapsulate_forms (prefix : string) (object_names : list (Z * string))
    (classnames : list (string * list string))
    (form_datas : list FormData) (elements : list Element)
    (element_map : list (Element * Z)) :
  (form_datas ≠ [] ->
   (forall elements',
      _encapsulate all_equal prefix object_names classnames form_datas elements
        element_map
      = _encapsulate all_equal prefix object_names classnames form_datas elements'
          element_map)
   /\ (forall capsules common_space,
         _encapsulate all_equal prefix object_names classnames form_datas elements
           element_map = Ok (capsules, common_space) ->
         exists forms, capsules = inr forms
           /\ length forms = length form_datas
           /\ (forall j fd, form_datas !! j = Some fd ->
                 exists c, forms !! j = Some c
                   /\ _encapsule_form prefix object_names classnames fd j element_map
                      = Ok c)
           /\ common_space = all_equal (concat (argument_elements <$> form_datas)))
   /\ ((forall j fd, form_datas !! j = Some fd ->
          exists c, _encapsule_form prefix object_names classnames fd j element_map
                    = Ok c) ->
       exists forms,
         _encapsulate all_equal prefix object_names classnames form_datas elements
           element_map
         = Ok (inr forms, all_equal (concat (argument_elements <$> form_datas)))))
  /\ (form_datas = [] ->
      forall capsules common_space,
        _encapsulate all_equal prefix object_names classnames form_datas elements
          element_map = Ok (capsules, common_space) ->
        common_space = false
        /\ exists c, capsules = inl c
             /\ _encapsule_element prefix classnames elements = Ok c).
Proof.
  split.
  - intros Hne. unfold _encapsulate.
    rewrite bool_decide_false by (by destruct form_datas).
    split_and!; [done| |].
    + intros capsules common_space.
      destruct (mapM _ (zip _ form_datas)) as [forms|e] eqn:Hforms; [|done]. csimpl.
      intros [= <- <-]. exists forms. apply mapM_Ok_inv in Hforms.
      split_and!; [done| | |done].
      * apply Forall2_length in Hforms. rewrite <- Hforms, length_zip, length_seq. lia.
      * intros j fd Hj. pose proof (zip_seq_lookup _ 0 _ _ Hj) as Hz.
        destruct (Forall2_lookup_l _ _ _ _ _ Hforms Hz) as (c & Hc & Hrun).
        exists c. by split.
    + intros Hall.
      destruct (mapM_Ok_Forall2
                  (fun ifd : nat * FormData =>
                     _encapsule_form prefix object_names classnames ifd.2 ifd.1
                       element_map)
                  (zip (seq 0 (length form_datas)) form_datas)) as (forms & Hforms & _).
      { apply Forall_forall. intros [j fd] Hin. csimpl.
        apply list_elem_of_lookup in Hin as [n Hn].
        apply lookup_zip_with_Some in Hn as (j' & fd' & [= <- <-] & Hj & Hfd).
        apply lookup_seq in Hj as [-> _]. by apply Hall. }
      exists forms. by rewrite Hforms.
  - intros ->. unfold _encapsulate. csimpl. intros capsules common_space.
    destruct (_encapsule_element prefix classnames elements) as [c|e]; [|done].
    csimpl. intros [= <- <-]. split; [done|]. by exists c.
Qed.

(** X18.  [generate_wrapper_code] fails with a [KeyError] without the
    parameter ["format"]; for a format other than ["dolfin"] it returns
    [None] and looks up no class name, so it does not fail; for ["dolfin"] a
    failure of the encapsulation is passed on, and the code that is returned
    ends with two newlines. *)
Theorem generate_wrapper_code_cases (prefix : string) (object_names : list (Z * string))
    (classnames : list (string * list string))
    (form_datas : list FormData) (elements : list Element)
    (element_map : list (Element * Z)) (parameters : list (string * string)) :
  let run :=
    generate_wrapper_code all_equal generate_dolfin_code prefix object_names
      classnames form_datas elements element_map parameters in
  let newline := String (Ascii.ascii_of_nat 10) "" in
  (Dict.get parameters "format" = None -> run = Raise (KeyError "'format'"))
  /\ (forall fmt, Dict.get parameters "format" = Some fmt -> fmt ≠ "dolfin" ->
        run = Ok None)
  /\ (Dict.get parameters "format" = Some "dolfin" ->
      (forall e,
         _encapsulate all_equal prefix object_names classnames form_datas elements
           element_map = Raise e ->
         run = Raise e)
      /\ (forall code, run = Ok code ->
            exists body, code = Some (body +:+ newline +:+ newline))).
Proof.
  intros run newline. unfold run, generate_wrapper_code, getitem. split_and!.
  - by intros ->.
  - intros fmt -> Hne. csimpl. by rewrite bool_decide_false.
  - intros ->. csimpl. unfold _generate_dolfin_wrapper. split.
    + by intros e ->.
    + intros code.
      destruct (_encapsulate _ _ _ _ _ _ _) as [[capsules common]|e]; [|done].
      csimpl. intros [= <-]. by eexists.
Qed.
End wrappers_more.

(** ** Further concrete runs *)

Section runs_more.
Import QuadratureTransformer Wrappers.

Lemma sum_returns_witness :
  exists code,
    sum Sample.format Sample.reverse_order
      [[([], Some "t"); ([0], None)]; [([], Some "u")]; [([], Some "t")]] = Ok code
    /\ Dict.wf code.
Proof.
  destruct (sum_returns Sample.format Sample.reverse_order
              [[([], Some "t"); ([0], None)]; [([], Some "u")]; [([], Some "t")]]
              reverse_order_enumerates) as (code & Hrun & Hwf & _).
  exists code. by split.
Defined.

Lemma sum_zero_neutral_witness :
  sum Sample.format Sample.reverse_order
    ([[([], Some "a"); ([0], Some "b")]; [([], Some "c")]]
     ++ [_format_scalar_value Sample.format None])
  = sum Sample.format Sample.reverse_order
      [[([], Some "a"); ([0], Some "b")]; [([], Some "c")]].
Proof.
  apply (sum_zero_neutral Sample.format Sample.reverse_order).
  intros kv Hkv. apply list_elem_of_singleton in Hkv as ->. split; [reflexivity|].
  exists [([], Some "a"); ([0], Some "b")]. split.
  - apply elem_of_cons. by left.
  - apply (bool_decide_unpack _). vm_compute. exact I.
Defined.

Lemma product_of_symbols_witness :
  product Sample.format create_permutations (_create_symbol <$> ["A"; "1"; "B"])
  = Ok (_create_symbol (_create_product Sample.format ["A"; "B"])).
Proof.
  apply (product_of_symbols Sample.format create_permutations ["A"; "1"; "B"]).
  - reflexivity.
  - repeat constructor; discriminate.
Defined.

Lemma create_function_run_witness :
  (create_function Sample.format Sample.function_name
     Sample.error_with_argument tt [0] 0 0 0 tt tt
     COVARIANT_PIOLA [[0]; [1]] Sample.self0).2
  = record (function_names Sample.format Sample.function_name NoRestriction 2
              [0] 0 0 0 COVARIANT_PIOLA tt tt tt [[0]; [1]])
           Sample.self0.
Proof.
  destruct (create_function_run Sample.format Sample.function_name
              Sample.error_with_argument tt [0] 0 0 0 tt tt
              COVARIANT_PIOLA [[0]; [1]] Sample.self0) as [Hrun _].
  - exact I.
  - repeat constructor.
  - by rewrite Hrun.
Defined.

Lemma create_argument_run_witness :
  exists code,
    create_argument Sample.format Sample.mapping_basis tt [0] 0 0 0 tt
      CONTRAVARIANT_PIOLA [[0]; [1]] Sample.self0
    = (Ok code,
       record (argument_names Sample.format Sample.mapping_basis NoRestriction 2
                 [0] 0 0 0 CONTRAVARIANT_PIOLA tt tt [[0]; [1]])
              Sample.self0)
    /\ Dict.wf code.
Proof.
  destruct (create_argument_run Sample.format Sample.mapping_basis tt [0] 0 0 0 tt
              CONTRAVARIANT_PIOLA [[0]; [1]] Sample.self0)
    as (code & Hrun & Hwf & _).
  - exact I.
  - repeat constructor.
  - exists code. by split.
Defined.

Lemma division_by_one_witness :
  division Sample.format [[([0], Some "A"); ([1], None)]; [([], Some "1")]]
  = Ok [([0], Some "A"); ([1], None)].
Proof.
  apply (division_by_one Sample.format [([0], Some "A"); ([1], None)]).
  apply (bool_decide_unpack _). vm_compute. exact I.
Defined.

(** A form without elements needs the class name of the form alone. *)
Example encapsulate_form_without_elements :
  _encapsulate (Element := string) (fun _ => true) "prefix" [] [("forms", ["f0"])]
    [{| original_form := 10; reduced_coefficients := [11];
        argument_elements := []; coefficient_elements := [] |}] ["P1"] []
  = Ok (inr [{| form_name := "0";
                coefficient_names := ["w0"];
                ufc_form_classname := "f0";
                ufc_finite_element_classnames := [];
                ufc_dofmap_classnames := [];
                ufc_coordinate_mapping_classnames := [];
                superclassname := "Form" |}], true).
Proof. vm_compute. reflexivity. Qed.

Lemma encapsule_element_empty_witness :
  _encapsule_element (Element := string) "prefix"
    [("elements", ["e0"; "e1"]); ("dofmaps", ["d0"; "d1"]);
     ("coordinate_mapppings", ["m0"; "m1"])] []
  = Ok {| element_name := "0";
          element_classnames := ["e1"];
          element_dofmap_classnames := ["d1"];
          element_coordinate_mapping_classnames := ["m1"] |}.
Proof.
  destruct (encapsule_element_empty (Element := string) "prefix"
              [("elements", ["e0"; "e1"]); ("dofmaps", ["d0"; "d1"]);
               ("coordinate_mapppings", ["m0"; "m1"])]
              ["e0"; "e1"] ["d0"; "d1"] ["m0"; "m1"] eq_refl eq_refl eq_refl)
    as [Hlast _].
  by apply Hlast.
Defined.

Lemma apply_transform_bounds_witness :
  __apply_transform Sample.format (Some "FE0") [0; 1] [1] Sample.self0
  = (Raise IndexError,
     record (jinv_factors Sample.format NoRestriction [1] [0; 1]) Sample.self0)
  /\ __apply_transform Sample.format (Some "FE0") [0] [1; 0] Sample.self0
     = __apply_transform Sample.format (Some "FE0") [0] [1] Sample.self0.
Proof.
  split.
  - destruct (apply_transform_bounds Sample.format (Some "FE0") [0; 1] [1] Sample.self0)
      as [Hshort _].
    apply Hshort. simpl. lia.
  - destruct (apply_transform_bounds Sample.format (Some "FE0") [0] [1; 0] Sample.self0)
      as [_ Hlong].
    apply Hlong. simpl. lia.
Defined.

Lemma unsupported_mapping_witness :
  create_function Sample.format Sample.function_name Sample.error_with_argument
    tt [0] 0 0 0 tt tt (OtherMapping "hdiv") [[0]] Sample.self0
  = (Raise (TypeError "not all arguments converted during string formatting"),
     Sample.self0)
  /\ create_function Sample.format Sample.function_name Sample.error_with_argument
       tt [0] 0 0 (-2) tt tt (OtherMapping "hdiv") [[0]] Sample.self0
     = (Ok None, Sample.self0)
  /\ create_argument Sample.format Sample.mapping_basis
       tt [0] 0 0 0 tt (OtherMapping "hdiv") [[0]] Sample.self0
     = (Raise (FFCError "Transformation is not supported: "), Sample.self0).
Proof.
  split_and!.
  - destruct (unsupported_mapping Sample.format Sample.mapping_basis Sample.function_name
                Sample.error_with_argument
                "hdiv" tt tt [0] 0 0 0 tt tt [[0]] Sample.self0) as (Hraise & _).
    apply Hraise. exists [0], 0. split_and!.
    + apply elem_of_cons. by left.
    + apply (bool_decide_unpack _). vm_compute. exact I.
    + discriminate.
  - destruct (unsupported_mapping Sample.format Sample.mapping_basis Sample.function_name
                Sample.error_with_argument
                "hdiv" tt tt [0] 0 0 (-2) tt tt [[0]] Sample.self0) as (_ & Hnone & _).
    apply Hnone. intros (multi & c & _ & Hc & Hfound).
    apply elem_of_seqZ in Hc. simpl in Hc. apply Hfound.
    unfold Sample.function_name. rewrite bool_decide_true; [done|lia].
  - destruct (unsupported_mapping Sample.format Sample.mapping_basis Sample.function_name
                Sample.error_with_argument
                "hdiv" tt tt [0] 0 0 0 tt tt [[0]] Sample.self0) as (_ & _ & Hraise & _).
    apply Hraise. exists [0], 0. split_and!.
    + apply elem_of_cons. by left.
    + apply (bool_decide_unpack _). vm_compute. exact I.
    + discriminate.
Defined.
End runs_more.
